(** * Global symmetries, the SYK2 model and the model-parameter record

    A shallow embedding of
    - [VQMC_S/include/algebra/global_symmetries.h] (namespace [GlobalSyms]),
    - [library/include/models/quadratic/SYK2.h] (class [SYK2]),
    - [library/include/user_interface/user_interface_modp.hpp] (struct [ModP]),
    and the properties of these that the specification states. *)

From Stdlib Require Import ZArith Arith ArithRing List Bool Lia String Ascii.
From Stdlib Require Import Floats.SpecFloat.
From Stdlib Require Import DecimalString.
From Stdlib Require Import Permutation.
From Stdlib Require Import DecimalPos DecimalZ.
Import ListNotations.

Local Open Scope Z_scope.

(** ** C++ values shared by the three headers *)

(** [double]: IEEE 754 binary64, as the specification floats of the
    Standard Library (precision 53, maximal exponent 1024). *)
Definition double : Type := spec_float.

Definition prec64 : Z := 53.
Definition emax64 : Z := 1024.

(** Conversion of an integer to [double] (round to nearest even), which is
    what C++ applies to the integer operand of a mixed comparison or
    assignment. *)
Definition double_of_int (n : Z) : double :=
  binary_normalize prec64 emax64 n 0 false.

(** [==] on doubles. *)
Definition double_eqb (x y : double) : bool := SFeqb x y.

(** [u64] is an unsigned 64-bit integer: a [Z] in [[0, 2^64)]. *)
Definition u64_bits : nat := 64.
Definition u64_modulus : Z := 2 ^ 64.
Definition is_u64 (x : Z) : Prop := 0 <= x < u64_modulus.

(** [size_t] arithmetic wraps around modulo [2^64]. *)
Definition size_t_sub (a b : Z) : Z := (a - b) mod u64_modulus.

(** [std::popcount] on a [u64]: the number of bits set among the 64 bits
    of the value. *)
Fixpoint popcount_upto (n : nat) (x : Z) : Z :=
  match n with
  | O => 0
  | S n' => popcount_upto n' x + Z.b2z (Z.testbit x (Z.of_nat n'))
  end.

Definition popcount (x : Z) : Z := popcount_upto u64_bits x.

(** What a C++ call does: it returns a value or throws. *)
Inductive exn : Type :=
| bad_function_call
| length_error
| logic_error
| bad_alloc.

Inductive result (A : Type) : Type :=
| Ok (a : A)
| Throw (e : exn).
Arguments Ok {A} a.
Arguments Throw {A} e.

(** A member function that mutates [this] and may throw: from the object
    before the call to the object after it, with the value returned or the
    exception thrown. *)
Definition method (S A : Type) : Type := S -> result A * S.

Definition ret {S A : Type} (a : A) : method S A := fun s => (Ok a, s).

Definition bind {S A B : Type} (c : method S A) (k : A -> method S B) : method S B :=
  fun s => match c s with
           | (Ok a, s') => k a s'
           | (Throw e, s') => (Throw e, s')
           end.

Definition gets {S A : Type} (f : S -> A) : method S A := fun s => (Ok (f s), s).

Definition modify {S : Type} (f : S -> S) : method S unit := fun s => (Ok tt, f s).

Definition lift {S A : Type} (r : result A) : method S A := fun s => (r, s).

Notation "x <- c ;; k" := (bind c (fun x => k))
  (at level 61, c at next level, right associativity).
Notation "c ;;; k" := (bind c (fun _ => k))
  (at level 61, right associativity).

(** ** global_symmetries.h *)

Module GlobalSyms.

Inductive GlobalSymGenerators : Type := U1 | OTHER.

(** [std::function<bool(u64, double)>]: empty, or holding a callable. *)
Definition repType : Type := option (Z -> double -> bool).

Section WithLattice.
(** [Lattice] is declared in [lattices.h]; the generator only stores the
    shared pointer. *)
Variable Lattice : Type.

Record GlobalSym : Type := mkGlobalSym {
  name_ : GlobalSymGenerators;
  check_ : repType;
  val_ : double;
  lat_ : Lattice
}.

(** The constructor initialises [val_], [lat_] and [name_]; [check_] is
    default-constructed, that is empty. *)
Definition new (_lat : Lattice) (_name : GlobalSymGenerators) : GlobalSym :=
  {| name_ := _name; check_ := None; val_ := double_of_int 0; lat_ := _lat |}.

(** The constructor with the default [_name = OTHER]. *)
Definition new_default (_lat : Lattice) : GlobalSym := new _lat OTHER.

Definition setFun (_fun : repType) (g : GlobalSym) : GlobalSym :=
  {| name_ := name_ g; check_ := _fun; val_ := val_ g; lat_ := lat_ g |}.

Definition setName (_name : GlobalSymGenerators) (g : GlobalSym) : GlobalSym :=
  {| name_ := _name; check_ := check_ g; val_ := val_ g; lat_ := lat_ g |}.

(** [val_] is a public member: it is assigned directly. *)
Definition setVal (_val : double) (g : GlobalSym) : GlobalSym :=
  {| name_ := name_ g; check_ := check_ g; val_ := _val; lat_ := lat_ g |}.

Definition getName (g : GlobalSym) : GlobalSymGenerators := name_ g.
Definition getVal (g : GlobalSym) : double := val_ g.

(** Invoking a [std::function]: an empty one throws
    [std::bad_function_call]. *)
Definition invoke (f : repType) (state : Z) (v : double) : result bool :=
  match f with
  | Some p => Ok (p state v)
  | None => Throw bad_function_call
  end.

(** [operator()(u64 state)], both overloads have the same body. *)
Definition call (g : GlobalSym) (state : Z) : result bool :=
  invoke (check_ g) state (val_ g).

(** [check(u64 state, bool outCond)]:
    [this->check_(state, val_) && outCond]. *)
Definition check (g : GlobalSym) (state : Z) (outCond : bool) : result bool :=
  match invoke (check_ g) state (val_ g) with
  | Ok b => Ok (b && outCond)
  | Throw e => Throw e
  end.

(** The mutations of a generator other than [setFun]. *)
Inductive other_setter : Type :=
| SetName (_name : GlobalSymGenerators)
| SetVal (_val : double).

Definition apply_setter (g : GlobalSym) (o : other_setter) : GlobalSym :=
  match o with
  | SetName n => setName n g
  | SetVal v => setVal v g
  end.

Definition apply_setters (ops : list other_setter) (g : GlobalSym) : GlobalSym :=
  fold_left apply_setter ops g.

End WithLattice.

Arguments name_ {Lattice} g.
Arguments check_ {Lattice} g.
Arguments val_ {Lattice} g.
Arguments lat_ {Lattice} g.
Arguments new {Lattice} _lat _name.
Arguments new_default {Lattice} _lat.
Arguments setFun {Lattice} _fun g.
Arguments setName {Lattice} _name g.
Arguments setVal {Lattice} _val g.
Arguments call {Lattice} g state.
Arguments check {Lattice} g state outCond.
Arguments apply_setter {Lattice} g o.
Arguments apply_setters {Lattice} ops g.

(** [U1Sym]: [std::popcount(_state) == _val], the [int] count converted
    to [double] for the comparison. *)
Definition U1Sym (_state : Z) (_val : double) : bool :=
  double_eqb (double_of_int (popcount _state)) _val.

End GlobalSyms.

(** ** The U(1) sectors *)

(** The basis states on [Ns] sites: the bit patterns [0 .. 2^Ns - 1], in
    ascending numeric order. *)
Definition states (Ns : nat) : list Z := map Z.of_nat (seq 0 (2 ^ Ns)).

(** The U(1) sector of the integer target [k] on [Ns] sites: the basis
    states on which [U1Sym] returns [true] for the target as a [double]. *)
Definition sector (Ns : nat) (k : Z) : list Z :=
  filter (fun s => GlobalSyms.U1Sym s (double_of_int k)) (states Ns).

(** [MY_MODELS] is declared elsewhere in the repository; these are the
    enumerators that the three headers name. *)
Inductive MY_MODELS : Type :=
| ISING_M
| FREE_FERMIONS_M
| SYK2_M.

(** ** The binomial coefficient, by Pascal's rule *)

Fixpoint binomial (n k : nat) : nat :=
  match n, k with
  | _, O => 1%nat
  | O, S _ => 0%nat
  | S n', S k' => (binomial n' k' + binomial n' (S k'))%nat
  end.

(** ** user_interface_modp.hpp *)

Module UI_PARAMS.

(** *** [std::vector] *)

(** Double literals of the header. *)
Definition d0 : double := double_of_int 0.
Definition d1 : double := double_of_int 1.
Definition d2 : double := double_of_int 2.
Definition d0_5 : double := SFdiv prec64 emax64 (double_of_int 1) (double_of_int 2).
Definition d0_3 : double := SFdiv prec64 emax64 (double_of_int 3) (double_of_int 10).
Definition d0_1 : double := SFdiv prec64 emax64 (double_of_int 1) (double_of_int 10).
(** [(1 + std::sqrt(5)) / 2] *)
Definition golden : double :=
  SFdiv prec64 emax64
    (SFadd prec64 emax64 d1 (SFsqrt prec64 emax64 (double_of_int 5))) d2.

(** [v_1d<T>] is [std::vector<T>]. *)
Definition v_1d (T : Type) : Type := list T.

(** [v_1d<T>(n, x)]: [n] copies of [x]. *)
Definition v_1d_fill {T : Type} (n : nat) (x : T) : v_1d T := repeat x n.

(** [v.size()], a [size_t]. *)
Definition size {T : Type} (v : v_1d T) : Z := Z.of_nat (List.length v).

(** [v[i]] with [i] a [size_t]: defined only for [i < v.size()]; [None]
    stands for the out-of-bounds access, which has no defined result. *)
Definition at_index {T : Type} (v : v_1d T) (i : Z) : option T :=
  if (0 <=? i) && (i <? size v) then nth_error v (Z.to_nat i) else None.

(** [v.resize(n)] with [n] a [size_t]: throws [std::length_error] when [n]
    exceeds [max_size()]; when the vector has to grow it asks the allocator
    for storage and throws [std::bad_alloc], leaving the vector as it was,
    when the request is not [granted]; otherwise it truncates to [n]
    elements or appends value-initialised elements up to [n].  The capacity
    is not modelled: a growth within the capacity is a request that is
    always granted. *)
Definition vector_resize {T : Type} (max_size : Z) (granted : bool) (zero : T)
    (v : v_1d T) (n : Z) : result (v_1d T) :=
  if max_size <? n then Throw length_error
  else if (size v <? n) && negb granted then Throw bad_alloc
  else Ok (firstn (Z.to_nat n) v ++ repeat zero (Z.to_nat n - List.length v)).

(** Whether the allocator grants a request depends on the state of the
    heap, of which the model has nothing; it is taken as an arbitrary
    function of what the model has at the moment of the request: the object
    and the number of elements asked for.  Every two requests of one call
    are made on different objects, so any sequence of answers within a call
    is that of some allocator; two calls get the same answer to the same
    request on the same object. *)
Definition allocator (S : Type) : Type := S -> Z -> bool.

(** *** The parameter record

    The macros [UI_PARAM_CREATE_DEFAULT], [UI_PARAM_CREATE_DEFAULTD],
    [UI_PARAM_CREATE_DEFAULTV], [UI_PARAM_STEP] and the [UI_PARAM_SET_DEFAULT*]
    family are defined in [user_interface_include.hpp], which is not among the
    sources.  They are read off their uses in this header:
    [UI_PARAM_CREATE_DEFAULT(D)(p, T, v)] and [UI_PARAM_STEP(T, p, v)] declare
    a member [p_] of type [T] initialised to [v];
    [UI_PARAM_CREATE_DEFAULTV(p, T)] declares a vector [p_] of [T], empty on
    construction, and a scalar [p_r_]; [UI_PARAM_SET_DEFAULT*(p)] puts [p_]
    back to [v].  Only the [p_r_] members that the header names are kept. *)

Record qsm_t : Type := mk_qsm_t {
  qsm_N_ : Z;
  qsm_Ntot_ : Z;
  qsm_gamma_ : double;
  qsm_g0_ : double;
  qsm_alpha_ : v_1d double;
  qsm_alpha_r_ : double;
  qsm_xi_ : v_1d double;
  qsm_xi_r_ : double;
  qsm_h_ : v_1d double;
  qsm_h_r_ : double
}.

Record rosenzweig_porter_t : Type := mk_rosenzweig_porter_t {
  rp_g_ : v_1d double;
  rp_single_particle_ : bool;
  rp_be_real_ : bool;
  rp_g_sweep_n_ : Z
}.

Record ultrametric_t : Type := mk_ultrametric_t {
  um_N_ : Z;
  um_Ntot_ : Z;
  um_alpha_ : v_1d double;
  um_alpha_r_ : double;
  um_g_ : double
}.

Record aubry_andre_t : Type := mk_aubry_andre_t {
  aa_J_ : double;
  aa_lambda_ : double;
  aa_beta_ : double;
  aa_phi_ : double
}.

Record power_law_random_bandwidth_t : Type := mk_power_law_random_bandwidth_t {
  plrb_a_ : v_1d double;
  plrb_b_ : double;
  plrb_mb_ : bool
}.

Record ModP : Type := mk_ModP {
  modTyp_ : MY_MODELS;
  modRanN_ : v_1d Z;
  modRanSeed_ : Z;
  modRanNIdx_ : Z;
  eth_entro_ : bool;
  eth_susc_ : bool;
  eth_ipr_ : bool;
  eth_offd_ : bool;
  eth_end_ : v_1d double;
  modMidStates_ : double;
  modEnDiff_ : double;
  operators : v_1d string;
  J1_ : double;
  hz_ : double;
  hx_ : double;
  J2_ : double;
  eta1_ : double;
  eta2_ : double;
  dlt1_ : double;
  dlt2_ : double;
  Kx_ : v_1d double;
  Ky_ : v_1d double;
  Kz_ : v_1d double;
  heiJ_ : v_1d double;
  heiDlt_ : v_1d double;
  heiHx_ : v_1d double;
  heiHz_ : v_1d double;
  qsm : qsm_t;
  rosenzweig_porter : rosenzweig_porter_t;
  ultrametric : ultrametric_t;
  q_gamma_ : Z;
  q_manifold_ : bool;
  q_manybody_ : bool;
  q_randomCombNum_ : Z;
  q_realizationNum_ : Z;
  q_shuffle_ : bool;
  q_broad_ : double;
  aubry_andre : aubry_andre_t;
  power_law_random_bandwidth : power_law_random_bandwidth_t
}.

(** The objects as their default member initialisers leave them. *)
Definition qsm_t_init : qsm_t :=
  {| qsm_N_ := 1; qsm_Ntot_ := 1; qsm_gamma_ := d1; qsm_g0_ := d1;
     qsm_alpha_ := []; qsm_alpha_r_ := d0;
     qsm_xi_ := []; qsm_xi_r_ := d0;
     qsm_h_ := []; qsm_h_r_ := d0 |}.

Definition rosenzweig_porter_t_init : rosenzweig_porter_t :=
  {| rp_g_ := []; rp_single_particle_ := false; rp_be_real_ := true;
     rp_g_sweep_n_ := 1 |}.

Definition ultrametric_t_init : ultrametric_t :=
  {| um_N_ := 1; um_Ntot_ := 1; um_alpha_ := []; um_alpha_r_ := d0; um_g_ := d1 |}.

Definition aubry_andre_t_init : aubry_andre_t :=
  {| aa_J_ := d1; aa_lambda_ := d0_5; aa_beta_ := golden; aa_phi_ := d1 |}.

Definition power_law_random_bandwidth_t_init : power_law_random_bandwidth_t :=
  {| plrb_a_ := []; plrb_b_ := d1; plrb_mb_ := false |}.

Definition ModP_init : ModP :=
  {| modTyp_ := ISING_M; modRanN_ := []; modRanSeed_ := 0; modRanNIdx_ := 0;
     eth_entro_ := false; eth_susc_ := true; eth_ipr_ := true; eth_offd_ := false;
     eth_end_ := []; modMidStates_ := d1; modEnDiff_ := d1; operators := [];
     J1_ := d1; hz_ := d1; hx_ := d1;
     J2_ := d2; eta1_ := d0_5; eta2_ := d0_5; dlt1_ := d0_3; dlt2_ := d0_3;
     Kx_ := []; Ky_ := []; Kz_ := [];
     heiJ_ := []; heiDlt_ := []; heiHx_ := []; heiHz_ := [];
     qsm := qsm_t_init;
     rosenzweig_porter := rosenzweig_porter_t_init;
     ultrametric := ultrametric_t_init;
     q_gamma_ := 1; q_manifold_ := false; q_manybody_ := true;
     q_randomCombNum_ := 100; q_realizationNum_ := 100; q_shuffle_ := true;
     q_broad_ := d0_1;
     aubry_andre := aubry_andre_t_init;
     power_law_random_bandwidth := power_law_random_bandwidth_t_init |}.

(** *** Assignments to the members that [resizeQSM] and [resizeUM] write *)

Definition set_qsm_alpha_ (v : v_1d double) (q : qsm_t) : qsm_t :=
  mk_qsm_t (qsm_N_ q) (qsm_Ntot_ q) (qsm_gamma_ q) (qsm_g0_ q)
    v (qsm_alpha_r_ q) (qsm_xi_ q) (qsm_xi_r_ q) (qsm_h_ q) (qsm_h_r_ q).

Definition set_qsm_alpha_r_ (x : double) (q : qsm_t) : qsm_t :=
  mk_qsm_t (qsm_N_ q) (qsm_Ntot_ q) (qsm_gamma_ q) (qsm_g0_ q)
    (qsm_alpha_ q) x (qsm_xi_ q) (qsm_xi_r_ q) (qsm_h_ q) (qsm_h_r_ q).

Definition set_qsm_xi_ (v : v_1d double) (q : qsm_t) : qsm_t :=
  mk_qsm_t (qsm_N_ q) (qsm_Ntot_ q) (qsm_gamma_ q) (qsm_g0_ q)
    (qsm_alpha_ q) (qsm_alpha_r_ q) v (qsm_xi_r_ q) (qsm_h_ q) (qsm_h_r_ q).

Definition set_qsm_xi_r_ (x : double) (q : qsm_t) : qsm_t :=
  mk_qsm_t (qsm_N_ q) (qsm_Ntot_ q) (qsm_gamma_ q) (qsm_g0_ q)
    (qsm_alpha_ q) (qsm_alpha_r_ q) (qsm_xi_ q) x (qsm_h_ q) (qsm_h_r_ q).

Definition set_qsm_h_ (v : v_1d double) (q : qsm_t) : qsm_t :=
  mk_qsm_t (qsm_N_ q) (qsm_Ntot_ q) (qsm_gamma_ q) (qsm_g0_ q)
    (qsm_alpha_ q) (qsm_alpha_r_ q) (qsm_xi_ q) (qsm_xi_r_ q) v (qsm_h_r_ q).

Definition set_qsm_h_r_ (x : double) (q : qsm_t) : qsm_t :=
  mk_qsm_t (qsm_N_ q) (qsm_Ntot_ q) (qsm_gamma_ q) (qsm_g0_ q)
    (qsm_alpha_ q) (qsm_alpha_r_ q) (qsm_xi_ q) (qsm_xi_r_ q) (qsm_h_ q) x.

Definition set_um_alpha_ (v : v_1d double) (u : ultrametric_t) : ultrametric_t :=
  mk_ultrametric_t (um_N_ u) (um_Ntot_ u) v (um_alpha_r_ u) (um_g_ u).

Definition set_um_alpha_r_ (x : double) (u : ultrametric_t) : ultrametric_t :=
  mk_ultrametric_t (um_N_ u) (um_Ntot_ u) (um_alpha_ u) x (um_g_ u).

(** [this->member_.resize(n)] on a member given by its getter and setter. *)
Definition resize_member {S : Type} (max_size : Z) (grants : allocator S)
    (get : S -> v_1d double) (set : v_1d double -> S -> S) (n : Z) : method S unit :=
  v <- gets get ;;
  granted <- gets (fun s => grants s n) ;;
  v' <- lift (vector_resize max_size granted d0 v n) ;;
  modify (set v').

Section Resize.

(** [std::vector<double>::max_size()] of the implementation. *)
Variable max_size : Z.

(** [qsm_t::resizeQSM].  [_N] has the type of [qsm_Ntot_ - qsm_N_], which is
    [size_t]: the subtraction wraps around, and [_N < 0] compares that
    unsigned value with zero. *)
Definition resizeQSM (grants : allocator qsm_t) : method qsm_t unit :=
  _N <- gets (fun q => size_t_sub (qsm_Ntot_ q) (qsm_N_ q)) ;;
  if _N <? 0 then ret tt
  else
    modify (set_qsm_alpha_r_ d0) ;;;
    n <- gets (fun q => size_t_sub (qsm_Ntot_ q) (qsm_N_ q)) ;;
    resize_member max_size grants qsm_alpha_ set_qsm_alpha_ n ;;;
    modify (set_qsm_xi_r_ d0) ;;;
    n' <- gets (fun q => size_t_sub (qsm_Ntot_ q) (qsm_N_ q)) ;;
    resize_member max_size grants qsm_xi_ set_qsm_xi_ n' ;;;
    modify (set_qsm_h_r_ d0) ;;;
    resize_member max_size grants qsm_h_ set_qsm_h_ _N.

(** [ultrametric_t::resizeUM], with the same unsigned [_N]. *)
Definition resizeUM (grants : allocator ultrametric_t) : method ultrametric_t unit :=
  _N <- gets (fun u => size_t_sub (um_Ntot_ u) (um_N_ u)) ;;
  if _N <? 0 then ret tt
  else
    modify (set_um_alpha_r_ d0) ;;;
    resize_member max_size grants um_alpha_ set_um_alpha_ _N.

End Resize.

(** *** [getRanReal] *)

(** [getRanReal(uint i)]: [i] is converted to [size_t] for the comparison
    with [size()], and [size() - 1] is a [size_t] subtraction.  The result
    is [None] when the element access is out of bounds. *)
Definition getRanReal (p : ModP) (i : Z) : option Z :=
  if i <? size (modRanN_ p)
  then at_index (modRanN_ p) i
  else at_index (modRanN_ p) (size_t_sub (size (modRanN_ p)) 1).

(** [getRanReal()], at the member index [modRanNIdx_]. *)
Definition getRanReal_current (p : ModP) : option Z :=
  if modRanNIdx_ p <? size (modRanN_ p)
  then at_index (modRanN_ p) (modRanNIdx_ p)
  else at_index (modRanN_ p) (size_t_sub (size (modRanN_ p)) 1).

(** *** [setDefault] *)

(** The QSM block of [setDefault]: the four scalars go back to their
    defaults and the three arrays become [v_1d<double>(1, 1.0)]. *)
Definition setDefault_qsm (q : qsm_t) : qsm_t :=
  {| qsm_N_ := 1; qsm_Ntot_ := 1; qsm_gamma_ := d1; qsm_g0_ := d1;
     qsm_alpha_ := v_1d_fill 1 d1; qsm_alpha_r_ := qsm_alpha_r_ q;
     qsm_xi_ := v_1d_fill 1 d1; qsm_xi_r_ := qsm_xi_r_ q;
     qsm_h_ := v_1d_fill 1 d1; qsm_h_r_ := qsm_h_r_ q |}.

(** The Rosenzweig-Porter block: only [rp_g_] is assigned. *)
Definition setDefault_rosenzweig_porter (r : rosenzweig_porter_t) : rosenzweig_porter_t :=
  {| rp_g_ := v_1d_fill 1 d1;
     rp_single_particle_ := rp_single_particle_ r;
     rp_be_real_ := rp_be_real_ r;
     rp_g_sweep_n_ := rp_g_sweep_n_ r |}.

(** The Aubry-Andre block. *)
Definition setDefault_aubry_andre (a : aubry_andre_t) : aubry_andre_t :=
  {| aa_J_ := d1; aa_lambda_ := d0_5; aa_beta_ := golden; aa_phi_ := d1 |}.

(** [ModP::setDefault].  The members that the body does not name keep their
    values; among them are [ultrametric] and [power_law_random_bandwidth]. *)
Definition setDefault (p : ModP) : ModP :=
  {| modTyp_ := ISING_M;
     modRanN_ := [1];
     modRanSeed_ := modRanSeed_ p;
     modRanNIdx_ := modRanNIdx_ p;
     eth_entro_ := eth_entro_ p;
     eth_susc_ := eth_susc_ p;
     eth_ipr_ := eth_ipr_ p;
     eth_offd_ := eth_offd_ p;
     eth_end_ := eth_end_ p;
     modMidStates_ := modMidStates_ p;
     modEnDiff_ := modEnDiff_ p;
     operators := ["sz/L"%string; "sz/1"%string];
     J1_ := d1; hz_ := d1; hx_ := d1;
     J2_ := d2; eta1_ := d0_5; eta2_ := d0_5; dlt1_ := d0_3; dlt2_ := d0_3;
     Kx_ := v_1d_fill 1 d1;
     Ky_ := v_1d_fill 1 d1;
     Kz_ := v_1d_fill 1 d1;
     heiJ_ := v_1d_fill 1 d1;
     heiDlt_ := v_1d_fill 1 d1;
     heiHx_ := v_1d_fill 1 d1;
     heiHz_ := v_1d_fill 1 d1;
     qsm := setDefault_qsm (qsm p);
     rosenzweig_porter := setDefault_rosenzweig_porter (rosenzweig_porter p);
     ultrametric := ultrametric p;
     q_gamma_ := q_gamma_ p;
     q_manifold_ := q_manifold_ p;
     q_manybody_ := q_manybody_ p;
     q_randomCombNum_ := q_randomCombNum_ p;
     q_realizationNum_ := q_realizationNum_ p;
     q_shuffle_ := q_shuffle_ p;
     q_broad_ := q_broad_ p;
     aubry_andre := setDefault_aubry_andre (aubry_andre p);
     power_law_random_bandwidth := power_law_random_bandwidth p |}.

(** The coupling arrays of the model families, by family, as the claim about
    [setDefault] lists them. *)
Definition kitaev_arrays (p : ModP) : list (v_1d double) := [Kx_ p; Ky_ p; Kz_ p].
Definition heisenberg_arrays (p : ModP) : list (v_1d double) :=
  [heiJ_ p; heiDlt_ p; heiHx_ p; heiHz_ p].
Definition qsm_arrays (p : ModP) : list (v_1d double) :=
  [qsm_alpha_ (qsm p); qsm_xi_ (qsm p); qsm_h_ (qsm p)].
Definition rosenzweig_porter_arrays (p : ModP) : list (v_1d double) :=
  [rp_g_ (rosenzweig_porter p)].
Definition ultrametric_arrays (p : ModP) : list (v_1d double) :=
  [um_alpha_ (ultrametric p)].
Definition power_law_arrays (p : ModP) : list (v_1d double) :=
  [plrb_a_ (power_law_random_bandwidth p)].

Definition nonempty {T : Type} (v : v_1d T) : bool := 0 <? size v.

(** [ModP::checkComplex] *)
Definition checkComplex (p : ModP) : bool :=
  match modTyp_ p with
  | FREE_FERMIONS_M => true
  | _ => false
  end.

(** *** [resizeKitaev], [resizeHeisenberg] and [resizeRP] *)

(** Assignments to the Kitaev and Heisenberg arrays of the record. *)
Definition set_Kx_ (v : v_1d double) (p : ModP) : ModP :=
  mk_ModP (modTyp_ p) (modRanN_ p) (modRanSeed_ p) (modRanNIdx_ p)
    (eth_entro_ p) (eth_susc_ p) (eth_ipr_ p) (eth_offd_ p) (eth_end_ p)
    (modMidStates_ p) (modEnDiff_ p) (operators p) (J1_ p) (hz_ p) (hx_ p)
    (J2_ p) (eta1_ p) (eta2_ p) (dlt1_ p) (dlt2_ p) v (Ky_ p) (Kz_ p)
    (heiJ_ p) (heiDlt_ p) (heiHx_ p) (heiHz_ p) (qsm p) (rosenzweig_porter p)
    (ultrametric p) (q_gamma_ p) (q_manifold_ p) (q_manybody_ p)
    (q_randomCombNum_ p) (q_realizationNum_ p) (q_shuffle_ p) (q_broad_ p)
    (aubry_andre p) (power_law_random_bandwidth p).

Definition set_Ky_ (v : v_1d double) (p : ModP) : ModP :=
  mk_ModP (modTyp_ p) (modRanN_ p) (modRanSeed_ p) (modRanNIdx_ p)
    (eth_entro_ p) (eth_susc_ p) (eth_ipr_ p) (eth_offd_ p) (eth_end_ p)
    (modMidStates_ p) (modEnDiff_ p) (operators p) (J1_ p) (hz_ p) (hx_ p)
    (J2_ p) (eta1_ p) (eta2_ p) (dlt1_ p) (dlt2_ p) (Kx_ p) v (Kz_ p)
    (heiJ_ p) (heiDlt_ p) (heiHx_ p) (heiHz_ p) (qsm p) (rosenzweig_porter p)
    (ultrametric p) (q_gamma_ p) (q_manifold_ p) (q_manybody_ p)
    (q_randomCombNum_ p) (q_realizationNum_ p) (q_shuffle_ p) (q_broad_ p)
    (aubry_andre p) (power_law_random_bandwidth p).

Definition set_Kz_ (v : v_1d double) (p : ModP) : ModP :=
  mk_ModP (modTyp_ p) (modRanN_ p) (modRanSeed_ p) (modRanNIdx_ p)
    (eth_entro_ p) (eth_susc_ p) (eth_ipr_ p) (eth_offd_ p) (eth_end_ p)
    (modMidStates_ p) (modEnDiff_ p) (operators p) (J1_ p) (hz_ p) (hx_ p)
    (J2_ p) (eta1_ p) (eta2_ p) (dlt1_ p) (dlt2_ p) (Kx_ p) (Ky_ p) v
    (heiJ_ p) (heiDlt_ p) (heiHx_ p) (heiHz_ p) (qsm p) (rosenzweig_porter p)
    (ultrametric p) (q_gamma_ p) (q_manifold_ p) (q_manybody_ p)
    (q_randomCombNum_ p) (q_realizationNum_ p) (q_shuffle_ p) (q_broad_ p)
    (aubry_andre p) (power_law_random_bandwidth p).

Definition set_heiJ_ (v : v_1d double) (p : ModP) : ModP :=
  mk_ModP (modTyp_ p) (modRanN_ p) (modRanSeed_ p) (modRanNIdx_ p)
    (eth_entro_ p) (eth_susc_ p) (eth_ipr_ p) (eth_offd_ p) (eth_end_ p)
    (modMidStates_ p) (modEnDiff_ p) (operators p) (J1_ p) (hz_ p) (hx_ p)
    (J2_ p) (eta1_ p) (eta2_ p) (dlt1_ p) (dlt2_ p) (Kx_ p) (Ky_ p) (Kz_ p) v
    (heiDlt_ p) (heiHx_ p) (heiHz_ p) (qsm p) (rosenzweig_porter p)
    (ultrametric p) (q_gamma_ p) (q_manifold_ p) (q_manybody_ p)
    (q_randomCombNum_ p) (q_realizationNum_ p) (q_shuffle_ p) (q_broad_ p)
    (aubry_andre p) (power_law_random_bandwidth p).

Definition set_heiDlt_ (v : v_1d double) (p : ModP) : ModP :=
  mk_ModP (modTyp_ p) (modRanN_ p) (modRanSeed_ p) (modRanNIdx_ p)
    (eth_entro_ p) (eth_susc_ p) (eth_ipr_ p) (eth_offd_ p) (eth_end_ p)
    (modMidStates_ p) (modEnDiff_ p) (operators p) (J1_ p) (hz_ p) (hx_ p)
    (J2_ p) (eta1_ p) (eta2_ p) (dlt1_ p) (dlt2_ p) (Kx_ p) (Ky_ p) (Kz_ p)
    (heiJ_ p) v (heiHx_ p) (heiHz_ p) (qsm p) (rosenzweig_porter p)
    (ultrametric p) (q_gamma_ p) (q_manifold_ p) (q_manybody_ p)
    (q_randomCombNum_ p) (q_realizationNum_ p) (q_shuffle_ p) (q_broad_ p)
    (aubry_andre p) (power_law_random_bandwidth p).

Definition set_heiHx_ (v : v_1d double) (p : ModP) : ModP :=
  mk_ModP (modTyp_ p) (modRanN_ p) (modRanSeed_ p) (modRanNIdx_ p)
    (eth_entro_ p) (eth_susc_ p) (eth_ipr_ p) (eth_offd_ p) (eth_end_ p)
    (modMidStates_ p) (modEnDiff_ p) (operators p) (J1_ p) (hz_ p) (hx_ p)
    (J2_ p) (eta1_ p) (eta2_ p) (dlt1_ p) (dlt2_ p) (Kx_ p) (Ky_ p) (Kz_ p)
    (heiJ_ p) (heiDlt_ p) v (heiHz_ p) (qsm p) (rosenzweig_porter p)
    (ultrametric p) (q_gamma_ p) (q_manifold_ p) (q_manybody_ p)
    (q_randomCombNum_ p) (q_realizationNum_ p) (q_shuffle_ p) (q_broad_ p)
    (aubry_andre p) (power_law_random_bandwidth p).

Definition set_heiHz_ (v : v_1d double) (p : ModP) : ModP :=
  mk_ModP (modTyp_ p) (modRanN_ p) (modRanSeed_ p) (modRanNIdx_ p)
    (eth_entro_ p) (eth_susc_ p) (eth_ipr_ p) (eth_offd_ p) (eth_end_ p)
    (modMidStates_ p) (modEnDiff_ p) (operators p) (J1_ p) (hz_ p) (hx_ p)
    (J2_ p) (eta1_ p) (eta2_ p) (dlt1_ p) (dlt2_ p) (Kx_ p) (Ky_ p) (Kz_ p)
    (heiJ_ p) (heiDlt_ p) (heiHx_ p) v (qsm p) (rosenzweig_porter p)
    (ultrametric p) (q_gamma_ p) (q_manifold_ p) (q_manybody_ p)
    (q_randomCombNum_ p) (q_realizationNum_ p) (q_shuffle_ p) (q_broad_ p)
    (aubry_andre p) (power_law_random_bandwidth p).

Definition set_rp_g_ (v : v_1d double) (r : rosenzweig_porter_t) : rosenzweig_porter_t :=
  mk_rosenzweig_porter_t v (rp_single_particle_ r) (rp_be_real_ r) (rp_g_sweep_n_ r).

(** The conversion of an [int] to [size_t], which [resize] applies to its
    argument: the value modulo [2^64]. *)
Definition size_t_of_int (n : Z) : Z := n mod u64_modulus.

Section ResizeArrays.

Variable max_size : Z.
Variable grants : allocator ModP.

(** [ModP::resizeKitaev(const size_t Ns)] *)
Definition resizeKitaev (Ns : Z) : method ModP unit :=
  resize_member max_size grants Kx_ set_Kx_ Ns ;;;
  resize_member max_size grants Ky_ set_Ky_ Ns ;;;
  resize_member max_size grants Kz_ set_Kz_ Ns.

(** [ModP::resizeHeisenberg(const size_t Ns)] *)
Definition resizeHeisenberg (Ns : Z) : method ModP unit :=
  resize_member max_size grants heiJ_ set_heiJ_ Ns ;;;
  resize_member max_size grants heiDlt_ set_heiDlt_ Ns ;;;
  resize_member max_size grants heiHx_ set_heiHx_ Ns ;;;
  resize_member max_size grants heiHz_ set_heiHz_ Ns.

(** [rosenzweig_porter_t::resizeRP]: [rp_g_sweep_n_] is an [int]. *)
Definition resizeRP (grants_rp : allocator rosenzweig_porter_t)
  : method rosenzweig_porter_t unit :=
  n <- gets (fun r => size_t_of_int (rp_g_sweep_n_ r)) ;;
  resize_member max_size grants_rp rp_g_ set_rp_g_ n.

End ResizeArrays.

End UI_PARAMS.

(** ** SYK2.h *)

Module SYK2.

(** *** The collaborators of the model *)

(** Modelled from the spec: the enumeration [BoundaryConditions] and
    [getSTR_BoundaryConditions] are declared with the lattice, which is not
    among the sources; the lattice's boundary-condition identifier, with the
    enumerator names as their strings.  [SYK2.h] names [PBC]. *)
Inductive BoundaryConditions : Type := PBC | OBC | MBC | SBC.

Definition getSTR_BoundaryConditions (bc : BoundaryConditions) : string :=
  match bc with
  | PBC => "PBC"
  | OBC => "OBC"
  | MBC => "MBC"
  | SBC => "SBC"
  end.

(** Modelled from the spec: the class [Lattice] is not among the sources; the
    lattice collaborator exposes the site count and the boundary-condition
    identifier. *)
Record Lattice : Type := mk_Lattice {
  get_Ns : Z;
  get_BC : BoundaryConditions
}.

(** Modelled from the spec: the class [Hilbert::HilbertSpace] is not among the
    sources; the Hilbert-space collaborator exposes the dimension, and a
    model built from it has a site count and possibly a lattice. *)
Record HilbertSpace : Type := mk_HilbertSpace {
  hil_lat : option Lattice;
  hil_Ns : Z;
  hil_Nh : Z
}.

(** [arma::Mat<A>]: the two dimensions and the elements. *)
Record Mat (A : Type) : Type := mk_Mat {
  n_rows : Z;
  n_cols : Z;
  mem : list A
}.
Arguments mk_Mat {A} n_rows n_cols mem.
Arguments n_rows {A} m.
Arguments n_cols {A} m.
Arguments mem {A} m.

(** [arma::zeros(r, c)], a matrix of doubles. *)
Definition zeros (r c : Z) : Mat double :=
  mk_Mat r c (repeat (double_of_int 0) (Z.to_nat (r * c))).

(** An element-wise operation with a scalar keeps the dimensions. *)
Definition mat_map {A B : Type} (f : A -> B) (M : Mat A) : Mat B :=
  mk_Mat (n_rows M) (n_cols M) (map f (mem M)).

(** Element-wise [A + B]: Armadillo throws [std::logic_error] when the
    dimensions differ. *)
Definition mat_plus {A : Type} (add : A -> A -> A) (X Y : Mat A) : result (Mat A) :=
  if (n_rows X =? n_rows Y) && (n_cols X =? n_cols Y)
  then Ok (mk_Mat (n_rows X) (n_cols X)
             (map (fun xy => add (fst xy) (snd xy)) (combine (mem X) (mem Y))))
  else Throw logic_error.

(** The invariant of a matrix with [r] rows and [c] columns. *)
Definition has_dims {A : Type} (M : Mat A) (r c : Z) : Prop :=
  n_rows M = r /\ n_cols M = c /\ List.length (mem M) = Z.to_nat (r * c).

(** [STR(n)], the decimal digits of an integer. *)
Definition STR (n : Z) : string := NilZero.string_of_int (Z.to_int n).

(** [SSTR(s)] of a string is the string. *)
Definition SSTR (s : string) : string := s.

Section Model.

(** The scalar type [_T] of the template and the random generator
    [randomGen] of the member [ran_]. *)
Variable T : Type.
Variable randomGen : Type.

(** The members that [SYK2<_T>] inherits and uses. *)
Record state : Type := mk_state {
  type_ : MY_MODELS;
  lat_ : option Lattice;
  Ns_ : Z;
  Nh : Z;
  constant_ : double;
  H_ : Mat T;
  ran_ : randomGen;
  info_ : string
}.

Definition set_type_ (t : MY_MODELS) (m : state) : state :=
  mk_state t (lat_ m) (Ns_ m) (Nh m) (constant_ m) (H_ m) (ran_ m) (info_ m).

Definition set_info_ (s : string) (m : state) : state :=
  mk_state (type_ m) (lat_ m) (Ns_ m) (Nh m) (constant_ m) (H_ m) (ran_ m) s.

Definition set_H_ (M : Mat T) (m : state) : state :=
  mk_state (type_ m) (lat_ m) (Ns_ m) (Nh m) (constant_ m) M (ran_ m) (info_ m).

Definition set_ran_ (r : randomGen) (m : state) : state :=
  mk_state (type_ m) (lat_ m) (Ns_ m) (Nh m) (constant_ m) (H_ m) r (info_ m).

(** *** [info] and the constructors *)

(** Modelled from the spec: [QuadraticHamiltonian<_T>::info(name, skip, sep)]
    is not among the sources.  The descriptive string is the name
    [<sep><ModelName>,Ns=<n>,BC=<bc>] followed by the model-specific
    parameters that [skip] does not list; [SYK2] declares none. *)
Definition QuadraticHamiltonian_info (name : string) (skip : list string) (sep : string)
  : string := name.

(** [SYK2::info(skip, sep, prec)] *)
Definition info (m : state) (skip : list string) (sep : string) (prec : Z) : string :=
  let Ns := Ns_ m in
  let BC := match lat_ m with
            | Some l => get_BC l
            | None => PBC
            end in
  let name := (sep ++ "SYK2,Ns=" ++ STR Ns)%string in
  let name := (name ++ ",BC=" ++ SSTR (getSTR_BoundaryConditions BC))%string in
  QuadraticHamiltonian_info name skip sep.

(** [info()] with the default arguments [skip = {}], [sep = "_"], [prec = 2]. *)
Definition info_default (m : state) : string := info m [] "_" 2.

(** [SYK2::updateInfo] *)
Definition updateInfo (m : state) : state := set_info_ (info_default m) m.

(** What the base class leaves in the members that this header does not
    determine: the buffer, the random stream, the type tag and the cached
    string before the constructor body runs. *)
Variable H_0 : Mat T.
Variable ran_0 : randomGen.
Variable type_0 : MY_MODELS.
Variable info_0 : string.

(** Modelled from the spec: the constructors of [QuadraticHamiltonian<_T>] are
    not among the sources.  A quadratic model has the working dimension of
    its coupling matrix, [Ns] by [Ns]; built from a lattice it takes the site
    count of the lattice and keeps the reference. *)
Definition QuadraticHamiltonian_lat (_lat : Lattice) (_constant : double) : state :=
  mk_state type_0 (Some _lat) (get_Ns _lat) (get_Ns _lat) _constant H_0 ran_0 info_0.

(** Modelled from the spec: built from a raw site count the model is
    lattice-free. *)
Definition QuadraticHamiltonian_Ns (_Ns : Z) (_constant : double) : state :=
  mk_state type_0 None _Ns _Ns _constant H_0 ran_0 info_0.

(** Modelled from the spec: built from a Hilbert-space descriptor the model
    takes the lattice and the site count that the descriptor exposes.  Its
    working dimension is, as on the other two paths, that of the [Ns] by
    [Ns] coupling matrix, and not the many-body dimension of the
    descriptor: the three paths set the same [Nh]. *)
Definition QuadraticHamiltonian_hil (_hil : HilbertSpace) (_constant : double) : state :=
  mk_state type_0 (hil_lat _hil) (hil_Ns _hil) (hil_Ns _hil) _constant H_0 ran_0 info_0.

(** The body shared by the four constructors of [SYK2]:
    [type_ = SYK2_M; info_ = info();] (the log line has no effect on the
    object). *)
Definition constructor_body (m : state) : state :=
  let m := set_type_ SYK2_M m in
  set_info_ (info_default m) m.

(** [SYK2(std::shared_ptr<Lattice> _lat, double _constant)] *)
Definition from_lattice (_lat : Lattice) (_constant : double) : state :=
  constructor_body (QuadraticHamiltonian_lat _lat _constant).

(** [SYK2(uint _Ns, double _constant)] *)
Definition from_Ns (_Ns : Z) (_constant : double) : state :=
  constructor_body (QuadraticHamiltonian_Ns _Ns _constant).

(** [SYK2(const Hilbert::HilbertSpace<_T>& _hil, double _constant)] *)
Definition from_hilbert (_hil : HilbertSpace) (_constant : double) : state :=
  constructor_body (QuadraticHamiltonian_hil _hil _constant).

(** [SYK2(Hilbert::HilbertSpace<_T>&& _hil, double _constant)] *)
Definition from_hilbert_move (_hil : HilbertSpace) (_constant : double) : state :=
  constructor_body (QuadraticHamiltonian_hil _hil _constant).

(** The derived fields that the construction paths are to agree on. *)
Definition same_derived_fields (a b : state) : Prop :=
  type_ a = type_ b /\ Ns_ a = Ns_ b /\ Nh a = Nh b /\ info_ a = info_ b.

(** *** [hamiltonian] *)

(** The arithmetic of [_T] that the right-hand side uses: an element divided
    by a [double], [algebra::cast<_T>(I)], that scalar times a [double]
    element, and the sum of two elements. *)
Variable T_div : T -> double -> T.
Variable cast_I : T.
Variable T_times : T -> double -> T.
Variable T_plus : T -> T -> T.

(** [ran_.GOE<_T>(x, y)]: the sampler of the random generator, which draws
    from the stream and advances it. *)
Variable GOE : randomGen -> Z -> Z -> Mat T * randomGen.

(** [init()] of the base class, not among the sources. *)
Variable init : state -> state.

(** [std::sqrt(this->Nh)]: the integer is converted to [double]. *)
Definition sqrt_Nh (n : Z) : double := SFsqrt prec64 emax64 (double_of_int n).

(** The right-hand side of the assignment, from the sample [G]. *)
Definition rhs (G : Mat T) (n : Z) : result (Mat T) :=
  mat_plus T_plus
    (mat_map (fun x => T_div x (sqrt_Nh n)) G)
    (mat_map (fun z => T_times cast_I z) (zeros n n)).

(** [SYK2::hamiltonian] *)
Definition hamiltonian : method state unit :=
  modify init ;;;
  n <- gets Nh ;;
  r <- gets ran_ ;;
  let (G, r') := GOE r n n in
  modify (set_ran_ r') ;;;
  M <- lift (rhs G n) ;;
  modify (set_H_ M).

End Model.

Arguments type_ {T randomGen} s.
Arguments lat_ {T randomGen} s.
Arguments Ns_ {T randomGen} s.
Arguments Nh {T randomGen} s.
Arguments constant_ {T randomGen} s.
Arguments H_ {T randomGen} s.
Arguments ran_ {T randomGen} s.
Arguments info_ {T randomGen} s.
Arguments set_H_ {T randomGen} M m.
Arguments set_ran_ {T randomGen} r m.
Arguments set_type_ {T randomGen} t m.
Arguments set_info_ {T randomGen} s m.
Arguments info {T randomGen} m skip sep prec.
Arguments info_default {T randomGen} m.
Arguments updateInfo {T randomGen} m.
Arguments constructor_body {T randomGen} m.
Arguments same_derived_fields {T randomGen} a b.

End SYK2.

(** ** Concrete instances, on which the statements are evaluated *)

Module Demo.

(** The real instantiation [_T = double]: [algebra::cast<double>(I)] is the
    real part of the imaginary unit. *)
Definition T_div : double -> double -> double := SFdiv prec64 emax64.
Definition cast_I : double := double_of_int 0.
Definition T_times : double -> double -> double := SFmul prec64 emax64.
Definition T_plus : double -> double -> double := SFadd prec64 emax64.

(** A stand-in for the random generator: the stream is a counter, and a
    sample is filled with the counter's value. *)
Definition GOE (r : Z) (x y : Z) : SYK2.Mat double * Z :=
  (SYK2.mk_Mat x y (repeat (double_of_int r) (Z.to_nat (x * y))), r + 1).

(** A stand-in for [init()]: the buffer is reallocated. *)
Definition init (m : SYK2.state double Z) : SYK2.state double Z :=
  SYK2.set_H_ (SYK2.zeros (SYK2.Nh m) (SYK2.Nh m)) m.

Definition empty_Mat : SYK2.Mat double := SYK2.mk_Mat 0 0 [].

Definition hamiltonian : method (SYK2.state double Z) unit :=
  SYK2.hamiltonian double Z T_div cast_I T_times T_plus GOE init.

Definition from_lattice (l : SYK2.Lattice) (c : double) : SYK2.state double Z :=
  SYK2.from_lattice double Z empty_Mat 7 ISING_M EmptyString l c.

Definition from_Ns (n : Z) (c : double) : SYK2.state double Z :=
  SYK2.from_Ns double Z empty_Mat 7 ISING_M EmptyString n c.

Definition from_hilbert (h : SYK2.HilbertSpace) (c : double) : SYK2.state double Z :=
  SYK2.from_hilbert double Z empty_Mat 7 ISING_M EmptyString h c.

(** [std::vector<double>::max_size()] of libstdc++ on a 64-bit target:
    [PTRDIFF_MAX / sizeof(double)]. *)
Definition max_size : Z := (2 ^ 63 - 1) / 8.

(** An allocator with storage to spare. *)
Definition generous {S : Type} : UI_PARAMS.allocator S := fun _ _ => true.

(** An allocator that runs out of storage once [qsm_xi_] holds elements. *)
Definition runs_out : UI_PARAMS.allocator UI_PARAMS.qsm_t :=
  fun q _ => UI_PARAMS.size (UI_PARAMS.qsm_xi_ q) =? 0.

(** A QSM block and an ultrametric block, freshly constructed, in which the
    sub-population count [2] exceeds the total [1]. *)
Definition qsm_underflow : UI_PARAMS.qsm_t :=
  UI_PARAMS.mk_qsm_t 2 1 UI_PARAMS.d1 UI_PARAMS.d1
    [] UI_PARAMS.d0 [] UI_PARAMS.d0 [] UI_PARAMS.d0.

Definition um_underflow : UI_PARAMS.ultrametric_t :=
  UI_PARAMS.mk_ultrametric_t 2 1 [] UI_PARAMS.d0 UI_PARAMS.d1.

(** A chain of four sites with open boundary conditions. *)
Definition open_chain : SYK2.Lattice := SYK2.mk_Lattice 4 SYK2.OBC.

(** A ring of four sites, and a Hilbert-space descriptor over it. *)
Definition ring : SYK2.Lattice := SYK2.mk_Lattice 4 SYK2.PBC.
Definition ring_hilbert : SYK2.HilbertSpace := SYK2.mk_HilbertSpace (Some ring) 4 4.

(** A buffer with earlier contents. *)
Definition used_Mat : SYK2.Mat double :=
  SYK2.mk_Mat 1 2 [double_of_int 3; double_of_int 4].

(** The complex instantiation [_T = std::complex<double>], a real and an
    imaginary part, with the operations of [std::complex<double>] and a
    [double] operand, which act on the two parts, and the sum of two complex
    numbers.  [algebra::cast<std::complex<double>>(I)] is the imaginary
    unit. *)
Definition complex : Type := (double * double)%type.
Definition cx_div (z : complex) (s : double) : complex :=
  (SFdiv prec64 emax64 (fst z) s, SFdiv prec64 emax64 (snd z) s).
Definition cx_cast_I : complex := (double_of_int 0, double_of_int 1).
Definition cx_times (z : complex) (x : double) : complex :=
  (SFmul prec64 emax64 (fst z) x, SFmul prec64 emax64 (snd z) x).
Definition cx_plus (z w : complex) : complex :=
  (SFadd prec64 emax64 (fst z) (fst w), SFadd prec64 emax64 (snd z) (snd w)).

(** [std::conj] *)
Definition conj (z : complex) : complex := (fst z, SFopp (snd z)).

(** A stand-in for the complex sampler: whatever the stream, the Hermitian
    two by two sample with [7] on the diagonal and [1 + 2i] below it. *)
Definition hermitian_sample : SYK2.Mat complex :=
  SYK2.mk_Mat 2 2
    [(double_of_int 7, double_of_int 0); (double_of_int 1, double_of_int 2);
     (double_of_int 1, double_of_int (-2)); (double_of_int 7, double_of_int 0)].

Definition GOE_cx (r : Z) (x y : Z) : SYK2.Mat complex * Z := (hermitian_sample, r + 1).

Definition init_cx (m : SYK2.state complex Z) : SYK2.state complex Z :=
  SYK2.set_H_ (SYK2.mk_Mat 0 0 []) m.

Definition from_Ns_cx (n : Z) (c : double) : SYK2.state complex Z :=
  SYK2.from_Ns complex Z (SYK2.mk_Mat 0 0 []) 7 ISING_M EmptyString n c.

End Demo.

(** ** Auxiliary definitions of the proofs *)

(** The values that [std::popcount] of a [u64] can take. *)
Definition small_ints : list Z := map Z.of_nat (seq 0 65).

(** The number of states on [Ns] sites with exactly [k] bits set. *)
Definition count_popcount (Ns : nat) (k : Z) : nat :=
  List.length (filter (fun s => popcount s =? k) (states Ns)).

(** The nested call [g_n.check(state, ... g_1.check(state, outCond) ...)]
    over the generators [g_1; ...; g_n]: each [check] receives the result of
    the one before it as its outer condition. *)
Fixpoint check_chain {Lattice : Type} (gs : list (GlobalSyms.GlobalSym Lattice))
    (state : Z) (outCond : bool) : result bool :=
  match gs with
  | [] => Ok outCond
  | g :: gs' =>
      match GlobalSyms.check g state outCond with
      | Ok b => check_chain gs' state b
      | Throw e => Throw e
      end
  end.

(** What a generator answers on a state when it holds a predicate. *)
Definition accepts {Lattice : Type} (g : GlobalSyms.GlobalSym Lattice) (state : Z) : bool :=
  match GlobalSyms.check_ g with
  | Some p => p state (GlobalSyms.val_ g)
  | None => false
  end.

(** [v.resize(n)] on the elements, when it does not throw. *)
Definition resized {T : Type} (zero : T) (v : list T) (n : Z) : list T :=
  firstn (Z.to_nat n) v ++ repeat zero (Z.to_nat n - List.length v).

(** Whether a generator holds a predicate. *)
Definition has_predicate {Lattice : Type} (g : GlobalSyms.GlobalSym Lattice) : bool :=
  match GlobalSyms.check_ g with
  | Some _ => true
  | None => false
  end.

(** The local [name] that [SYK2::info] builds and hands to the base class:
    [sep + "SYK2,Ns=" + STR(Ns) + ",BC=" + SSTR(getSTR_BoundaryConditions(BC))]. *)
Definition info_name {T randomGen : Type} (m : SYK2.state T randomGen) (sep : string)
  : string :=
  let Ns := SYK2.Ns_ m in
  let BC := match SYK2.lat_ m with
            | Some l => SYK2.get_BC l
            | None => SYK2.PBC
            end in
  let name := (sep ++ "SYK2,Ns=" ++ SYK2.STR Ns)%string in
  (name ++ ",BC=" ++ SYK2.SSTR (SYK2.getSTR_BoundaryConditions BC))%string.

(** Whether a string has no comma. *)
Fixpoint comma_free (s : string) : bool :=
  match s with
  | EmptyString => true
  | String c s' => negb (Ascii.eqb c ","%char) && comma_free s'
  end.

(** *** The matrix that [hamiltonian()] is to store *)

(** The claim's matrix, in its words and not in those of [SYK2.rhs]: the
    [n] by [n] sample [G] with every element divided by the square root of
    the dimension, taken in [double], and with the zero imaginary part,
    [cast<_T>(I)] times [0.0], added. *)
Definition normalized {T : Type} (T_div : T -> double -> T) (cast_I : T)
    (T_times : T -> double -> T) (T_plus : T -> T -> T)
    (G : SYK2.Mat T) (n : Z) : SYK2.Mat T :=
  SYK2.mk_Mat n n
    (map (fun g =>
            T_plus (T_div g (SFsqrt prec64 emax64 (binary_normalize prec64 emax64 n 0 false)))
                   (T_times cast_I (S754_zero false)))
       (SYK2.mem G)).

(** [M(i, j)] of an Armadillo matrix: the elements are stored column by
    column. *)
Definition entry {A : Type} (M : SYK2.Mat A) (i j : Z) : option A :=
  nth_error (SYK2.mem M) (Z.to_nat (i + j * SYK2.n_rows M)).

(** Every two mirrored elements [M(i, j)] and [M(j, i)] of the [n] by [n]
    matrix [M] exist and are related by [R]. *)
Definition mirrored {A : Type} (R : A -> A -> Prop) (M : SYK2.Mat A) (n : Z) : Prop :=
  forall i j, 0 <= i < n -> 0 <= j < n ->
    exists x y, entry M i j = Some x /\ entry M j i = Some y /\ R x y.

(** The classes of doubles. *)
Definition is_finite (x : double) : bool :=
  match x with
  | S754_finite _ _ _ | S754_zero _ => true
  | _ => false
  end.

Definition is_nan (x : double) : bool :=
  match x with
  | S754_nan => true
  | _ => false
  end.

Definition positive_number (x : double) : bool :=
  match x with
  | S754_finite false _ _ | S754_infinity false => true
  | _ => false
  end.

(** The relative tolerance [1e-9], and the test [|x - y| <= 1e-9 * |x|]
    evaluated in doubles.  An infinite [x] has no relative error: there the
    test is [x == y]. *)
Definition rel_tol : double :=
  SFdiv prec64 emax64 (double_of_int 1) (double_of_int 1000000000).

Definition within_tol (x y : double) : bool :=
  match x with
  | S754_infinity _ => double_eqb x y
  | _ => SFleb (SFabs (SFsub prec64 emax64 x y)) (SFmul prec64 emax64 rel_tol (SFabs x))
  end.

(** [x == y], and within the tolerance; [z == conj(w)] on both parts, and
    within the tolerance on both parts. *)
Definition symmetric_pair (x y : double) : Prop :=
  double_eqb x y = true /\ within_tol x y = true.

Definition hermitian_pair (z w : Demo.complex) : Prop :=
  symmetric_pair (fst z) (fst (Demo.conj w))
  /\ symmetric_pair (snd z) (snd (Demo.conj w)).

(** Modelled from the spec: the sampler [randomGen::GOE] is not among the
    sources.  A sample of the symmetric Gaussian ensemble of dimension [n]
    is an [n] by [n] matrix of finite numbers with [G(i, j) == G(j, i)];
    for a complex scalar type, with [G(i, j) == conj(G(j, i))]. *)
Definition GOE_sample_real (G : SYK2.Mat double) (n : Z) : Prop :=
  SYK2.has_dims G n n
  /\ Forall (fun x => is_finite x = true) (SYK2.mem G)
  /\ mirrored (fun x y => double_eqb x y = true) G n.

Definition GOE_sample_complex (G : SYK2.Mat Demo.complex) (n : Z) : Prop :=
  SYK2.has_dims G n n
  /\ Forall (fun z => is_finite (fst z) = true /\ is_finite (snd z) = true) (SYK2.mem G)
  /\ mirrored (fun z w => double_eqb (fst z) (fst (Demo.conj w)) = true
                          /\ double_eqb (snd z) (snd (Demo.conj w)) = true) G n.

(** [x + 0.0] *)
Definition plus_zero (x : double) : double := SFadd prec64 emax64 x (S754_zero false).

(** The shapes of a rounded number with the sign [sx]. *)
Definition signed_as (sx : bool) (x : double) : Prop :=
  x = S754_zero sx \/ (exists m e, x = S754_finite sx m e) \/ x = S754_infinity sx.

(** *** Objects of the construction paths *)

(** Two objects with the same members, the lattice reference apart. *)
Definition same_but_lattice {T randomGen : Type} (a b : SYK2.state T randomGen) : Prop :=
  SYK2.type_ a = SYK2.type_ b /\ SYK2.Ns_ a = SYK2.Ns_ b /\ SYK2.Nh a = SYK2.Nh b
  /\ SYK2.constant_ a = SYK2.constant_ b /\ SYK2.H_ a = SYK2.H_ b
  /\ SYK2.ran_ a = SYK2.ran_ b /\ SYK2.info_ a = SYK2.info_ b.

(** A member function behaves identically on two objects: the two calls end
    the same way and leave the same members, the lattice reference apart. *)
Definition same_run {T randomGen : Type} (call : method (SYK2.state T randomGen) unit)
    (a b : SYK2.state T randomGen) : Prop :=
  fst (call a) = fst (call b) /\ same_but_lattice (snd (call a)) (snd (call b)).

(** * Properties *)

(** ** Integers as doubles *)

Lemma small_ints_In (p : Z) : 0 <= p <= 64 -> In p small_ints.
Proof.
  intros Hp. unfold small_ints. apply in_map_iff.
  exists (Z.to_nat p). split; [lia|]. apply in_seq. lia.
Qed.

Lemma double_of_int_small_table :
  forallb (fun p =>
    forallb (fun k =>
      Bool.eqb (double_eqb (double_of_int p) (double_of_int k)) (p =? k))
      small_ints) small_ints = true.
Proof. vm_compute. reflexivity. Qed.

(** On the counts that [std::popcount] can return, the comparison of the
    converted integers is the comparison of the integers. *)
Lemma double_of_int_eqb_small (p k : Z) :
  0 <= p <= 64 -> 0 <= k <= 64 ->
  double_eqb (double_of_int p) (double_of_int k) = (p =? k).
Proof.
  intros Hp Hk.
  pose proof double_of_int_small_table as Htab.
  rewrite forallb_forall in Htab.
  specialize (Htab p (small_ints_In p Hp)).
  rewrite forallb_forall in Htab.
  specialize (Htab k (small_ints_In k Hk)).
  now apply Bool.eqb_prop in Htab.
Qed.

(** ** [std::popcount] *)

Lemma popcount_upto_bounds (n : nat) (x : Z) :
  0 <= popcount_upto n x <= Z.of_nat n.
Proof.
  induction n as [|n IH]; simpl popcount_upto; [lia|].
  destruct (Z.testbit x (Z.of_nat n)); simpl Z.b2z; lia.
Qed.

Lemma popcount_bounds (x : Z) : 0 <= popcount x <= 64.
Proof.
  unfold popcount. pose proof (popcount_upto_bounds u64_bits x) as H.
  change (Z.of_nat u64_bits) with 64 in H. exact H.
Qed.

Lemma testbit_above (n : nat) (s i : Z) :
  0 <= s < 2 ^ Z.of_nat n -> Z.of_nat n <= i -> Z.testbit s i = false.
Proof.
  intros Hs Hi.
  destruct (Z.eq_dec s 0) as [->|Hne]; [apply Z.testbit_0_l|].
  apply Z.bits_above_log2; [lia|].
  assert (Z.log2 s < Z.of_nat n); [|lia].
  apply Z.log2_lt_pow2; lia.
Qed.

(** Bits at and above position [n] of a state below [2^n] do not count. *)
Lemma popcount_upto_above (n m : nat) (s : Z) :
  0 <= s < 2 ^ Z.of_nat n -> (n <= m)%nat ->
  popcount_upto m s = popcount_upto n s.
Proof.
  intros Hs Hnm. induction Hnm as [|m Hnm IH]; [reflexivity|].
  simpl popcount_upto. rewrite IH.
  rewrite (testbit_above n s (Z.of_nat m)) by lia. simpl. lia.
Qed.

Lemma testbit_add_pow2 (n : nat) (s i : Z) :
  0 <= s < 2 ^ Z.of_nat n -> 0 <= i ->
  Z.testbit (s + 2 ^ Z.of_nat n) i = Z.testbit s i || (i =? Z.of_nat n).
Proof.
  intros Hs Hi.
  assert (Hland : Z.land s (2 ^ Z.of_nat n) = 0).
  { apply Z.bits_inj'. intros j Hj. rewrite Z.land_spec, Z.bits_0.
    rewrite Z.pow2_bits_eqb by lia.
    destruct (Z.eqb_spec (Z.of_nat n) j) as [<-|Hne].
    - rewrite (testbit_above n s (Z.of_nat n)) by lia. reflexivity.
    - apply andb_false_r. }
  rewrite Z.add_nocarry_lxor by exact Hland.
  rewrite Z.lxor_lor by exact Hland.
  rewrite Z.lor_spec, Z.pow2_bits_eqb by lia.
  f_equal. apply Z.eqb_sym.
Qed.

(** Setting bit [n] of a state below [2^n] adds one to the count, when the
    bit is among those counted. *)
Lemma popcount_upto_add_pow2 (n m : nat) (s : Z) :
  0 <= s < 2 ^ Z.of_nat n ->
  popcount_upto m (s + 2 ^ Z.of_nat n)
  = popcount_upto m s + (if (n <? m)%nat then 1 else 0).
Proof.
  intros Hs. induction m as [|m IH]; [reflexivity|].
  simpl popcount_upto. rewrite IH, testbit_add_pow2 by lia.
  destruct (Nat.ltb_spec n m) as [Hlt|Hge];
    destruct (Nat.ltb_spec n (S m)) as [Hlt'|Hge']; try lia.
  - replace (Z.of_nat m =? Z.of_nat n) with false by (symmetry; apply Z.eqb_neq; lia).
    rewrite orb_false_r. lia.
  - assert (m = n) as -> by lia.
    rewrite Z.eqb_refl, orb_true_r.
    rewrite (testbit_above n s (Z.of_nat n)) by lia. simpl. lia.
  - replace (Z.of_nat m =? Z.of_nat n) with false by (symmetry; apply Z.eqb_neq; lia).
    rewrite orb_false_r. lia.
Qed.

(** ** The basis states and their counts *)

Lemma seq_shift_add (a s len : nat) :
  seq (a + s) len = map (fun x => (a + x)%nat) (seq s len).
Proof.
  revert s. induction len as [|len IH]; intros s; [reflexivity|].
  simpl. f_equal. rewrite <- IH. f_equal. lia.
Qed.

(** The states on [n + 1] sites are the states on [n] sites, followed by
    the same states with bit [n] set. *)
Lemma states_S (n : nat) :
  states (S n)
  = states n ++ map (fun s => s + 2 ^ Z.of_nat n) (states n).
Proof.
  unfold states.
  replace (2 ^ S n)%nat with (2 ^ n + 2 ^ n)%nat by (simpl; lia).
  rewrite seq_app, map_app. f_equal.
  replace (0 + 2 ^ n)%nat with (2 ^ n + 0)%nat by lia.
  rewrite seq_shift_add, !map_map.
  apply map_ext. intros x. rewrite Nat2Z.inj_add, Nat2Z.inj_pow. simpl Z.of_nat. lia.
Qed.

Lemma states_In (Ns : nat) (s : Z) :
  In s (states Ns) <-> 0 <= s < 2 ^ Z.of_nat Ns.
Proof.
  unfold states. rewrite in_map_iff. split.
  - intros [x [<- Hx]]. apply in_seq in Hx.
    assert (Z.of_nat (2 ^ Ns) = 2 ^ Z.of_nat Ns) by (rewrite Nat2Z.inj_pow; reflexivity).
    lia.
  - intros Hs. exists (Z.to_nat s). split; [lia|]. apply in_seq.
    assert (Z.of_nat (2 ^ Ns) = 2 ^ Z.of_nat Ns) by (rewrite Nat2Z.inj_pow; reflexivity).
    lia.
Qed.

Lemma filter_map_length {A B : Type} (P : B -> bool) (f : A -> B) (l : list A) :
  List.length (filter P (map f l)) = List.length (filter (fun x => P (f x)) l).
Proof.
  induction l as [|a l IH]; [reflexivity|].
  simpl. destruct (P (f a)); simpl; now rewrite IH.
Qed.

Lemma filter_none {A : Type} (P : A -> bool) (l : list A) :
  (forall x, In x l -> P x = false) -> filter P l = [].
Proof.
  induction l as [|a l IH]; intros H; [reflexivity|].
  simpl. rewrite (H a (or_introl eq_refl)). apply IH.
  intros x Hx. apply H. now right.
Qed.

Lemma count_popcount_negative (n : nat) (k : Z) :
  k < 0 -> count_popcount n k = 0%nat.
Proof.
  intros Hk. unfold count_popcount. rewrite filter_none; [reflexivity|].
  intros x _. apply Z.eqb_neq. pose proof (popcount_bounds x). lia.
Qed.

(** Pascal's rule for the counts: a state on [n + 1] sites with [k] bits
    set has bit [n] clear and [k] bits among the first [n], or bit [n] set
    and [k - 1] bits among the first [n]. *)
Lemma count_popcount_S (n : nat) (k : Z) :
  (n < 64)%nat ->
  count_popcount (S n) k = (count_popcount n k + count_popcount n (k - 1))%nat.
Proof.
  intros Hn. unfold count_popcount.
  rewrite states_S, filter_app, length_app. f_equal.
  rewrite filter_map_length. f_equal.
  apply filter_ext_in. intros s Hs. apply states_In in Hs.
  unfold popcount. rewrite popcount_upto_add_pow2 by exact Hs.
  replace (n <? u64_bits)%nat with true
    by (symmetry; apply Nat.ltb_lt; exact Hn).
  destruct (Z.eqb_spec (popcount_upto u64_bits s + 1) k);
    destruct (Z.eqb_spec (popcount_upto u64_bits s) (k - 1)); lia.
Qed.

Lemma popcount_0 : popcount 0 = 0.
Proof. vm_compute. reflexivity. Qed.

Lemma count_popcount_binomial (n : nat) :
  (n <= 64)%nat -> forall k : nat, count_popcount n (Z.of_nat k) = binomial n k.
Proof.
  induction n as [|n IH]; intros Hn k.
  - unfold count_popcount. change (states 0) with [0].
    cbn [filter]. rewrite popcount_0.
    destruct k as [|k]; [reflexivity|].
    replace (0 =? Z.of_nat (S k)) with false by (symmetry; apply Z.eqb_neq; lia).
    reflexivity.
  - rewrite count_popcount_S by lia. destruct k as [|k].
    + rewrite (count_popcount_negative n (Z.of_nat 0 - 1)) by lia.
      rewrite (IH ltac:(lia) 0%nat). destruct n; simpl; lia.
    + replace (Z.of_nat (S k) - 1) with (Z.of_nat k) by lia.
      rewrite !IH by lia. simpl. lia.
Qed.

(** ** [U1Sym] *)

(** For an integer target in the range of the counts, [U1Sym] compares the
    count with the target. *)
Lemma U1Sym_popcount (s k : Z) :
  0 <= k <= 64 ->
  GlobalSyms.U1Sym s (double_of_int k) = (popcount s =? k).
Proof.
  intros Hk. unfold GlobalSyms.U1Sym.
  apply double_of_int_eqb_small; [apply popcount_bounds | exact Hk].
Qed.

Lemma sector_In (Ns : nat) (k s : Z) :
  0 <= k <= 64 ->
  In s (sector Ns k) <-> 0 <= s < 2 ^ Z.of_nat Ns /\ popcount s = k.
Proof.
  intros Hk. unfold sector.
  rewrite filter_In, states_In, U1Sym_popcount by exact Hk.
  rewrite Z.eqb_eq. reflexivity.
Qed.

Lemma sector_length (Ns : nat) (k : Z) :
  0 <= k <= 64 ->
  List.length (sector Ns k) = count_popcount Ns k.
Proof.
  intros Hk. unfold sector, count_popcount. f_equal.
  apply filter_ext. intros s. apply U1Sym_popcount. exact Hk.
Qed.

(** A state below [2^Ns] has at most [Ns] bits set. *)
Lemma popcount_le_sites (Ns : nat) (s : Z) :
  (Ns <= 64)%nat -> 0 <= s < 2 ^ Z.of_nat Ns -> 0 <= popcount s <= Z.of_nat Ns.
Proof.
  intros HNs Hs. unfold popcount.
  rewrite (popcount_upto_above Ns u64_bits s Hs HNs).
  apply popcount_upto_bounds.
Qed.

(** ** The binomial coefficient *)

Lemma binomial_above (n k : nat) : (n < k)%nat -> binomial n k = 0%nat.
Proof.
  revert k. induction n as [|n IH]; intros [|k] H; try lia; [reflexivity|].
  simpl. rewrite !IH by lia. reflexivity.
Qed.

(** [binomial] is the binomial coefficient: [C(n,k) k! (n-k)! = n!]. *)
Lemma binomial_factorial (n k : nat) :
  (k <= n)%nat -> (binomial n k * (fact k * fact (n - k)) = fact n)%nat.
Proof.
  revert k. induction n as [|n IH]; intros [|k] H; try lia.
  - reflexivity.
  - simpl binomial. rewrite Nat.sub_0_r. change (fact 0) with 1%nat. lia.
  - cbn [binomial]. replace (S n - S k)%nat with (n - k)%nat by lia.
    rewrite Nat.mul_add_distr_r.
    assert (H1 : (binomial n k * (fact (S k) * fact (n - k)) = S k * fact n)%nat).
    { rewrite <- (IH k) by lia. change (fact (S k)) with (S k * fact k)%nat. ring. }
    assert (H2 : (binomial n (S k) * (fact (S k) * fact (n - k))
                  = (n - k) * fact n)%nat).
    { destruct (Nat.eq_dec k n) as [->|Hne].
      - rewrite binomial_above by lia. lia.
      - rewrite <- (IH (S k)) by lia.
        replace (n - k)%nat with (S (n - S k)) by lia.
        change (fact (S (n - S k))) with (S (n - S k) * fact (n - S k))%nat. ring. }
    rewrite H1, H2. change (fact (S n)) with (S n * fact n)%nat.
    rewrite <- Nat.mul_add_distr_r. f_equal. lia.
Qed.

(** ** The claims about [GlobalSyms] *)

(** C3: for every [Ns] in [1..20] and every [k] in [0..Ns], the number of
    basis states [s] in [[0, 2^Ns)] that [U1Sym] accepts for the target [k]
    is the binomial coefficient [C(Ns, k)]. *)
Theorem U1_sector_size_binomial (Ns k : nat) :
  (1 <= Ns <= 20)%nat -> (k <= Ns)%nat ->
  List.length (sector Ns (Z.of_nat k)) = binomial Ns k.
Proof.
  intros HNs Hk.
  rewrite sector_length by lia.
  apply count_popcount_binomial. lia.
Qed.

Lemma U1_sector_size_binomial_witness :
  (1 <= 4 <= 20)%nat /\ (2 <= 4)%nat /\
  List.length (sector 4 (Z.of_nat 2)) = binomial 4 2.
Proof.
  split; [lia|]. split; [lia|].
  apply (U1_sector_size_binomial 4 2); lia.
Defined.

(** C4: for every [Ns] that a [u64] state can hold, every state of
    [[0, 2^Ns)] belongs to the sector of exactly one target [k] in
    [0..Ns], two sectors of different targets share no state, and a sector
    holds nothing but states of [[0, 2^Ns)]. *)
Theorem U1_sectors_partition (Ns : nat) :
  (Ns <= 64)%nat ->
  (forall s, 0 <= s < 2 ^ Z.of_nat Ns ->
     exists k, 0 <= k <= Z.of_nat Ns /\ In s (sector Ns k) /\
       forall k', 0 <= k' <= Z.of_nat Ns -> In s (sector Ns k') -> k' = k)
  /\ (forall k k' s, 0 <= k <= Z.of_nat Ns -> 0 <= k' <= Z.of_nat Ns -> k <> k' ->
        In s (sector Ns k) -> ~ In s (sector Ns k'))
  /\ (forall k s, In s (sector Ns k) -> 0 <= s < 2 ^ Z.of_nat Ns).
Proof.
  intros HNs. split; [|split].
  - intros s Hs. exists (popcount s).
    pose proof (popcount_le_sites Ns s HNs Hs) as Hp.
    split; [exact Hp|]. split.
    + apply sector_In; [lia|]. split; [exact Hs | reflexivity].
    + intros k' Hk' Hin. apply sector_In in Hin; [|lia]. symmetry. apply Hin.
  - intros k k' s Hk Hk' Hne Hin Hin'.
    apply sector_In in Hin; [|lia]. apply sector_In in Hin'; [|lia]. lia.
  - intros k s Hin. unfold sector in Hin.
    apply filter_In in Hin. apply states_In. apply Hin.
Qed.

Lemma U1_sectors_partition_witness :
  (4 <= 64)%nat /\
  (exists k, 0 <= k <= 4 /\ In 5 (sector 4 k) /\
     forall k', 0 <= k' <= 4 -> In 5 (sector 4 k') -> k' = k).
Proof.
  split; [lia|].
  apply (proj1 (U1_sectors_partition 4 ltac:(lia)) 5). simpl. lia.
Defined.

Lemma check__apply_setters {Lattice : Type}
    (ops : list (GlobalSyms.other_setter)) (g : GlobalSyms.GlobalSym Lattice) :
  GlobalSyms.check_ (GlobalSyms.apply_setters ops g) = GlobalSyms.check_ g.
Proof.
  revert g. induction ops as [|o ops IH]; intros g; [reflexivity|].
  unfold GlobalSyms.apply_setters in *. simpl fold_left. rewrite IH.
  destruct o; reflexivity.
Qed.

(** C5: on a generator on which [setFun] has never been called (it was
    constructed and then changed by anything else), [operator()] throws
    [std::bad_function_call] for every state; it returns neither [true] nor
    [false]. *)
Theorem evaluate_before_setFun_throws {Lattice : Type} (_lat : Lattice)
    (_name : GlobalSyms.GlobalSymGenerators)
    (ops : list GlobalSyms.other_setter) (state : Z) :
  GlobalSyms.call (GlobalSyms.apply_setters ops (GlobalSyms.new _lat _name)) state
  = Throw bad_function_call.
Proof.
  unfold GlobalSyms.call. rewrite check__apply_setters. reflexivity.
Qed.

(** C6: for a generator holding the predicate [p] and the target [val_],
    [operator()] returns [p(state, val_)] and [check(state, outCond)]
    returns [p(state, val_) && outCond]. *)
Theorem evaluate_and_check_installed {Lattice : Type}
    (g : GlobalSyms.GlobalSym Lattice) (p : Z -> double -> bool)
    (state : Z) (outCond : bool) :
  GlobalSyms.check_ g = Some p ->
  GlobalSyms.call g state = Ok (p state (GlobalSyms.val_ g))
  /\ GlobalSyms.check g state outCond = Ok (p state (GlobalSyms.val_ g) && outCond).
Proof.
  intros Hp. unfold GlobalSyms.call, GlobalSyms.check. rewrite Hp. simpl. split; reflexivity.
Qed.

Lemma evaluate_and_check_installed_witness :
  let g := GlobalSyms.setFun (Some GlobalSyms.U1Sym)
             (GlobalSyms.setVal (double_of_int 2) (GlobalSyms.new tt GlobalSyms.U1)) in
  GlobalSyms.check_ g = Some GlobalSyms.U1Sym
  /\ GlobalSyms.call g 5 = Ok (GlobalSyms.U1Sym 5 (GlobalSyms.val_ g))
  /\ GlobalSyms.check g 5 true = Ok (GlobalSyms.U1Sym 5 (GlobalSyms.val_ g) && true).
Proof.
  intros g. split; [reflexivity|].
  apply (evaluate_and_check_installed g GlobalSyms.U1Sym 5 true). reflexivity.
Defined.

(** ** The claims about [ModP] *)

Lemma size_nonneg {T : Type} (v : UI_PARAMS.v_1d T) : 0 <= UI_PARAMS.size v.
Proof. unfold UI_PARAMS.size. lia. Qed.

Lemma size_nil_iff {T : Type} (v : UI_PARAMS.v_1d T) : UI_PARAMS.size v = 0 <-> v = [].
Proof.
  unfold UI_PARAMS.size. destruct v; simpl; split; intros H; try reflexivity; try discriminate; lia.
Qed.

(** An unsigned difference is never negative: the guard [_N < 0] of the
    resize operations is never taken. *)
Lemma size_t_sub_nonneg (a b : Z) : (size_t_sub a b <? 0) = false.
Proof.
  apply Z.ltb_ge. unfold size_t_sub, u64_modulus.
  apply Z.mod_pos_bound. lia.
Qed.

Lemma size_t_sub_underflow (a b : Z) :
  is_u64 a -> is_u64 b -> a < b -> size_t_sub a b = u64_modulus - (b - a).
Proof.
  unfold is_u64, size_t_sub, u64_modulus. intros Ha Hb Hlt.
  replace (a - b) with ((2 ^ 64 - (b - a)) + (-1) * 2 ^ 64) by lia.
  rewrite Z.mod_add by lia. apply Z.mod_small. lia.
Qed.

(** The three ways [resize] can end, in the order they are tried. *)
Lemma vector_resize_cases {T : Type} (max_size : Z) (granted : bool) (zero : T)
    (v : list T) (n : Z) :
  UI_PARAMS.vector_resize max_size granted zero v n
  = if max_size <? n then Throw length_error
    else if (UI_PARAMS.size v <? n) && negb granted then Throw bad_alloc
    else Ok (resized zero v n).
Proof. reflexivity. Qed.

Lemma resized_size {T : Type} (zero : T) (v : list T) (n : Z) :
  0 <= n -> UI_PARAMS.size (resized zero v n) = n.
Proof.
  intros Hn. unfold UI_PARAMS.size, resized.
  rewrite length_app, length_firstn, repeat_length. lia.
Qed.

(** One [member_.resize(n)]: what is thrown or stored, and on which object
    the allocator is asked. *)
Lemma resize_member_run {S : Type} (max_size : Z) (grants : UI_PARAMS.allocator S)
    (get : S -> list double) (set : list double -> S -> S) (n : Z) (s : S) :
  UI_PARAMS.resize_member max_size grants get set n s
  = if max_size <? n then (Throw length_error, s)
    else if (UI_PARAMS.size (get s) <? n) && negb (grants s n) then (Throw bad_alloc, s)
    else (Ok tt, set (resized UI_PARAMS.d0 (get s) n) s).
Proof.
  unfold UI_PARAMS.resize_member, bind, gets, modify, lift.
  rewrite vector_resize_cases.
  destruct (max_size <? n); [reflexivity|].
  destruct ((UI_PARAMS.size (get s) <? n) && negb (grants s n)); reflexivity.
Qed.

(** [resizeUM] in closed form: the guard is dead; with [n] the unsigned
    difference, the call throws [std::length_error] when [n] exceeds
    [max_size()], [std::bad_alloc] when the array has to grow and the
    allocator refuses, and otherwise resizes the array to [n]. *)
Lemma resizeUM_run (max_size : Z) (grants : UI_PARAMS.allocator UI_PARAMS.ultrametric_t)
    (u : UI_PARAMS.ultrametric_t) :
  UI_PARAMS.resizeUM max_size grants u
  = let n := size_t_sub (UI_PARAMS.um_Ntot_ u) (UI_PARAMS.um_N_ u) in
    let u1 := UI_PARAMS.set_um_alpha_r_ UI_PARAMS.d0 u in
    if max_size <? n then (Throw length_error, u1)
    else if (UI_PARAMS.size (UI_PARAMS.um_alpha_ u) <? n) && negb (grants u1 n)
         then (Throw bad_alloc, u1)
         else (Ok tt,
               UI_PARAMS.set_um_alpha_ (resized UI_PARAMS.d0 (UI_PARAMS.um_alpha_ u) n) u1).
Proof.
  unfold UI_PARAMS.resizeUM.
  unfold bind at 1. unfold gets at 1. rewrite size_t_sub_nonneg.
  unfold bind, modify. rewrite resize_member_run.
  destruct u as [N Ntot alpha alpha_r g]. reflexivity.
Qed.

(** [resizeQSM] in closed form: the guard is dead, and the three arrays are
    resized in turn to the unsigned difference [n]; each resize can throw,
    and the allocator is asked on the object as the earlier steps left
    it. *)
Lemma resizeQSM_run (max_size : Z) (grants : UI_PARAMS.allocator UI_PARAMS.qsm_t)
    (q : UI_PARAMS.qsm_t) :
  UI_PARAMS.resizeQSM max_size grants q
  = let n := size_t_sub (UI_PARAMS.qsm_Ntot_ q) (UI_PARAMS.qsm_N_ q) in
    let q1 := UI_PARAMS.set_qsm_alpha_r_ UI_PARAMS.d0 q in
    if max_size <? n then (Throw length_error, q1)
    else if (UI_PARAMS.size (UI_PARAMS.qsm_alpha_ q) <? n) && negb (grants q1 n)
    then (Throw bad_alloc, q1)
    else
      let q2 := UI_PARAMS.set_qsm_xi_r_ UI_PARAMS.d0
                  (UI_PARAMS.set_qsm_alpha_
                     (resized UI_PARAMS.d0 (UI_PARAMS.qsm_alpha_ q) n) q1) in
      if (UI_PARAMS.size (UI_PARAMS.qsm_xi_ q) <? n) && negb (grants q2 n)
      then (Throw bad_alloc, q2)
      else
        let q3 := UI_PARAMS.set_qsm_h_r_ UI_PARAMS.d0
                    (UI_PARAMS.set_qsm_xi_
                       (resized UI_PARAMS.d0 (UI_PARAMS.qsm_xi_ q) n) q2) in
        if (UI_PARAMS.size (UI_PARAMS.qsm_h_ q) <? n) && negb (grants q3 n)
        then (Throw bad_alloc, q3)
        else (Ok tt,
              UI_PARAMS.set_qsm_h_ (resized UI_PARAMS.d0 (UI_PARAMS.qsm_h_ q) n) q3).
Proof.
  unfold UI_PARAMS.resizeQSM.
  unfold bind at 1. unfold gets at 1. rewrite size_t_sub_nonneg.
  destruct q as [N Ntot gamma g0 alpha alpha_r xi xi_r h h_r].
  cbv beta iota zeta delta
    [bind gets modify
     UI_PARAMS.qsm_N_ UI_PARAMS.qsm_Ntot_ UI_PARAMS.qsm_alpha_ UI_PARAMS.qsm_xi_
     UI_PARAMS.qsm_h_ UI_PARAMS.qsm_gamma_ UI_PARAMS.qsm_g0_ UI_PARAMS.qsm_alpha_r_
     UI_PARAMS.qsm_xi_r_ UI_PARAMS.qsm_h_r_
     UI_PARAMS.set_qsm_alpha_r_ UI_PARAMS.set_qsm_alpha_
     UI_PARAMS.set_qsm_xi_r_ UI_PARAMS.set_qsm_xi_ UI_PARAMS.set_qsm_h_r_
     UI_PARAMS.set_qsm_h_].
  set (n := size_t_sub Ntot N).
  rewrite resize_member_run. cbv beta iota delta [UI_PARAMS.qsm_alpha_].
  destruct (max_size <? n) eqn:Hmax; [reflexivity|].
  destruct ((UI_PARAMS.size alpha <? n) && negb (grants _ n)); [reflexivity|].
  cbv beta iota delta [UI_PARAMS.set_qsm_alpha_ UI_PARAMS.qsm_N_ UI_PARAMS.qsm_Ntot_
    UI_PARAMS.qsm_gamma_ UI_PARAMS.qsm_g0_ UI_PARAMS.qsm_alpha_r_ UI_PARAMS.qsm_xi_
    UI_PARAMS.qsm_xi_r_ UI_PARAMS.qsm_h_ UI_PARAMS.qsm_h_r_ UI_PARAMS.qsm_alpha_].
  fold n. rewrite resize_member_run. rewrite Hmax.
  cbv beta iota delta [UI_PARAMS.qsm_xi_].
  destruct ((UI_PARAMS.size xi <? n) && negb (grants _ n)); [reflexivity|].
  cbv beta iota delta [UI_PARAMS.set_qsm_xi_ UI_PARAMS.qsm_N_ UI_PARAMS.qsm_Ntot_
    UI_PARAMS.qsm_gamma_ UI_PARAMS.qsm_g0_ UI_PARAMS.qsm_alpha_r_ UI_PARAMS.qsm_xi_
    UI_PARAMS.qsm_xi_r_ UI_PARAMS.qsm_h_ UI_PARAMS.qsm_h_r_ UI_PARAMS.qsm_alpha_].
  fold n. rewrite resize_member_run. rewrite Hmax.
  cbv beta iota delta [UI_PARAMS.qsm_h_].
  destruct ((UI_PARAMS.size h <? n) && negb (grants _ n)); reflexivity.
Qed.

(** [resizeUM] with [um_Ntot_ < um_N_]: the wrapped difference is a positive
    size; the call throws, or it leaves [um_alpha_] with that many
    elements. *)
Lemma resizeUM_underflow (max_size : Z)
    (grants : UI_PARAMS.allocator UI_PARAMS.ultrametric_t) (u : UI_PARAMS.ultrametric_t) :
  is_u64 (UI_PARAMS.um_N_ u) -> is_u64 (UI_PARAMS.um_Ntot_ u) ->
  UI_PARAMS.um_Ntot_ u < UI_PARAMS.um_N_ u ->
  let n := u64_modulus - (UI_PARAMS.um_N_ u - UI_PARAMS.um_Ntot_ u) in
  let r := UI_PARAMS.resizeUM max_size grants u in
  0 < n /\
  (fst r = Throw length_error \/ fst r = Throw bad_alloc
   \/ UI_PARAMS.size (UI_PARAMS.um_alpha_ (snd r)) = n).
Proof.
  intros HN HNtot Hlt n r.
  assert (Hn : 0 < n) by (unfold n, is_u64 in *; lia).
  split; [exact Hn|]. subst r.
  rewrite resizeUM_run. cbv zeta.
  rewrite (size_t_sub_underflow _ _ HNtot HN Hlt). fold n.
  destruct (max_size <? n); [left; reflexivity|].
  destruct ((UI_PARAMS.size (UI_PARAMS.um_alpha_ u) <? n) && negb _);
    [right; left; reflexivity|].
  right. right. destruct u as [N Ntot alpha alpha_r g].
  cbn [snd UI_PARAMS.um_alpha_ UI_PARAMS.set_um_alpha_ UI_PARAMS.set_um_alpha_r_].
  apply resized_size. lia.
Qed.

(** [resizeQSM] with [qsm_Ntot_ < qsm_N_]: likewise; when the call returns,
    each of the three arrays has that many elements. *)
Lemma resizeQSM_underflow (max_size : Z)
    (grants : UI_PARAMS.allocator UI_PARAMS.qsm_t) (q : UI_PARAMS.qsm_t) :
  is_u64 (UI_PARAMS.qsm_N_ q) -> is_u64 (UI_PARAMS.qsm_Ntot_ q) ->
  UI_PARAMS.qsm_Ntot_ q < UI_PARAMS.qsm_N_ q ->
  let n := u64_modulus - (UI_PARAMS.qsm_N_ q - UI_PARAMS.qsm_Ntot_ q) in
  let r := UI_PARAMS.resizeQSM max_size grants q in
  0 < n /\
  (fst r = Throw length_error \/ fst r = Throw bad_alloc
   \/ (UI_PARAMS.size (UI_PARAMS.qsm_alpha_ (snd r)) = n
       /\ UI_PARAMS.size (UI_PARAMS.qsm_xi_ (snd r)) = n
       /\ UI_PARAMS.size (UI_PARAMS.qsm_h_ (snd r)) = n)).
Proof.
  intros HN HNtot Hlt n r.
  assert (Hn : 0 < n) by (unfold n, is_u64 in *; lia).
  split; [exact Hn|]. subst r.
  rewrite resizeQSM_run. cbv zeta.
  rewrite (size_t_sub_underflow _ _ HNtot HN Hlt). fold n.
  destruct (max_size <? n); [left; reflexivity|].
  destruct ((UI_PARAMS.size (UI_PARAMS.qsm_alpha_ q) <? n) && negb _);
    [right; left; reflexivity|].
  destruct ((UI_PARAMS.size (UI_PARAMS.qsm_xi_ q) <? n) && negb _);
    [right; left; reflexivity|].
  destruct ((UI_PARAMS.size (UI_PARAMS.qsm_h_ q) <? n) && negb _);
    [right; left; reflexivity|].
  right. right. destruct q as [N Ntot gamma g0 alpha alpha_r xi xi_r h h_r].
  cbn [snd UI_PARAMS.qsm_alpha_ UI_PARAMS.qsm_xi_ UI_PARAMS.qsm_h_
       UI_PARAMS.set_qsm_alpha_r_ UI_PARAMS.set_qsm_alpha_
       UI_PARAMS.set_qsm_xi_r_ UI_PARAMS.set_qsm_xi_ UI_PARAMS.set_qsm_h_r_
       UI_PARAMS.set_qsm_h_ UI_PARAMS.qsm_N_ UI_PARAMS.qsm_Ntot_
       UI_PARAMS.qsm_gamma_ UI_PARAMS.qsm_g0_ UI_PARAMS.qsm_alpha_r_
       UI_PARAMS.qsm_xi_r_ UI_PARAMS.qsm_h_r_].
  rewrite !resized_size by lia. auto.
Qed.

(** C1: on freshly constructed blocks with the sub-population count [2]
    above the total [1], neither resize operation returns: the unsigned
    difference is [2^64 - 1], the guard does not fire, and the first
    [resize] throws [std::length_error], whatever the allocator would
    grant. *)
Theorem resize_underflow_throws
    (grants_qsm : UI_PARAMS.allocator UI_PARAMS.qsm_t)
    (grants_um : UI_PARAMS.allocator UI_PARAMS.ultrametric_t) :
  UI_PARAMS.resizeQSM Demo.max_size grants_qsm Demo.qsm_underflow
    = (Throw length_error, Demo.qsm_underflow)
  /\ UI_PARAMS.resizeUM Demo.max_size grants_um Demo.um_underflow
    = (Throw length_error, Demo.um_underflow).
Proof.
  split.
  - rewrite resizeQSM_run. reflexivity.
  - rewrite resizeUM_run. reflexivity.
Qed.

(** C2: [setDefault] on a freshly constructed record fills the Kitaev,
    Heisenberg, QSM and Rosenzweig-Porter arrays with one element each and
    leaves [um_alpha_] and [plrb_a_] empty; on every record it leaves the
    ultrametric and the power-law blocks as they were. *)
Theorem setDefault_skips_ultrametric_and_power_law :
  let p := UI_PARAMS.setDefault UI_PARAMS.ModP_init in
  forallb UI_PARAMS.nonempty
    (UI_PARAMS.kitaev_arrays p ++ UI_PARAMS.heisenberg_arrays p
     ++ UI_PARAMS.qsm_arrays p ++ UI_PARAMS.rosenzweig_porter_arrays p) = true
  /\ UI_PARAMS.ultrametric_arrays p = [[]]
  /\ UI_PARAMS.power_law_arrays p = [[]]
  /\ (forall q : UI_PARAMS.ModP,
        UI_PARAMS.ultrametric (UI_PARAMS.setDefault q) = UI_PARAMS.ultrametric q
        /\ UI_PARAMS.power_law_random_bandwidth (UI_PARAMS.setDefault q)
           = UI_PARAMS.power_law_random_bandwidth q).
Proof.
  intros p. repeat split.
Qed.

(** C10: on a record whose [modRanN_] is not empty, [getRanReal(i)] reads
    inside the vector for every index: the element at [i] when
    [i < modRanN_.size()], the last element otherwise.  On an empty
    [modRanN_] the access is out of bounds for every index. *)
Theorem getRanReal_in_bounds (p : UI_PARAMS.ModP) (i : Z) :
  0 <= i < 2 ^ 32 ->
  UI_PARAMS.size (UI_PARAMS.modRanN_ p) < u64_modulus ->
  (UI_PARAMS.modRanN_ p <> [] ->
     UI_PARAMS.getRanReal p i
     = Some (if i <? UI_PARAMS.size (UI_PARAMS.modRanN_ p)
             then nth (Z.to_nat i) (UI_PARAMS.modRanN_ p) 0
             else last (UI_PARAMS.modRanN_ p) 0))
  /\ (UI_PARAMS.modRanN_ p = [] -> UI_PARAMS.getRanReal p i = None).
Proof.
  intros Hi Hsz. unfold UI_PARAMS.getRanReal.
  set (v := UI_PARAMS.modRanN_ p) in *. split.
  - intros Hne.
    assert (Hpos : 0 < UI_PARAMS.size v).
    { pose proof (size_nonneg v). pose proof (size_nil_iff v). 
      destruct (Z.eq_dec (UI_PARAMS.size v) 0); [tauto | lia]. }
    destruct (Z.ltb_spec i (UI_PARAMS.size v)) as [Hlt|Hge].
    + unfold UI_PARAMS.at_index.
      replace (0 <=? i) with true by (symmetry; apply Z.leb_le; lia).
      replace (i <? UI_PARAMS.size v) with true by (symmetry; apply Z.ltb_lt; lia).
      cbn [andb]. apply nth_error_nth'. unfold UI_PARAMS.size in Hlt. lia.
    + assert (Hsub : size_t_sub (UI_PARAMS.size v) 1 = UI_PARAMS.size v - 1).
      { unfold size_t_sub. apply Z.mod_small. lia. }
      rewrite Hsub. unfold UI_PARAMS.at_index.
      replace (0 <=? UI_PARAMS.size v - 1) with true by (symmetry; apply Z.leb_le; lia).
      replace (UI_PARAMS.size v - 1 <? UI_PARAMS.size v) with true
        by (symmetry; apply Z.ltb_lt; lia).
      cbn [andb]. unfold UI_PARAMS.size in *.
      replace (Z.to_nat (Z.of_nat (List.length v) - 1)) with (List.length v - 1)%nat by lia.
      rewrite (nth_error_nth' v 0) by lia. f_equal.
      destruct (exists_last Hne) as [l [x ->]].
      rewrite last_last, length_app, app_nth2 by (simpl; lia).
      simpl List.length. replace (List.length l + 1 - 1 - List.length l)%nat with 0%nat by lia.
      reflexivity.
  - intros Hnil. rewrite Hnil.
    change (UI_PARAMS.size (@nil Z)) with 0.
    replace (i <? 0) with false by (symmetry; apply Z.ltb_ge; lia).
    unfold UI_PARAMS.at_index. change (UI_PARAMS.size (@nil Z)) with 0.
    rewrite size_t_sub_nonneg, andb_false_r. reflexivity.
Qed.

Lemma getRanReal_in_bounds_witness :
  let p := UI_PARAMS.setDefault UI_PARAMS.ModP_init in
  0 <= 7 < 2 ^ 32
  /\ UI_PARAMS.size (UI_PARAMS.modRanN_ p) < u64_modulus
  /\ UI_PARAMS.modRanN_ p <> []
  /\ UI_PARAMS.getRanReal p 7 = Some 1.
Proof.
  intros p.
  assert (H1 : 0 <= 7 < 2 ^ 32) by lia.
  assert (H2 : UI_PARAMS.size (UI_PARAMS.modRanN_ p) < u64_modulus) by reflexivity.
  assert (H3 : UI_PARAMS.modRanN_ p <> []) by discriminate.
  split; [exact H1|]. split; [exact H2|]. split; [exact H3|].
  exact (proj1 (getRanReal_in_bounds p 7 H1 H2) H3).
Defined.

(** ** The claims about [SYK2] *)

Lemma map_combine_repeat {A B C : Type} (f : A -> B -> C) (l : list A) (z : B) (n : nat) :
  n = List.length l ->
  map (fun xy => f (fst xy) (snd xy)) (combine l (repeat z n)) = map (fun x => f x z) l.
Proof.
  intros ->. induction l as [|a l IH]; [reflexivity|].
  simpl. now rewrite IH.
Qed.

(** ** IEEE arithmetic of the elements *)

(** *** Rounding never invents a NaN, and keeps the sign *)

Lemma iter_pos_nat {A : Type} (f : A -> A) (k : positive) (x : A) :
  iter_pos f k x = Nat.iter (Pos.to_nat k) f x.
Proof.
  revert x. induction k as [k IH|k IH|]; intros x; cbn [iter_pos].
  - rewrite !IH. rewrite Pos2Nat.inj_xI.
    replace (S (2 * Pos.to_nat k))%nat with (Pos.to_nat k + S (Pos.to_nat k))%nat by lia.
    rewrite Nat.iter_add. f_equal. rewrite Nat.iter_succ_r. reflexivity.
  - rewrite !IH. rewrite Pos2Nat.inj_xO.
    replace (2 * Pos.to_nat k)%nat with (Pos.to_nat k + Pos.to_nat k)%nat by lia.
    rewrite Nat.iter_add. reflexivity.
  - reflexivity.
Qed.

Lemma shr_1_nonneg (mrs : shr_record) : 0 <= shr_m mrs -> 0 <= shr_m (shr_1 mrs).
Proof.
  destruct mrs as [m r s]. destruct m as [|p|p]; cbn [shr_m shr_1]; intros H.
  - cbn. lia.
  - destruct p; cbn; lia.
  - lia.
Qed.

Lemma iter_shr_1_nonneg (n : nat) (mrs : shr_record) :
  0 <= shr_m mrs -> 0 <= shr_m (Nat.iter n shr_1 mrs).
Proof.
  intros H. induction n as [|n IH]; [exact H|].
  cbn [Nat.iter]. apply shr_1_nonneg. exact IH.
Qed.

Lemma shr_nonneg (mrs : shr_record) (e k : Z) :
  0 <= shr_m mrs -> 0 <= shr_m (fst (shr mrs e k)).
Proof.
  intros H. destruct k as [|p|p]; cbn [shr fst]; try exact H.
  rewrite iter_pos_nat. apply iter_shr_1_nonneg. exact H.
Qed.

Lemma shr_record_of_loc_m (m : Z) (l : location) : shr_m (shr_record_of_loc m l) = m.
Proof. destruct l as [|[| |]]; reflexivity. Qed.

Lemma round_nearest_even_nonneg (m : Z) (l : location) :
  0 <= m -> 0 <= round_nearest_even m l.
Proof.
  intros H. destruct l as [|[| |]]; cbn [round_nearest_even]; try lia.
  destruct (Z.even m); lia.
Qed.

Lemma round_nearest_even_pos (m : Z) (l : location) :
  0 < m -> 0 < round_nearest_even m l.
Proof.
  intros H. destruct l as [|[| |]]; cbn [round_nearest_even]; try lia.
  destruct (Z.even m); lia.
Qed.

Lemma binary_round_aux_signed (prec emax : Z) (sx : bool) (mx ex : Z) (lx : location) :
  0 <= mx -> signed_as sx (binary_round_aux prec emax sx mx ex lx).
Proof.
  intros Hmx. unfold binary_round_aux, shr_fexp.
  destruct (shr (shr_record_of_loc mx lx) ex
              (fexp prec emax (Zdigits2 mx + ex) - ex)) as [mrs' e'] eqn:E1.
  assert (H1 : 0 <= shr_m mrs').
  { change mrs' with (fst (mrs', e')). rewrite <- E1. apply shr_nonneg.
    rewrite shr_record_of_loc_m. exact Hmx. }
  set (m1 := round_nearest_even (shr_m mrs') (loc_of_shr_record mrs')).
  assert (Hm1 : 0 <= m1) by (apply round_nearest_even_nonneg; exact H1).
  destruct (shr (shr_record_of_loc m1 loc_Exact) e'
              (fexp prec emax (Zdigits2 m1 + e') - e')) as [mrs'' e''] eqn:E2.
  assert (H2 : 0 <= shr_m mrs'').
  { change mrs'' with (fst (mrs'', e'')). rewrite <- E2. apply shr_nonneg.
    cbn [shr_record_of_loc shr_m]. exact Hm1. }
  destruct (shr_m mrs'') as [|p|p].
  - left. reflexivity.
  - destruct (e'' <=? emax - prec).
    + right. left. eauto.
    + right. right. reflexivity.
  - lia.
Qed.

Lemma binary_round_aux_opp (prec emax : Z) (sx : bool) (mx ex : Z) (lx : location) :
  0 <= mx ->
  binary_round_aux prec emax (negb sx) mx ex lx
  = SFopp (binary_round_aux prec emax sx mx ex lx).
Proof.
  intros Hmx.
  pose proof (binary_round_aux_signed prec emax sx mx ex lx Hmx) as Hs.
  revert Hs.
  unfold binary_round_aux, shr_fexp.
  destruct (shr (shr_record_of_loc mx lx) ex _) as [mrs' e'].
  destruct (shr _ e' _) as [mrs'' e''].
  destruct (shr_m mrs'') as [|p|p].
  - reflexivity.
  - destruct (e'' <=? emax - prec); reflexivity.
  - intros [H|[[m [e H]]|H]]; discriminate H.
Qed.

(** *** A positive mantissa above the underflow threshold stays positive *)

Lemma shr_1_pos (mrs : shr_record) (p : positive) :
  shr_m mrs = Zpos p -> (1 < Pos.to_nat (digits2_pos p))%nat ->
  exists p', shr_m (shr_1 mrs) = Zpos p'
             /\ S (Pos.to_nat (digits2_pos p')) = Pos.to_nat (digits2_pos p).
Proof.
  destruct mrs as [m r s]. cbn [shr_m]. intros -> Hd.
  destruct p as [q|q|]; cbn [shr_1 shr_m digits2_pos] in *.
  - exists q. split; [reflexivity|]. rewrite Pos2Nat.inj_succ. reflexivity.
  - exists q. split; [reflexivity|]. rewrite Pos2Nat.inj_succ. reflexivity.
  - exfalso. change (Pos.to_nat 1) with 1%nat in Hd. lia.
Qed.

Lemma iter_shr_1_pos (n : nat) (mrs : shr_record) (p : positive) :
  shr_m mrs = Zpos p -> (n < Pos.to_nat (digits2_pos p))%nat ->
  exists p', shr_m (Nat.iter n shr_1 mrs) = Zpos p'
             /\ (Pos.to_nat (digits2_pos p') + n = Pos.to_nat (digits2_pos p))%nat.
Proof.
  intros Hm. induction n as [|n IH]; intros Hn.
  - exists p. split; [exact Hm | lia].
  - destruct IH as [p1 [H1 Hd1]]; [lia|].
    cbn [Nat.iter].
    destruct (shr_1_pos (Nat.iter n shr_1 mrs) p1 H1) as [p2 [H2 Hd2]]; [lia|].
    exists p2. split; [exact H2 | lia].
Qed.

Section Rounded.

Variables prec emax : Z.
Hypothesis prec_pos : 0 < prec.

Lemma shr_fexp_pos (p : positive) (e : Z) (l : location) :
  emin prec emax <= e ->
  exists p1, shr_m (fst (shr_fexp prec emax (Zpos p) e l)) = Zpos p1
             /\ e <= snd (shr_fexp prec emax (Zpos p) e l).
Proof.
  intros He. unfold shr_fexp, shr.
  destruct (fexp prec emax (Zdigits2 (Zpos p) + e) - e) as [|k|k] eqn:Ek;
    cbn [fst snd].
  - exists p. rewrite shr_record_of_loc_m. split; [reflexivity | lia].
  - rewrite iter_pos_nat.
    destruct (iter_shr_1_pos (Pos.to_nat k) (shr_record_of_loc (Zpos p) l) p)
      as [p1 [H1 _]].
    + apply shr_record_of_loc_m.
    + unfold fexp in Ek. cbn [Zdigits2] in Ek.
      assert (Zpos k < Zpos (digits2_pos p)) by lia. lia.
    + exists p1. split; [exact H1 | lia].
  - exists p. rewrite shr_record_of_loc_m. split; [reflexivity | lia].
Qed.

(** Rounding a positive mantissa whose exponent is not below [emin] gives a
    finite number that is not zero, or overflows. *)
Lemma binary_round_aux_pos (sx : bool) (p : positive) (ex : Z) (lx : location) :
  emin prec emax <= ex ->
  (exists m e, binary_round_aux prec emax sx (Zpos p) ex lx = S754_finite sx m e
               /\ ex <= e)
  \/ binary_round_aux prec emax sx (Zpos p) ex lx = S754_infinity sx.
Proof.
  intros He. unfold binary_round_aux.
  destruct (shr_fexp_pos p ex lx He) as [p1 [H1 He1]].
  destruct (shr_fexp prec emax (Zpos p) ex lx) as [mrs' e'].
  cbn [fst snd] in H1, He1.
  assert (Hm1 : 0 < round_nearest_even (shr_m mrs') (loc_of_shr_record mrs'))
    by (apply round_nearest_even_pos; rewrite H1; lia).
  destruct (round_nearest_even (shr_m mrs') (loc_of_shr_record mrs')) as [|p2|p2];
    try lia.
  destruct (shr_fexp_pos p2 e' loc_Exact) as [p3 [H3 He3]]; [lia|].
  destruct (shr_fexp prec emax (Zpos p2) e' loc_Exact) as [mrs'' e''].
  cbn [fst snd] in H3, He3. rewrite H3.
  destruct (e'' <=? emax - prec).
  - left. exists p3, e''. split; [reflexivity | lia].
  - right. reflexivity.
Qed.

Hypothesis emin_nonpos : emin prec emax <= 0.

(** A positive integer converts to a positive number, finite with an
    exponent not below [emin], or infinite. *)
Lemma binary_normalize_pos (p : positive) :
  (exists m e, binary_normalize prec emax (Zpos p) 0 false = S754_finite false m e
               /\ emin prec emax <= e)
  \/ binary_normalize prec emax (Zpos p) 0 false = S754_infinity false.
Proof.
  cbn [binary_normalize]. unfold binary_round.
  destruct (shl_align p 0 (fexp prec emax (Zpos (digits2_pos p) + 0))) as [mz ez] eqn:E.
  assert (Hez : emin prec emax <= ez).
  { unfold shl_align in E.
    destruct (fexp prec emax (Zpos (digits2_pos p) + 0) - 0) as [|d|d] eqn:Ed;
      injection E as _ <-; try lia.
    unfold fexp. lia. }
  destruct (binary_round_aux_pos false mz ez loc_Exact Hez) as [[m [e [H He]]]|H].
  - left. exists m, e. split; [exact H | lia].
  - right. exact H.
Qed.

(** The square root of a positive finite number is a positive number that
    is not zero. *)
Lemma SFsqrt_pos (m : positive) (e : Z) :
  emin prec emax <= e ->
  (exists m' e', SFsqrt prec emax (S754_finite false m e) = S754_finite false m' e')
  \/ SFsqrt prec emax (S754_finite false m e) = S754_infinity false.
Proof.
  intros He. cbn [SFsqrt]. unfold SFsqrt_core_binary.
  set (e' := Z.min (fexp prec emax (Z.div2 (Zdigits2 (Zpos m) + e + 1))) (Z.div2 e)).
  assert (He' : emin prec emax <= e' /\ 2 * e' <= e).
  { unfold e', fexp. rewrite !Z.div2_div.
    pose proof (Z.div_mod e 2 ltac:(lia)) as Hd.
    pose proof (Z.mod_pos_bound e 2 ltac:(lia)) as Hb.
    lia. }
  set (s := e - 2 * e').
  assert (Hs : 0 <= s) by (unfold s; lia).
  set (m' := match s with Z.pos _ => Z.shiftl (Zpos m) s | 0 => Zpos m | Z.neg _ => 0 end).
  assert (Hm' : 1 <= m').
  { unfold m'. destruct s as [|k|k]; try lia.
    rewrite Z.shiftl_mul_pow2 by lia.
    assert (0 < 2 ^ Zpos k) by (apply Z.pow_pos_nonneg; lia). nia. }
  pose proof (Z.sqrtrem_spec m' ltac:(lia)) as Hsq.
  destruct (Z.sqrtrem m') as [q r].
  assert (Hq : 0 < q) by nia.
  destruct q as [|q|q]; try lia.
  destruct (binary_round_aux_pos false q e'
              (if r =? 0 then loc_Exact
               else loc_Inexact (if r <=? Zpos q then Lt else Gt)))
    as [[m1 [e1 [H _]]]|H]; [lia| |].
  - left. exists m1, e1. exact H.
  - right. exact H.
Qed.

End Rounded.

(** *** Doubles *)

Lemma prec64_pos : 0 < prec64.
Proof. reflexivity. Qed.

Lemma emin64_nonpos : emin prec64 emax64 <= 0.
Proof. discriminate. Qed.

Lemma sqrt_Nh_positive (n : Z) : 1 <= n -> positive_number (SYK2.sqrt_Nh n) = true.
Proof.
  intros Hn. destruct n as [|p|p]; try lia.
  unfold SYK2.sqrt_Nh, double_of_int.
  destruct (binary_normalize_pos prec64 emax64 prec64_pos emin64_nonpos p)
    as [[m [e [H He]]]|H]; rewrite H.
  - destruct (SFsqrt_pos prec64 emax64 prec64_pos emin64_nonpos m e He) as [[m' [e' H']]|H'];
      rewrite H'; reflexivity.
  - reflexivity.
Qed.

Lemma signed_as_not_nan (sx : bool) (x : double) : signed_as sx x -> is_nan x = false.
Proof. intros [->|[[m [e ->]]| ->]]; reflexivity. Qed.

Lemma SFdiv_round (prec emax : Z) (sx sy : bool) (mx my : positive) (ex ey : Z) :
  exists mz ez lz,
    0 <= mz
    /\ forall s, SFdiv prec emax (S754_finite (xorb s sx) mx ex) (S754_finite sy my ey)
                 = binary_round_aux prec emax (xorb (xorb s sx) sy) mz ez lz.
Proof.
  cbn [SFdiv]. unfold SFdiv_core_binary.
  set (e' := Z.min _ _). set (s0 := ex - ey - e').
  set (m' := match s0 with Z.pos _ => Z.shiftl (Zpos mx) s0 | 0 => Zpos mx | Z.neg _ => 0 end).
  assert (Hm' : 0 <= m').
  { unfold m'. destruct s0; try lia. apply Z.shiftl_nonneg. lia. }
  pose proof (Z_div_mod m' (Zpos my) ltac:(lia)) as Hdiv.
  destruct (Z.div_eucl m' (Zpos my)) as [q r].
  exists q, e', (new_location (Zpos my) r). split; [nia|].
  intros s. reflexivity.
Qed.

(** A finite number divided by a positive number is a number. *)
Lemma SFdiv_finite_by_positive (x s : double) :
  is_finite x = true -> positive_number s = true ->
  is_nan (SFdiv prec64 emax64 x s) = false.
Proof.
  intros Hx Hs.
  destruct s as [| [|] | | [|] ms es]; try discriminate Hs;
    destruct x as [sx| | |sx mx ex]; try discriminate Hx; try reflexivity.
  destruct (SFdiv_round prec64 emax64 sx false mx ms ex es) as [mz [ez [lz [Hmz H]]]].
  specialize (H false). cbn [xorb] in H. rewrite H.
  apply (signed_as_not_nan (xorb sx false)). apply binary_round_aux_signed. exact Hmz.
Qed.

(** Division by a positive number commutes with the change of sign. *)
Lemma SFdiv_opp (x s : double) :
  positive_number s = true ->
  SFdiv prec64 emax64 (SFopp x) s = SFopp (SFdiv prec64 emax64 x s).
Proof.
  intros Hs.
  destruct s as [| [|] | | [|] ms es]; try discriminate Hs;
    destruct x as [sx| sx | |sx mx ex]; try reflexivity;
    try (destruct sx; reflexivity).
  destruct (SFdiv_round prec64 emax64 sx false mx ms ex es) as [mz [ez [lz [Hmz H]]]].
  pose proof (H false) as H0. pose proof (H true) as H1.
  cbn [xorb] in H0.
  cbn [SFopp].
  replace (negb sx) with (xorb true sx) by (destruct sx; reflexivity).
  rewrite H0, H1.
  replace (xorb (xorb true sx) false) with (negb (xorb sx false))
    by (destruct sx; reflexivity).
  apply binary_round_aux_opp. exact Hmz.
Qed.

Lemma double_eqb_refl (x : double) : is_nan x = false -> double_eqb x x = true.
Proof.
  destruct x as [s|s| |s m e]; intros H; try discriminate H.
  - reflexivity.
  - destruct s; reflexivity.
  - unfold double_eqb, SFeqb, SFcompare.
    rewrite Z.compare_refl, Pos.compare_cont_refl. destruct s; reflexivity.
Qed.

(** Two doubles that compare equal are the same, or are two zeros. *)
Lemma double_eqb_cases (x y : double) :
  double_eqb x y = true ->
  is_nan x = false
  /\ (x = y \/ exists sx sy, x = S754_zero sx /\ y = S754_zero sy).
Proof.
  unfold double_eqb, SFeqb, SFcompare.
  destruct x as [sx|sx| |sx mx ex]; destruct y as [sy|sy| |sy my ey]; intros H;
    try discriminate H;
    try (destruct sx; discriminate H); try (destruct sy; discriminate H);
    (split; [reflexivity|]).
  - right. eauto.
  - destruct sx, sy; try discriminate H; left; reflexivity.
  - left.
    assert (Hc : (ex ?= ey) = Eq /\ Pos.compare_cont Eq mx my = Eq /\ sx = sy).
    { destruct sx, sy; try discriminate H;
        destruct (ex ?= ey); try discriminate H;
        destruct (Pos.compare_cont Eq mx my); try discriminate H;
        repeat split. }
    destruct Hc as [He [Hm Hsgn]].
    apply Z.compare_eq in He. apply Pos.compare_eq in Hm. subst. reflexivity.
Qed.

Lemma plus_zero_cases (x : double) :
  plus_zero x = match x with S754_zero _ => S754_zero false | _ => x end.
Proof. destruct x as [[|]|[|]| |s m e]; reflexivity. Qed.

Lemma plus_zero_not_nan (x : double) : is_nan x = false -> is_nan (plus_zero x) = false.
Proof. rewrite plus_zero_cases. destruct x; intros H; try discriminate H; reflexivity. Qed.

Lemma SFdiv_zero_by_positive (sx : bool) (s : double) :
  positive_number s = true ->
  exists sz, SFdiv prec64 emax64 (S754_zero sx) s = S754_zero sz.
Proof.
  destruct s as [| [|] | | [|] ms es]; intros Hs; try discriminate Hs;
    cbn [SFdiv]; eauto.
Qed.

(** The real element [g / s + 0] of two equal elements of the sample. *)
Lemma real_entry_symmetric (s x y : double) :
  positive_number s = true ->
  is_finite x = true ->
  double_eqb x y = true ->
  double_eqb (plus_zero (SFdiv prec64 emax64 x s)) (plus_zero (SFdiv prec64 emax64 y s))
  = true.
Proof.
  intros Hs Hx Heq.
  destruct (double_eqb_cases x y Heq) as [_ [<-|[sx [sy [-> ->]]]]].
  - apply double_eqb_refl. apply plus_zero_not_nan.
    apply SFdiv_finite_by_positive; assumption.
  - destruct (SFdiv_zero_by_positive sx s Hs) as [sz ->].
    destruct (SFdiv_zero_by_positive sy s Hs) as [sz' ->].
    rewrite !plus_zero_cases. reflexivity.
Qed.

(** The imaginary element of two opposite elements of the sample. *)
Lemma imag_entry_hermitian (s x y : double) :
  positive_number s = true ->
  is_finite y = true ->
  double_eqb x (SFopp y) = true ->
  double_eqb (plus_zero (SFdiv prec64 emax64 x s))
    (SFopp (plus_zero (SFdiv prec64 emax64 y s))) = true.
Proof.
  intros Hs Hy Heq.
  destruct (double_eqb_cases x (SFopp y) Heq) as [_ [->|[sx [sy [-> Hy0]]]]].
  - rewrite SFdiv_opp by exact Hs.
    pose proof (SFdiv_finite_by_positive y s Hy Hs) as Hr.
    destruct (SFdiv prec64 emax64 y s) as [b|b| |b m e]; try discriminate Hr.
    + destruct b; reflexivity.
    + destruct b; reflexivity.
    + rewrite !plus_zero_cases. cbn [SFopp]. apply double_eqb_refl. reflexivity.
  - destruct y as [b| | |]; try discriminate Hy0.
    destruct (SFdiv_zero_by_positive sx s Hs) as [sz ->].
    destruct (SFdiv_zero_by_positive b s Hs) as [sz' ->].
    rewrite !plus_zero_cases. reflexivity.
Qed.

Lemma rel_tol_finite : exists m e, rel_tol = S754_finite false m e.
Proof. vm_compute. eauto. Qed.

(** Equal doubles pass the relative-tolerance test. *)
Lemma within_tol_of_eqb (x y : double) : double_eqb x y = true -> within_tol x y = true.
Proof.
  intros Heq. destruct (double_eqb_cases x y Heq) as [Hn [<-|[sx [sy [-> ->]]]]].
  - destruct x as [sx|sx| |sx m e]; try discriminate Hn.
    + destruct rel_tol_finite as [mt [et Ht]].
      unfold within_tol. rewrite Ht. destruct sx; reflexivity.
    + exact Heq.
    + destruct rel_tol_finite as [mt [et Ht]].
      unfold within_tol. rewrite Ht.
      assert (Hsub : SFsub prec64 emax64 (S754_finite sx m e) (S754_finite sx m e)
                     = S754_zero false).
      { cbn [SFsub]. rewrite Z.sub_diag. reflexivity. }
      rewrite Hsub. cbn [SFabs SFmul xorb].
      destruct (binary_round_aux_signed prec64 emax64 false (Zpos (mt * m)) (et + e)
                  loc_Exact) as [H|[[m' [e' H]]|H]]; [lia| | |]; rewrite H; reflexivity.
  - destruct rel_tol_finite as [mt [et Ht]].
    unfold within_tol. rewrite Ht. destruct sx, sy; reflexivity.
Qed.

Section SYK2_hamiltonian.

Variable T : Type.
Variable randomGen : Type.
Variable T_div : T -> double -> T.
Variable cast_I : T.
Variable T_times : T -> double -> T.
Variable T_plus : T -> T -> T.
Variable GOE : randomGen -> Z -> Z -> SYK2.Mat T * randomGen.
Variable init : SYK2.state T randomGen -> SYK2.state T randomGen.

Local Abbreviation hamiltonian :=
  (SYK2.hamiltonian T randomGen T_div cast_I T_times T_plus GOE init).
Local Abbreviation stored := (normalized T_div cast_I T_times T_plus).

(** On an [n] by [n] sample the right-hand side of the assignment is the
    claim's matrix. *)
Lemma rhs_normalized (G : SYK2.Mat T) (n : Z) :
  SYK2.has_dims G n n ->
  SYK2.rhs T T_div cast_I T_times T_plus G n = Ok (stored G n).
Proof.
  intros [Hr [Hc Hlen]]. unfold SYK2.rhs, SYK2.mat_plus, SYK2.mat_map, SYK2.zeros.
  cbn [SYK2.n_rows SYK2.n_cols SYK2.mem].
  rewrite Hr, Hc, !Z.eqb_refl. cbn [andb]. unfold normalized. f_equal. f_equal.
  rewrite map_repeat, <- Hlen.
  rewrite <- (length_map (fun x => T_div x (SYK2.sqrt_Nh n)) (SYK2.mem G)) at 1.
  rewrite map_combine_repeat by reflexivity.
  rewrite map_map. reflexivity.
Qed.

(** What one call does, in terms of the object that [init()] leaves. *)
Lemma hamiltonian_run (m : SYK2.state T randomGen) :
  let n := SYK2.Nh (init m) in
  let G := fst (GOE (SYK2.ran_ (init m)) n n) in
  let r' := snd (GOE (SYK2.ran_ (init m)) n n) in
  SYK2.has_dims G n n ->
  hamiltonian m
  = (Ok tt, SYK2.set_H_ (stored G n) (SYK2.set_ran_ r' (init m))).
Proof.
  intros n G r' Hdims.
  unfold SYK2.hamiltonian, bind, gets, modify, lift.
  fold n. destruct (GOE (SYK2.ran_ (init m)) n n) as [G0 r0] eqn:E.
  subst G r'. cbn [fst snd] in *.
  rewrite (rhs_normalized G0 n Hdims). reflexivity.
Qed.

(** Two objects that [init()] leaves alike, the lattice reference apart, go
    through [hamiltonian()] alike. *)
Lemma hamiltonian_same_run (x y : SYK2.state T randomGen) :
  same_but_lattice (init x) (init y) -> same_run hamiltonian x y.
Proof.
  intros (Ht & HNs & HNh & Hc & HH & Hr & Hi).
  unfold same_run, SYK2.hamiltonian, bind, gets, modify, lift.
  rewrite HNh, Hr.
  destruct (GOE (SYK2.ran_ (init y)) (SYK2.Nh (init y)) (SYK2.Nh (init y))) as [G r'].
  destruct (SYK2.rhs T T_div cast_I T_times T_plus G (SYK2.Nh (init y))) as [M|e];
    (split; [reflexivity|]);
    unfold same_but_lattice;
    cbn [snd SYK2.set_H_ SYK2.set_ran_ SYK2.type_ SYK2.Ns_ SYK2.Nh SYK2.constant_
         SYK2.H_ SYK2.ran_ SYK2.info_ SYK2.lat_];
    repeat split; assumption.
Qed.

(** C7: a call of [hamiltonian()] returns normally and leaves in [H_] the
    [Nh] by [Nh] matrix of the sample just drawn, each element divided by
    the square root of [Nh] (and added to [cast<_T>(I)] times zero), and the
    stream advanced past that sample.  The buffer before the call has no
    part in it: a second object that [init()] leaves with the same stream
    and dimension gets the same matrix, whatever its buffer held. *)
Theorem hamiltonian_overwrites_buffer (m m' : SYK2.state T randomGen) :
  let n := SYK2.Nh (init m) in
  let G := fst (GOE (SYK2.ran_ (init m)) n n) in
  SYK2.has_dims G n n ->
  SYK2.ran_ (init m') = SYK2.ran_ (init m) ->
  SYK2.Nh (init m') = SYK2.Nh (init m) ->
  fst (hamiltonian m) = Ok tt
  /\ SYK2.H_ (snd (hamiltonian m)) = normalized T_div cast_I T_times T_plus G n
  /\ SYK2.mem (SYK2.H_ (snd (hamiltonian m)))
     = map (fun g =>
              T_plus (T_div g (SFsqrt prec64 emax64 (double_of_int n)))
                     (T_times cast_I (double_of_int 0)))
         (SYK2.mem G)
  /\ SYK2.has_dims (SYK2.H_ (snd (hamiltonian m))) n n
  /\ SYK2.Nh (snd (hamiltonian m)) = n
  /\ SYK2.ran_ (snd (hamiltonian m)) = snd (GOE (SYK2.ran_ (init m)) n n)
  /\ fst (hamiltonian m') = Ok tt
  /\ SYK2.H_ (snd (hamiltonian m')) = SYK2.H_ (snd (hamiltonian m)).
Proof.
  intros n G Hdims Hran HNh.
  pose proof (hamiltonian_run m Hdims) as Hm.
  assert (Hdims' : SYK2.has_dims
            (fst (GOE (SYK2.ran_ (init m')) (SYK2.Nh (init m')) (SYK2.Nh (init m'))))
            (SYK2.Nh (init m')) (SYK2.Nh (init m')))
    by (rewrite Hran, HNh; exact Hdims).
  pose proof (hamiltonian_run m' Hdims') as Hm'.
  rewrite Hran, HNh in Hm'. fold n in Hm, Hm'. fold G in Hm, Hm'.
  rewrite Hm, Hm'. cbn [fst snd SYK2.H_ SYK2.ran_ SYK2.Nh SYK2.set_H_ SYK2.set_ran_].
  repeat split.
  destruct Hdims as [_ [_ Hlen]].
  unfold normalized. cbn [SYK2.mem]. rewrite length_map. exact Hlen.
Qed.

End SYK2_hamiltonian.

Lemma hamiltonian_overwrites_buffer_witness :
  let m := Demo.from_Ns 4 (double_of_int 0) in
  let m' := SYK2.set_H_ Demo.used_Mat m in
  let G := fst (Demo.GOE (SYK2.ran_ (Demo.init m)) 4 4) in
  let half_of_seven := SFdiv prec64 emax64 (double_of_int 7) (double_of_int 2) in
  SYK2.has_dims G 4 4
  /\ SYK2.mem G = repeat (double_of_int 7) 16
  /\ SYK2.H_ m' <> SYK2.H_ m
  /\ fst (Demo.hamiltonian m) = Ok tt
  /\ SYK2.H_ (snd (Demo.hamiltonian m)) = SYK2.mk_Mat 4 4 (repeat half_of_seven 16)
  /\ SYK2.H_ (snd (Demo.hamiltonian m')) = SYK2.mk_Mat 4 4 (repeat half_of_seven 16).
Proof.
  intros m m' G half_of_seven.
  assert (Hdims : SYK2.has_dims G 4 4) by (repeat split).
  assert (Hran : SYK2.ran_ (Demo.init m') = SYK2.ran_ (Demo.init m)) by reflexivity.
  assert (HNh : SYK2.Nh (Demo.init m') = SYK2.Nh (Demo.init m)) by reflexivity.
  assert (Hval : normalized Demo.T_div Demo.cast_I Demo.T_times Demo.T_plus G 4
                 = SYK2.mk_Mat 4 4 (repeat half_of_seven 16))
    by (vm_compute; reflexivity).
  pose proof (hamiltonian_overwrites_buffer double Z Demo.T_div Demo.cast_I
                Demo.T_times Demo.T_plus Demo.GOE Demo.init m m' Hdims Hran HNh)
    as [H1 [H2 [_ [_ [_ [_ [_ H6]]]]]]].
  split; [exact Hdims|]. split; [reflexivity|]. split; [discriminate|].
  split; [exact H1|].
  split; [exact (eq_trans H2 Hval) | exact (eq_trans H6 (eq_trans H2 Hval))].
Defined.

(** ** Symmetry of the stored matrix *)

(** An element-wise operation takes mirrored elements to mirrored
    elements. *)
Lemma mirrored_map {A B : Type} (R : A -> A -> Prop) (R' : B -> B -> Prop)
    (f : A -> B) (G : SYK2.Mat A) (n : Z) :
  SYK2.n_rows G = n ->
  mirrored R G n ->
  (forall x y, In x (SYK2.mem G) -> In y (SYK2.mem G) -> R x y -> R' (f x) (f y)) ->
  mirrored R' (SYK2.mk_Mat n n (map f (SYK2.mem G))) n.
Proof.
  intros Hr Hm Hf i j Hi Hj.
  destruct (Hm i j Hi Hj) as [x [y [Hx [Hy HR]]]].
  exists (f x), (f y). unfold entry in *.
  cbn [SYK2.mem SYK2.n_rows]. rewrite Hr in Hx, Hy.
  rewrite !nth_error_map, Hx, Hy.
  split; [reflexivity|]. split; [reflexivity|].
  apply Hf; [eapply nth_error_In; exact Hx | eapply nth_error_In; exact Hy | exact HR].
Qed.

(** Whatever the scalar type, and with equality for the relation: the
    matrix stored from a symmetric sample is symmetric. *)
Lemma normalized_symmetric {T : Type} (T_div : T -> double -> T) (cast_I : T)
    (T_times : T -> double -> T) (T_plus : T -> T -> T) (G : SYK2.Mat T) (n : Z) :
  SYK2.n_rows G = n ->
  mirrored eq G n ->
  mirrored eq (normalized T_div cast_I T_times T_plus G n) n.
Proof.
  intros Hr Hm. unfold normalized.
  apply (mirrored_map eq eq _ G n Hr Hm).
  intros x y _ _ ->. reflexivity.
Qed.

(** The element that the real instantiation stores, and the two parts of
    the element that the complex instantiation stores. *)
Lemma real_element (g s : double) :
  Demo.T_plus (Demo.T_div g s) (Demo.T_times Demo.cast_I (S754_zero false))
  = plus_zero (SFdiv prec64 emax64 g s).
Proof. reflexivity. Qed.

Lemma complex_element (z : Demo.complex) (s : double) :
  Demo.cx_plus (Demo.cx_div z s) (Demo.cx_times Demo.cx_cast_I (S754_zero false))
  = (plus_zero (SFdiv prec64 emax64 (fst z) s), plus_zero (SFdiv prec64 emax64 (snd z) s)).
Proof. reflexivity. Qed.

Lemma symmetric_pair_of_eqb (x y : double) : double_eqb x y = true -> symmetric_pair x y.
Proof. intros H. split; [exact H | apply within_tol_of_eqb; exact H]. Qed.

Lemma normalized_has_dims {T : Type} (T_div : T -> double -> T) (cast_I : T)
    (T_times : T -> double -> T) (T_plus : T -> T -> T) (G : SYK2.Mat T) (n : Z) :
  SYK2.has_dims G n n -> SYK2.has_dims (normalized T_div cast_I T_times T_plus G n) n n.
Proof.
  intros [_ [_ Hlen]]. unfold normalized, SYK2.has_dims.
  cbn [SYK2.n_rows SYK2.n_cols SYK2.mem]. rewrite length_map. auto.
Qed.

(** C8: the matrix that [hamiltonian()] leaves in [H_] is symmetric, for
    [_T = double], and Hermitian, for [_T = std::complex<double>], as it is
    stored and with nothing done to it afterwards: whatever the generator,
    the stream and [init()], when the sample drawn is a sample of the
    symmetric ensemble, the call returns and every two mirrored elements of
    [H_] satisfy [H(i, j) == H(j, i)], respectively
    [H(i, j) == conj(H(j, i))] on both parts, and pass the test of the
    relative tolerance [1e-9]. *)
Theorem hamiltonian_symmetric_by_construction :
  (forall (randomGen : Type)
          (GOE : randomGen -> Z -> Z -> SYK2.Mat double * randomGen)
          (init : SYK2.state double randomGen -> SYK2.state double randomGen)
          (m : SYK2.state double randomGen),
     let n := SYK2.Nh (init m) in
     let G := fst (GOE (SYK2.ran_ (init m)) n n) in
     let out := SYK2.hamiltonian double randomGen Demo.T_div Demo.cast_I Demo.T_times
                  Demo.T_plus GOE init m in
     GOE_sample_real G n ->
     fst out = Ok tt
     /\ SYK2.has_dims (SYK2.H_ (snd out)) n n
     /\ mirrored symmetric_pair (SYK2.H_ (snd out)) n)
  /\ (forall (randomGen : Type)
             (GOE : randomGen -> Z -> Z -> SYK2.Mat Demo.complex * randomGen)
             (init : SYK2.state Demo.complex randomGen -> SYK2.state Demo.complex randomGen)
             (m : SYK2.state Demo.complex randomGen),
        let n := SYK2.Nh (init m) in
        let G := fst (GOE (SYK2.ran_ (init m)) n n) in
        let out := SYK2.hamiltonian Demo.complex randomGen Demo.cx_div Demo.cx_cast_I
                     Demo.cx_times Demo.cx_plus GOE init m in
        GOE_sample_complex G n ->
        fst out = Ok tt
        /\ SYK2.has_dims (SYK2.H_ (snd out)) n n
        /\ mirrored hermitian_pair (SYK2.H_ (snd out)) n).
Proof.
  split.
  - intros randomGen GOE init m n G out [Hdims [Hfin Hsym]]. subst out.
    rewrite (hamiltonian_run double randomGen Demo.T_div Demo.cast_I Demo.T_times
               Demo.T_plus GOE init m Hdims).
    fold n. fold G. cbn [fst snd SYK2.H_ SYK2.set_H_].
    split; [reflexivity|]. split; [apply normalized_has_dims; exact Hdims|].
    destruct (Z_lt_le_dec n 1) as [Hn|Hn]; [intros i j Hi; lia|].
    pose proof (sqrt_Nh_positive n Hn) as Hs.
    unfold normalized.
    apply (mirrored_map (fun x y => double_eqb x y = true) symmetric_pair _ G n
             (proj1 Hdims) Hsym).
    intros x y Hx _ Heq. rewrite !real_element.
    apply symmetric_pair_of_eqb. apply real_entry_symmetric; [exact Hs| |exact Heq].
    rewrite Forall_forall in Hfin. apply Hfin. exact Hx.
  - intros randomGen GOE init m n G out [Hdims [Hfin Hsym]]. subst out.
    rewrite (hamiltonian_run Demo.complex randomGen Demo.cx_div Demo.cx_cast_I
               Demo.cx_times Demo.cx_plus GOE init m Hdims).
    fold n. fold G. cbn [fst snd SYK2.H_ SYK2.set_H_].
    split; [reflexivity|]. split; [apply normalized_has_dims; exact Hdims|].
    destruct (Z_lt_le_dec n 1) as [Hn|Hn]; [intros i j Hi; lia|].
    pose proof (sqrt_Nh_positive n Hn) as Hs.
    unfold normalized.
    apply (mirrored_map
             (fun z w => double_eqb (fst z) (fst (Demo.conj w)) = true
                         /\ double_eqb (snd z) (snd (Demo.conj w)) = true)
             hermitian_pair _ G n (proj1 Hdims) Hsym).
    intros z w Hz Hw [Hre Him]. rewrite !complex_element.
    rewrite Forall_forall in Hfin.
    destruct (Hfin z Hz) as [Hzre _]. destruct (Hfin w Hw) as [_ Hwim].
    unfold hermitian_pair, Demo.conj in *. cbn [fst snd] in *.
    split; apply symmetric_pair_of_eqb.
    + apply real_entry_symmetric; assumption.
    + apply imag_entry_hermitian; assumption.
Qed.

Lemma hamiltonian_symmetric_by_construction_witness :
  let m := Demo.from_Ns 2 (double_of_int 0) in
  let mc := Demo.from_Ns_cx 2 (double_of_int 0) in
  GOE_sample_real (fst (Demo.GOE (SYK2.ran_ (Demo.init m)) 2 2)) 2
  /\ mirrored symmetric_pair (SYK2.H_ (snd (Demo.hamiltonian m))) 2
  /\ GOE_sample_complex Demo.hermitian_sample 2
  /\ mirrored hermitian_pair
       (SYK2.H_ (snd (SYK2.hamiltonian Demo.complex Z Demo.cx_div Demo.cx_cast_I
                        Demo.cx_times Demo.cx_plus Demo.GOE_cx Demo.init_cx mc))) 2.
Proof.
  intros m mc.
  assert (Hcases : forall i, 0 <= i < 2 -> i = 0 \/ i = 1) by (intros i Hi; lia).
  assert (Hr : GOE_sample_real (fst (Demo.GOE (SYK2.ran_ (Demo.init m)) 2 2)) 2).
  { split; [repeat split|]. split; [repeat constructor|].
    intros i j Hi Hj.
    destruct (Hcases i Hi) as [-> | ->]; destruct (Hcases j Hj) as [-> | ->];
      vm_compute; eauto. }
  assert (Hc : GOE_sample_complex Demo.hermitian_sample 2).
  { split; [repeat split|]. split; [repeat constructor|].
    intros i j Hi Hj.
    destruct (Hcases i Hi) as [-> | ->]; destruct (Hcases j Hj) as [-> | ->];
      vm_compute; eauto 6. }
  split; [exact Hr|].
  split; [exact (proj2 (proj2 (proj1 hamiltonian_symmetric_by_construction
                                 Z Demo.GOE Demo.init m Hr)))|].
  split; [exact Hc|].
  exact (proj2 (proj2 (proj2 hamiltonian_symmetric_by_construction
                         Z Demo.GOE_cx Demo.init_cx mc Hc))).
Defined.

Section SYK2_constructors.

Variable T : Type.
Variable randomGen : Type.
Variable H_0 : SYK2.Mat T.
Variable ran_0 : randomGen.
Variable type_0 : MY_MODELS.
Variable info_0 : string.
Variable T_div : T -> double -> T.
Variable cast_I : T.
Variable T_times : T -> double -> T.
Variable T_plus : T -> T -> T.
Variable GOE : randomGen -> Z -> Z -> SYK2.Mat T * randomGen.
Variable init : SYK2.state T randomGen -> SYK2.state T randomGen.

Local Abbreviation from_lattice := (SYK2.from_lattice T randomGen H_0 ran_0 type_0 info_0).
Local Abbreviation from_Ns := (SYK2.from_Ns T randomGen H_0 ran_0 type_0 info_0).
Local Abbreviation from_hilbert := (SYK2.from_hilbert T randomGen H_0 ran_0 type_0 info_0).
Local Abbreviation from_hilbert_move :=
  (SYK2.from_hilbert_move T randomGen H_0 ran_0 type_0 info_0).
Local Abbreviation hamiltonian :=
  (SYK2.hamiltonian T randomGen T_div cast_I T_times T_plus GOE init).

(** The constructor body overwrites the type tag and caches [info()]. *)
Lemma constructor_body_fields (b : SYK2.state T randomGen) :
  let m := SYK2.constructor_body b in
  SYK2.type_ m = SYK2_M /\ SYK2.info_ m = SYK2.info_default m
  /\ SYK2.Ns_ m = SYK2.Ns_ b /\ SYK2.Nh m = SYK2.Nh b /\ SYK2.lat_ m = SYK2.lat_ b.
Proof. repeat split. Qed.

(** [info()] depends on the object through [Ns_] and the boundary condition
    that it reads: the lattice's, or [PBC] without a lattice. *)
Lemma info_congruence (a b : SYK2.state T randomGen)
    (skip : list string) (sep : string) (prec : Z) :
  SYK2.Ns_ a = SYK2.Ns_ b ->
  match SYK2.lat_ a with Some l => SYK2.get_BC l | None => SYK2.PBC end
  = match SYK2.lat_ b with Some l => SYK2.get_BC l | None => SYK2.PBC end ->
  SYK2.info a skip sep prec = SYK2.info b skip sep prec.
Proof.
  intros HNs HBC. unfold SYK2.info. rewrite HNs, HBC. reflexivity.
Qed.

(** C9, as the code has it: for a lattice, a site count and a Hilbert-space
    descriptor of the same number of sites, whatever the dimension of the
    descriptor, the four constructors set the type tag [SYK2_M] and the same
    [Ns] and [Nh]; when moreover every lattice involved has periodic
    boundary conditions, they cache the same info string, [info()] returns
    the same string on all of them, and [hamiltonian()] behaves identically
    on all of them: the calls end the same way and leave the same members,
    the lattice reference apart, provided that [init()] does not look at
    the lattice reference. *)
Theorem constructors_agree_on_periodic_lattice
    (_lat : SYK2.Lattice) (_Ns : Z) (_hil : SYK2.HilbertSpace) (_constant : double) :
  SYK2.get_Ns _lat = _Ns ->
  SYK2.hil_Ns _hil = _Ns ->
  SYK2.get_BC _lat = SYK2.PBC ->
  match SYK2.hil_lat _hil with Some l => SYK2.get_BC l | None => SYK2.PBC end = SYK2.PBC ->
  let a := from_lattice _lat _constant in
  let b := from_Ns _Ns _constant in
  let c := from_hilbert _hil _constant in
  let d := from_hilbert_move _hil _constant in
  SYK2.type_ b = SYK2_M
  /\ SYK2.same_derived_fields a b
  /\ SYK2.same_derived_fields b c
  /\ SYK2.same_derived_fields c d
  /\ (forall skip sep prec,
        SYK2.info a skip sep prec = SYK2.info b skip sep prec
        /\ SYK2.info b skip sep prec = SYK2.info c skip sep prec
        /\ SYK2.info c skip sep prec = SYK2.info d skip sep prec)
  /\ ((forall x y, same_but_lattice x y -> same_but_lattice (init x) (init y)) ->
      same_run hamiltonian a b /\ same_run hamiltonian b c /\ same_run hamiltonian c d).
Proof.
  intros HNs HhNs HBC HhBC a b c d.
  assert (Hab : forall skip sep prec,
             SYK2.info a skip sep prec = SYK2.info b skip sep prec).
  { intros. apply info_congruence; cbn; [exact HNs | exact HBC]. }
  assert (Hbc : forall skip sep prec,
             SYK2.info b skip sep prec = SYK2.info c skip sep prec).
  { intros. apply info_congruence; cbn; [symmetry; exact HhNs | symmetry; exact HhBC]. }
  assert (Dab : SYK2.same_derived_fields a b).
  { unfold SYK2.same_derived_fields. cbn [a b from_lattice from_Ns].
    repeat split; cbn; try assumption.
    exact (Hab [] "_"%string 2). }
  assert (Dbc : SYK2.same_derived_fields b c).
  { unfold SYK2.same_derived_fields.
    repeat split; cbn; try (symmetry; assumption).
    exact (Hbc [] "_"%string 2). }
  split; [reflexivity|].
  split; [exact Dab|]. split; [exact Dbc|]. split; [repeat split|].
  split.
  - intros skip sep prec. split; [apply Hab|]. split; [apply Hbc | reflexivity].
  - intros Hinit.
    destruct Dab as (Ht1 & HNs1 & HNh1 & Hi1). destruct Dbc as (Ht2 & HNs2 & HNh2 & Hi2).
    split; [|split]; apply hamiltonian_same_run; apply Hinit;
      unfold same_but_lattice; repeat split; try assumption; reflexivity.
Qed.

Lemma string_app_cancel_l (s a b : string) :
  (s ++ a)%string = (s ++ b)%string -> a = b.
Proof.
  induction s as [|ch s IH]; simpl; intros H; [exact H|].
  injection H as H. apply IH. exact H.
Qed.

(** Off periodic boundary conditions the lattice path and the lattice-free
    path never cache the same string. *)
Lemma info_differs_off_periodic (_lat : SYK2.Lattice) (_constant : double) :
  SYK2.get_BC _lat <> SYK2.PBC ->
  SYK2.info_ (from_lattice _lat _constant)
  <> SYK2.info_ (from_Ns (SYK2.get_Ns _lat) _constant).
Proof.
  intros HBC Heq. cbn in Heq.
  injection Heq as Heq. apply string_app_cancel_l in Heq.
  destruct (SYK2.get_BC _lat); [congruence | discriminate..].
Qed.

End SYK2_constructors.

(** A ring of four sites, the site count four, and a descriptor of the full
    many-body space over the ring, of dimension [2^4]. *)
Lemma constructors_agree_on_periodic_lattice_witness :
  let c0 := double_of_int 0 in
  let full := SYK2.mk_HilbertSpace (Some Demo.ring) 4 16 in
  SYK2.same_derived_fields (Demo.from_lattice Demo.ring c0) (Demo.from_Ns 4 c0)
  /\ SYK2.same_derived_fields (Demo.from_Ns 4 c0) (Demo.from_hilbert full c0)
  /\ SYK2.info_ (Demo.from_Ns 4 c0) = "_SYK2,Ns=4,BC=PBC"%string
  /\ same_run Demo.hamiltonian (Demo.from_lattice Demo.ring c0) (Demo.from_Ns 4 c0)
  /\ same_run Demo.hamiltonian (Demo.from_Ns 4 c0) (Demo.from_hilbert full c0).
Proof.
  intros c0 full.
  assert (Hinit : forall x y : SYK2.state double Z,
             same_but_lattice x y -> same_but_lattice (Demo.init x) (Demo.init y)).
  { intros x y (Ht & HNs & HNh & Hc & HH & Hr & Hi).
    unfold same_but_lattice, Demo.init.
    cbn [SYK2.set_H_ SYK2.type_ SYK2.Ns_ SYK2.Nh SYK2.constant_ SYK2.H_ SYK2.ran_
         SYK2.info_].
    rewrite HNh. repeat split; assumption. }
  pose proof (constructors_agree_on_periodic_lattice double Z Demo.empty_Mat 7 ISING_M
                EmptyString Demo.T_div Demo.cast_I Demo.T_times Demo.T_plus Demo.GOE
                Demo.init Demo.ring 4 full c0
                eq_refl eq_refl eq_refl eq_refl) as [_ [Hab [Hbc [_ [_ Hrun]]]]].
  destruct (Hrun Hinit) as [Rab [Rbc _]].
  split; [exact Hab|]. split; [exact Hbc|]. split; [reflexivity|].
  split; [exact Rab | exact Rbc].
Defined.

(** C9 as stated fails: a lattice of four sites with open boundary
    conditions and the raw site count four give different cached info
    strings, [BC=OBC] against [BC=PBC]. *)
Lemma constructors_differ_on_open_lattice :
  SYK2.get_Ns Demo.open_chain = 4
  /\ SYK2.info_ (Demo.from_lattice Demo.open_chain (double_of_int 0))
     = "_SYK2,Ns=4,BC=OBC"%string
  /\ SYK2.info_ (Demo.from_Ns 4 (double_of_int 0)) = "_SYK2,Ns=4,BC=PBC"%string
  /\ ~ SYK2.same_derived_fields
         (Demo.from_lattice Demo.open_chain (double_of_int 0))
         (Demo.from_Ns 4 (double_of_int 0)).
Proof.
  split; [reflexivity|]. split; [reflexivity|]. split; [reflexivity|].
  intros [_ [_ [_ Hinfo]]]. vm_compute in Hinfo. discriminate.
Qed.

(** * Further properties of the three headers *)

(** ** [GlobalSym] and [U1Sym] *)

(** Equality of doubles as [==] decides it: the two are zeros, or
    infinities of one sign, or finite with the same sign, mantissa and
    exponent. *)
Lemma double_eqb_finite (s1 s2 : bool) (m1 m2 : positive) (e1 e2 : Z) :
  double_eqb (S754_finite s1 m1 e1) (S754_finite s2 m2 e2) = true ->
  s1 = s2 /\ m1 = m2 /\ e1 = e2.
Proof.
  unfold double_eqb, SFeqb, SFcompare.
  rewrite Pos.compare_cont_spec. cbn [Pos.switch_Eq].
  destruct s1, s2; try discriminate;
    destruct (Z.compare_spec e1 e2) as [He|He|He]; try discriminate;
    destruct (Pos.compare_spec m1 m2) as [Hm|Hm|Hm]; try discriminate;
    intros _; subst; auto.
Qed.

Lemma double_eqb_refl_finite (s : bool) (m : positive) (e : Z) :
  double_eqb (S754_finite s m e) (S754_finite s m e) = true.
Proof.
  unfold double_eqb, SFeqb, SFcompare.
  rewrite Z.compare_refl, Pos.compare_cont_refl. destruct s; reflexivity.
Qed.

(** Two doubles equal to a third are equal to each other. *)
Lemma double_eqb_common (a b v : double) :
  double_eqb a v = true -> double_eqb b v = true -> double_eqb a b = true.
Proof.
  destruct a as [sa|sa| |sa ma ea], b as [sb|sb| |sb mb eb], v as [sv|sv| |sv mv ev];
    intros Ha Hb; try discriminate; try reflexivity;
    try (destruct sa; discriminate); try (destruct sb; discriminate);
    try (destruct sv; discriminate).
  - destruct sa, sb, sv; try discriminate; reflexivity.
  - apply double_eqb_finite in Ha, Hb.
    destruct Ha as [-> [-> ->]], Hb as [-> [-> ->]].
    apply double_eqb_refl_finite.
Qed.

(** The doubles of the counts are zero or positive and finite. *)
Lemma double_of_int_small_shape :
  forallb (fun p =>
    match double_of_int p with
    | S754_zero false | S754_finite false _ _ => true
    | _ => false
    end) small_ints = true.
Proof. vm_compute. reflexivity. Qed.

Lemma double_of_int_count_shape (p : Z) :
  0 <= p <= 64 ->
  double_of_int p = S754_zero false
  \/ exists m e, double_of_int p = S754_finite false m e.
Proof.
  intros Hp. pose proof double_of_int_small_shape as Htab.
  rewrite forallb_forall in Htab. specialize (Htab p (small_ints_In p Hp)).
  destruct (double_of_int p) as [[|]|[|]| |[|] m e] eqn:E; try discriminate Htab.
  - left. reflexivity.
  - right. exists m, e. reflexivity.
Qed.

(** A zero or a positive finite double is not [==] to a NaN, an infinity
    or a negative finite double. *)
Lemma double_eqb_count_rejects (x v : double) :
  (x = S754_zero false \/ exists m e, x = S754_finite false m e) ->
  match v with
  | S754_nan | S754_infinity _ | S754_finite true _ _ => double_eqb x v = false
  | _ => True
  end.
Proof.
  intros [->|[m [e ->]]]; destruct v as [sv|[|]| |[|] mv ev]; try exact I; reflexivity.
Qed.

Lemma U1Sym_eq (s : Z) (v : double) :
  GlobalSyms.U1Sym s v = double_eqb (double_of_int (popcount s)) v.
Proof. reflexivity. Qed.

(** Two counts whose doubles are [==] to one double are the same count. *)
Lemma double_eqb_common_counts (p q : Z) (v : double) :
  0 <= p <= 64 -> 0 <= q <= 64 ->
  double_eqb (double_of_int p) v = true ->
  double_eqb (double_of_int q) v = true -> p = q.
Proof.
  intros Hp Hq Hpv Hqv.
  pose proof (double_eqb_common _ _ _ Hpv Hqv) as H.
  rewrite double_of_int_eqb_small in H by assumption.
  apply Z.eqb_eq. exact H.
Qed.

(** X1: whatever the target, a double of any kind, the states that [U1Sym]
    accepts all have the same number of bits set; and no state is accepted
    for a target that is NaN, infinite or negative. *)
Theorem U1Sym_one_count_per_target (v : double) :
  (forall s s', GlobalSyms.U1Sym s v = true -> GlobalSyms.U1Sym s' v = true ->
                popcount s = popcount s')
  /\ (match v with
      | S754_nan | S754_infinity _ | S754_finite true _ _ =>
          forall s, GlobalSyms.U1Sym s v = false
      | _ => True
      end).
Proof.
  split.
  - intros s s' Hs Hs'. rewrite U1Sym_eq in Hs, Hs'.
    generalize (popcount_bounds s) (popcount_bounds s'). revert Hs Hs'.
    generalize (popcount s) (popcount s'). intros p q Hp Hq Hbp Hbq.
    exact (double_eqb_common_counts p q v Hbp Hbq Hp Hq).
  - assert (Hrej : forall s, match v with
                             | S754_nan | S754_infinity _ | S754_finite true _ _ =>
                                 GlobalSyms.U1Sym s v = false
                             | _ => True
                             end).
    { intros s.
      pose proof (double_eqb_count_rejects (double_of_int (popcount s)) v
                    (double_of_int_count_shape _ (popcount_bounds s))) as H.
      destruct v as [sv|sv| |[|] mv ev]; try exact I; rewrite U1Sym_eq; exact H. }
    destruct v as [sv|sv| |[|] mv ev]; try exact I; exact Hrej.
Qed.

(** X2: on [Ns] sites no state is accepted for an integer target above
    [Ns]. *)
Theorem U1Sym_rejects_target_above_sites (Ns : nat) (s k : Z) :
  (Ns <= 64)%nat -> 0 <= s < 2 ^ Z.of_nat Ns -> Z.of_nat Ns < k <= 64 ->
  GlobalSyms.U1Sym s (double_of_int k) = false.
Proof.
  intros HNs Hs Hk. rewrite U1Sym_popcount by lia.
  apply Z.eqb_neq. pose proof (popcount_le_sites Ns s HNs Hs). lia.
Qed.

Lemma U1Sym_rejects_target_above_sites_witness :
  (4 <= 64)%nat /\ 0 <= 15 < 2 ^ Z.of_nat 4 /\ Z.of_nat 4 < 5 <= 64
  /\ GlobalSyms.U1Sym 15 (double_of_int 5) = false.
Proof.
  assert (H1 : (4 <= 64)%nat) by lia.
  assert (H2 : 0 <= 15 < 2 ^ Z.of_nat 4) by (simpl; lia).
  assert (H3 : Z.of_nat 4 < 5 <= 64) by (simpl; lia).
  split; [exact H1|]. split; [exact H2|]. split; [exact H3|].
  exact (U1Sym_rejects_target_above_sites 4 15 5 H1 H2 H3).
Defined.

Lemma popcount_upto_zero (n : nat) (x : Z) :
  popcount_upto n x = 0 ->
  forall i, 0 <= i < Z.of_nat n -> Z.testbit x i = false.
Proof.
  induction n as [|n IH]; intros H i Hi; [lia|].
  simpl popcount_upto in H.
  pose proof (popcount_upto_bounds n x) as Hb.
  destruct (Z.testbit x (Z.of_nat n)) eqn:E; simpl Z.b2z in H; [lia|].
  destruct (Z.eq_dec i (Z.of_nat n)) as [->|Hne]; [exact E|].
  apply IH; lia.
Qed.

Lemma popcount_eq (x : Z) : popcount x = popcount_upto u64_bits x.
Proof. reflexivity. Qed.

Lemma is_u64_bits (s : Z) : is_u64 s -> 0 <= s < 2 ^ Z.of_nat 64.
Proof. intros H. exact H. Qed.

(** Only the state [0] has no bit set. *)
Lemma popcount_zero_iff (s : Z) : is_u64 s -> (popcount s = 0 <-> s = 0).
Proof.
  intros Hs. apply is_u64_bits in Hs. split.
  - intros H. rewrite popcount_eq in H.
    apply Z.bits_inj'. intros i Hi. rewrite Z.bits_0.
    destruct (Z.lt_ge_cases i 64) as [Hlt|Hge].
    + apply (popcount_upto_zero u64_bits s H). change (Z.of_nat u64_bits) with 64. lia.
    + apply (testbit_above 64 s i); [exact Hs | exact Hge].
  - intros ->. apply popcount_0.
Qed.

(** X3: a generator that holds [U1Sym] and whose target was never set (it
    is the [0] of the constructor) accepts the state [0] and no other
    state. *)
Theorem U1_generator_default_target {Lattice : Type} (_lat : Lattice)
    (_name : GlobalSyms.GlobalSymGenerators) (state : Z) :
  is_u64 state ->
  GlobalSyms.call (GlobalSyms.setFun (Some GlobalSyms.U1Sym) (GlobalSyms.new _lat _name))
    state = Ok (state =? 0).
Proof.
  intros Hs. unfold GlobalSyms.call, GlobalSyms.setFun, GlobalSyms.new.
  cbn [GlobalSyms.check_ GlobalSyms.val_ GlobalSyms.invoke]. f_equal.
  rewrite U1Sym_popcount by lia.
  destruct (Z.eqb_spec state 0) as [->|Hne].
  - rewrite popcount_0. reflexivity.
  - apply Z.eqb_neq. intros H. apply Hne. apply popcount_zero_iff; assumption.
Qed.

Lemma U1_generator_default_target_witness :
  is_u64 6
  /\ GlobalSyms.call
       (GlobalSyms.setFun (Some GlobalSyms.U1Sym) (GlobalSyms.new tt GlobalSyms.U1)) 6
     = Ok false.
Proof.
  assert (H : is_u64 6) by (unfold is_u64, u64_modulus; lia).
  split; [exact H|].
  exact (U1_generator_default_target tt GlobalSyms.U1 6 H).
Defined.

(** X4: with [U1Sym] installed and the target assigned an integer [k] of
    [0..64], in either order, [operator()] tells whether the state has
    exactly [k] bits set. *)
Theorem U1_generator_counts_bits {Lattice : Type}
    (g : GlobalSyms.GlobalSym Lattice) (k state : Z) :
  0 <= k <= 64 ->
  GlobalSyms.call
    (GlobalSyms.setFun (Some GlobalSyms.U1Sym) (GlobalSyms.setVal (double_of_int k) g))
    state = Ok (popcount state =? k)
  /\ GlobalSyms.call
       (GlobalSyms.setVal (double_of_int k) (GlobalSyms.setFun (Some GlobalSyms.U1Sym) g))
       state = Ok (popcount state =? k).
Proof.
  intros Hk. unfold GlobalSyms.call, GlobalSyms.setFun, GlobalSyms.setVal.
  cbn [GlobalSyms.check_ GlobalSyms.val_ GlobalSyms.invoke].
  rewrite U1Sym_popcount by exact Hk. split; reflexivity.
Qed.

Lemma U1_generator_counts_bits_witness :
  0 <= 2 <= 64
  /\ GlobalSyms.call
       (GlobalSyms.setFun (Some GlobalSyms.U1Sym)
          (GlobalSyms.setVal (double_of_int 2) (GlobalSyms.new tt GlobalSyms.OTHER)))
       5 = Ok (popcount 5 =? 2).
Proof.
  assert (H : 0 <= 2 <= 64) by lia.
  split; [exact H|].
  exact (proj1 (U1_generator_counts_bits (GlobalSyms.new tt GlobalSyms.OTHER) 2 5 H)).
Defined.

(** The bits of [2^n - 1 - s] below [n] are those of [s] flipped, and the
    bits from [n] on are clear. *)
Lemma testbit_complement (n : nat) (s i : Z) :
  0 <= s < 2 ^ Z.of_nat n -> 0 <= i ->
  Z.testbit (2 ^ Z.of_nat n - 1 - s) i = (i <? Z.of_nat n) && negb (Z.testbit s i).
Proof.
  intros Hs Hi.
  assert (Hones : 2 ^ Z.of_nat n - 1 = Z.ones (Z.of_nat n))
    by (rewrite Z.ones_equiv; lia).
  rewrite Hones.
  assert (Hld : Z.ldiff s (Z.ones (Z.of_nat n)) = 0).
  { apply Z.bits_inj'. intros j Hj. rewrite Z.ldiff_spec, Z.bits_0.
    destruct (Z.lt_ge_cases j (Z.of_nat n)) as [Hlt|Hge].
    - rewrite Z.ones_spec_low by lia. apply andb_false_r.
    - rewrite (testbit_above n s j Hs Hge). reflexivity. }
  rewrite (Z.sub_nocarry_ldiff _ _ Hld), Z.ldiff_spec.
  destruct (Z.ltb_spec i (Z.of_nat n)) as [Hlt|Hge].
  - rewrite Z.ones_spec_low by lia. reflexivity.
  - rewrite Z.ones_spec_high by lia. reflexivity.
Qed.

Lemma popcount_upto_complement (n m : nat) (s : Z) :
  0 <= s < 2 ^ Z.of_nat n ->
  popcount_upto m (2 ^ Z.of_nat n - 1 - s) + popcount_upto m s
  = Z.of_nat (Nat.min m n).
Proof.
  intros Hs. induction m as [|m IH]; [reflexivity|].
  simpl popcount_upto. rewrite testbit_complement by lia.
  destruct (Z.ltb_spec (Z.of_nat m) (Z.of_nat n)) as [Hlt|Hge].
  - replace (Nat.min (S m) n) with (S (Nat.min m n)) by lia.
    destruct (Z.testbit s (Z.of_nat m)); cbn [andb negb Z.b2z]; lia.
  - rewrite (testbit_above n s (Z.of_nat m) Hs Hge).
    replace (Nat.min (S m) n) with (Nat.min m n) by lia.
    cbn [andb Z.b2z]. lia.
Qed.

(** X18: flipping the [Ns] bits of a state turns [k] set bits into
    [Ns - k]: [U1Sym] accepts the flipped state [2^Ns - 1 - s] for the
    target [Ns - k] exactly when it accepts [s] for the target [k]. *)
Theorem U1Sym_particle_hole (Ns : nat) (s k : Z) :
  (Ns <= 64)%nat -> 0 <= s < 2 ^ Z.of_nat Ns -> 0 <= k <= Z.of_nat Ns ->
  GlobalSyms.U1Sym (2 ^ Z.of_nat Ns - 1 - s) (double_of_int (Z.of_nat Ns - k))
  = GlobalSyms.U1Sym s (double_of_int k).
Proof.
  intros HNs Hs Hk. rewrite !U1Sym_popcount by lia.
  pose proof (popcount_upto_complement Ns u64_bits s Hs) as H.
  rewrite <- (popcount_eq s), <- (popcount_eq (2 ^ Z.of_nat Ns - 1 - s)) in H.
  replace (Nat.min u64_bits Ns) with Ns in H by (unfold u64_bits; lia).
  destruct (Z.eqb_spec (popcount (2 ^ Z.of_nat Ns - 1 - s)) (Z.of_nat Ns - k));
    destruct (Z.eqb_spec (popcount s) k); lia.
Qed.

Lemma U1Sym_particle_hole_witness :
  (4 <= 64)%nat /\ 0 <= 5 < 2 ^ Z.of_nat 4 /\ 0 <= 2 <= Z.of_nat 4
  /\ GlobalSyms.U1Sym (2 ^ Z.of_nat 4 - 1 - 5) (double_of_int (Z.of_nat 4 - 2))
     = GlobalSyms.U1Sym 5 (double_of_int 2).
Proof.
  assert (H1 : (4 <= 64)%nat) by lia.
  assert (H2 : 0 <= 5 < 2 ^ Z.of_nat 4) by (simpl; lia).
  assert (H3 : 0 <= 2 <= Z.of_nat 4) by (simpl; lia).
  split; [exact H1|]. split; [exact H2|]. split; [exact H3|].
  exact (U1Sym_particle_hole 4 5 2 H1 H2 H3).
Defined.

Lemma forallb_Permutation {A : Type} (f : A -> bool) (l l' : list A) :
  Permutation l l' -> forallb f l = forallb f l'.
Proof.
  induction 1 as [|x l l' _ IH|x y l|l l' l'' _ IH1 _ IH2]; simpl.
  - reflexivity.
  - now rewrite IH.
  - destruct (f x), (f y); reflexivity.
  - now rewrite IH1.
Qed.

Lemma check_chain_closed_form {Lattice : Type}
    (gs : list (GlobalSyms.GlobalSym Lattice)) (state : Z) (outCond : bool) :
  check_chain gs state outCond
  = if forallb has_predicate gs
    then Ok (forallb (fun g => accepts g state) gs && outCond)
    else Throw bad_function_call.
Proof.
  revert outCond. induction gs as [|g gs IH]; intros outCond; [reflexivity|].
  cbn [check_chain forallb]. unfold GlobalSyms.check, GlobalSyms.invoke.
  unfold has_predicate at 1. unfold accepts at 1.
  destruct (GlobalSyms.check_ g) as [p|]; [|reflexivity].
  rewrite IH. cbn [andb].
  destruct (forallb has_predicate gs); [|reflexivity].
  f_equal.
  destruct (p state (GlobalSyms.val_ g)), (forallb (fun g0 => accepts g0 state) gs), outCond;
    reflexivity.
Qed.

(** X5: chaining [check] through a list of generators gives the
    conjunction of their predicates and the first outer condition when all
    of them hold a predicate, and throws [std::bad_function_call] when one
    of them holds none, even if the condition is already [false]; the
    order of the generators in the chain does not matter. *)
Theorem check_chain_conjunction {Lattice : Type}
    (gs : list (GlobalSyms.GlobalSym Lattice)) (state : Z) (outCond : bool) :
  check_chain gs state outCond
  = (if forallb has_predicate gs
     then Ok (forallb (fun g => accepts g state) gs && outCond)
     else Throw bad_function_call)
  /\ (forall gs', Permutation gs gs' ->
        check_chain gs' state outCond = check_chain gs state outCond).
Proof.
  split; [apply check_chain_closed_form|].
  intros gs' Hperm. rewrite !check_chain_closed_form.
  rewrite (forallb_Permutation has_predicate gs gs' Hperm).
  rewrite (forallb_Permutation (fun g => accepts g state) gs gs' Hperm).
  reflexivity.
Qed.

(** ** The resize operations of [ModP] *)

(** Resizing to the present size changes nothing. *)
Lemma resized_same {T : Type} (zero : T) (v : list T) :
  resized zero v (UI_PARAMS.size v) = v.
Proof.
  unfold resized, UI_PARAMS.size. rewrite Nat2Z.id, firstn_all, Nat.sub_diag.
  apply app_nil_r.
Qed.

Lemma resized_zero {T : Type} (zero : T) (v : list T) : resized zero v 0 = [].
Proof. reflexivity. Qed.

Lemma resized_twice {T : Type} (zero : T) (v : list T) (n : Z) :
  0 <= n -> resized zero (resized zero v n) n = resized zero v n.
Proof.
  intros Hn. rewrite <- (resized_size zero v n) at 2 by exact Hn.
  apply resized_same.
Qed.

(** A vector that already has [n] elements does not grow. *)
Lemma resized_no_growth {T : Type} (zero : T) (v : list T) (n : Z) :
  0 <= n -> (UI_PARAMS.size (resized zero v n) <? n) = false.
Proof. intros Hn. rewrite resized_size by exact Hn. apply Z.ltb_irrefl. Qed.

(** The elements after a resize: those below the old size are kept, the
    new ones are value-initialised. *)
Lemma resized_nth {T : Type} (zero : T) (v : list T) (n : Z) (i : nat) :
  (i < Z.to_nat n)%nat ->
  nth_error (resized zero v n) i
  = if (i <? List.length v)%nat then nth_error v i else Some zero.
Proof.
  intros Hi. unfold resized.
  destruct (Nat.ltb_spec i (List.length v)) as [Hlt|Hge].
  - rewrite nth_error_app1 by (rewrite length_firstn; lia).
    rewrite nth_error_firstn.
    replace (i <? Z.to_nat n)%nat with true by (symmetry; apply Nat.ltb_lt; exact Hi).
    reflexivity.
  - rewrite nth_error_app2 by (rewrite length_firstn; lia).
    rewrite length_firstn.
    replace (Nat.min (Z.to_nat n) (List.length v)) with (List.length v) by lia.
    apply nth_error_repeat. lia.
Qed.

Lemma size_t_sub_no_wrap (a b : Z) :
  is_u64 a -> is_u64 b -> b <= a -> size_t_sub a b = a - b.
Proof.
  unfold is_u64, size_t_sub, u64_modulus. intros Ha Hb Hle.
  apply Z.mod_small. lia.
Qed.

Lemma size_t_sub_range (a b : Z) : 0 <= size_t_sub a b < u64_modulus.
Proof. unfold size_t_sub, u64_modulus. apply Z.mod_pos_bound. lia. Qed.

(** The object that a [resizeQSM] leaves when every [resize] returns. *)
Lemma resizeQSM_done (q : UI_PARAMS.qsm_t) (n : Z) :
  UI_PARAMS.set_qsm_h_ (resized UI_PARAMS.d0 (UI_PARAMS.qsm_h_ q) n)
    (UI_PARAMS.set_qsm_h_r_ UI_PARAMS.d0
       (UI_PARAMS.set_qsm_xi_ (resized UI_PARAMS.d0 (UI_PARAMS.qsm_xi_ q) n)
          (UI_PARAMS.set_qsm_xi_r_ UI_PARAMS.d0
             (UI_PARAMS.set_qsm_alpha_ (resized UI_PARAMS.d0 (UI_PARAMS.qsm_alpha_ q) n)
                (UI_PARAMS.set_qsm_alpha_r_ UI_PARAMS.d0 q)))))
  = UI_PARAMS.mk_qsm_t (UI_PARAMS.qsm_N_ q) (UI_PARAMS.qsm_Ntot_ q)
      (UI_PARAMS.qsm_gamma_ q) (UI_PARAMS.qsm_g0_ q)
      (resized UI_PARAMS.d0 (UI_PARAMS.qsm_alpha_ q) n) UI_PARAMS.d0
      (resized UI_PARAMS.d0 (UI_PARAMS.qsm_xi_ q) n) UI_PARAMS.d0
      (resized UI_PARAMS.d0 (UI_PARAMS.qsm_h_ q) n) UI_PARAMS.d0.
Proof. destruct q. reflexivity. Qed.

(** [resizeQSM] when no allocation is refused: it throws at the first array
    when [n] exceeds [max_size()], and otherwise resizes the three arrays to
    [n] and zeroes the three [_r_] members. *)
Lemma resizeQSM_granted (max_size : Z) (grants : UI_PARAMS.allocator UI_PARAMS.qsm_t)
    (q : UI_PARAMS.qsm_t) :
  (forall s, grants s (size_t_sub (UI_PARAMS.qsm_Ntot_ q) (UI_PARAMS.qsm_N_ q)) = true) ->
  UI_PARAMS.resizeQSM max_size grants q
  = let n := size_t_sub (UI_PARAMS.qsm_Ntot_ q) (UI_PARAMS.qsm_N_ q) in
    if max_size <? n
    then (Throw length_error, UI_PARAMS.set_qsm_alpha_r_ UI_PARAMS.d0 q)
    else (Ok tt,
          UI_PARAMS.mk_qsm_t (UI_PARAMS.qsm_N_ q) (UI_PARAMS.qsm_Ntot_ q)
            (UI_PARAMS.qsm_gamma_ q) (UI_PARAMS.qsm_g0_ q)
            (resized UI_PARAMS.d0 (UI_PARAMS.qsm_alpha_ q) n) UI_PARAMS.d0
            (resized UI_PARAMS.d0 (UI_PARAMS.qsm_xi_ q) n) UI_PARAMS.d0
            (resized UI_PARAMS.d0 (UI_PARAMS.qsm_h_ q) n) UI_PARAMS.d0).
Proof.
  intros Hg. rewrite resizeQSM_run. cbv zeta.
  rewrite !Hg. cbn [negb]. rewrite !Bool.andb_false_r.
  rewrite resizeQSM_done. reflexivity.
Qed.

(** X6: when the total is at least the sub-population count and the
    difference [n] does not exceed [max_size()], [resizeQSM] returns
    normally or throws [std::bad_alloc], and it returns whenever the
    allocator grants requests of [n] elements.  When it returns, each of
    [qsm_alpha_], [qsm_xi_], [qsm_h_] has exactly [n] elements, the old
    elements below [n] kept and the new ones [0.0].  However the call ends,
    the counts and the two scalar couplings are untouched. *)
Theorem resizeQSM_resizes_arrays (max_size : Z)
    (grants : UI_PARAMS.allocator UI_PARAMS.qsm_t) (q : UI_PARAMS.qsm_t) :
  is_u64 (UI_PARAMS.qsm_N_ q) -> is_u64 (UI_PARAMS.qsm_Ntot_ q) ->
  UI_PARAMS.qsm_N_ q <= UI_PARAMS.qsm_Ntot_ q ->
  UI_PARAMS.qsm_Ntot_ q - UI_PARAMS.qsm_N_ q <= max_size ->
  let n := UI_PARAMS.qsm_Ntot_ q - UI_PARAMS.qsm_N_ q in
  let r := UI_PARAMS.resizeQSM max_size grants q in
  let q' := snd r in
  (fst r = Ok tt \/ fst r = Throw bad_alloc)
  /\ ((forall s, grants s n = true) -> fst r = Ok tt)
  /\ (fst r = Ok tt ->
      UI_PARAMS.qsm_alpha_ q' = resized UI_PARAMS.d0 (UI_PARAMS.qsm_alpha_ q) n
      /\ UI_PARAMS.qsm_xi_ q' = resized UI_PARAMS.d0 (UI_PARAMS.qsm_xi_ q) n
      /\ UI_PARAMS.qsm_h_ q' = resized UI_PARAMS.d0 (UI_PARAMS.qsm_h_ q) n
      /\ UI_PARAMS.size (UI_PARAMS.qsm_alpha_ q') = n
      /\ UI_PARAMS.size (UI_PARAMS.qsm_xi_ q') = n
      /\ UI_PARAMS.size (UI_PARAMS.qsm_h_ q') = n)
  /\ UI_PARAMS.qsm_N_ q' = UI_PARAMS.qsm_N_ q
  /\ UI_PARAMS.qsm_Ntot_ q' = UI_PARAMS.qsm_Ntot_ q
  /\ UI_PARAMS.qsm_gamma_ q' = UI_PARAMS.qsm_gamma_ q
  /\ UI_PARAMS.qsm_g0_ q' = UI_PARAMS.qsm_g0_ q.
Proof.
  intros HN HNtot Hle Hmax n r q'. subst q' r.
  assert (Hn : 0 <= n) by (unfold n; lia).
  assert (Hsub : size_t_sub (UI_PARAMS.qsm_Ntot_ q) (UI_PARAMS.qsm_N_ q) = n)
    by (apply size_t_sub_no_wrap; assumption).
  split; [|split; [|split]].
  - rewrite resizeQSM_run. cbv zeta. rewrite Hsub.
    replace (max_size <? n) with false by (symmetry; apply Z.ltb_ge; exact Hmax).
    repeat match goal with
           | |- context [if ?b && negb ?g then _ else _] =>
               destruct (b && negb g); [right; reflexivity|]
           end.
    left. reflexivity.
  - intros Hg. rewrite resizeQSM_granted by (rewrite Hsub; exact Hg). cbv zeta.
    rewrite Hsub.
    replace (max_size <? n) with false by (symmetry; apply Z.ltb_ge; exact Hmax).
    reflexivity.
  - rewrite resizeQSM_run. cbv zeta. rewrite Hsub.
    replace (max_size <? n) with false by (symmetry; apply Z.ltb_ge; exact Hmax).
    repeat match goal with
           | |- context [if ?b && negb ?g then _ else _] =>
               destruct (b && negb g); [intros Hok; discriminate Hok|]
           end.
    intros _. rewrite resizeQSM_done.
    cbn [snd UI_PARAMS.qsm_alpha_ UI_PARAMS.qsm_xi_ UI_PARAMS.qsm_h_].
    rewrite !resized_size by exact Hn.
    repeat split; reflexivity.
  - rewrite resizeQSM_run. cbv zeta.
    destruct q as [N Ntot gamma g0 alpha alpha_r xi xi_r h h_r].
    destruct (max_size <? _); [repeat split; reflexivity|].
    repeat match goal with
           | |- context [if ?b && negb ?g then _ else _] =>
               destruct (b && negb g); [repeat split; reflexivity|]
           end.
    repeat split; reflexivity.
Qed.

Lemma resizeQSM_resizes_arrays_witness :
  let q := UI_PARAMS.mk_qsm_t 2 5 UI_PARAMS.d1 UI_PARAMS.d1
             [UI_PARAMS.d1; UI_PARAMS.d2] UI_PARAMS.d0 [] UI_PARAMS.d0
             [UI_PARAMS.d1; UI_PARAMS.d1; UI_PARAMS.d1; UI_PARAMS.d2] UI_PARAMS.d0 in
  let q' := snd (UI_PARAMS.resizeQSM Demo.max_size Demo.generous q) in
  fst (UI_PARAMS.resizeQSM Demo.max_size Demo.generous q) = Ok tt
  /\ UI_PARAMS.qsm_alpha_ q' = [UI_PARAMS.d1; UI_PARAMS.d2; UI_PARAMS.d0]
  /\ UI_PARAMS.qsm_xi_ q' = [UI_PARAMS.d0; UI_PARAMS.d0; UI_PARAMS.d0]
  /\ UI_PARAMS.qsm_h_ q' = [UI_PARAMS.d1; UI_PARAMS.d1; UI_PARAMS.d1].
Proof.
  intros q q'.
  assert (H1 : is_u64 (UI_PARAMS.qsm_N_ q)) by (unfold is_u64, u64_modulus; simpl; lia).
  assert (H2 : is_u64 (UI_PARAMS.qsm_Ntot_ q)) by (unfold is_u64, u64_modulus; simpl; lia).
  assert (H3 : UI_PARAMS.qsm_N_ q <= UI_PARAMS.qsm_Ntot_ q) by (simpl; lia).
  assert (H4 : UI_PARAMS.qsm_Ntot_ q - UI_PARAMS.qsm_N_ q <= Demo.max_size)
    by (vm_compute; discriminate).
  assert (H5 : forall s, @Demo.generous UI_PARAMS.qsm_t s
                           (UI_PARAMS.qsm_Ntot_ q - UI_PARAMS.qsm_N_ q) = true)
    by (intros s; reflexivity).
  pose proof (resizeQSM_resizes_arrays Demo.max_size Demo.generous q H1 H2 H3 H4)
    as [_ [Hgr [Hres _]]].
  pose proof (Hgr H5) as Hok.
  destruct (Hres Hok) as [Ha [Hx [Hh _]]].
  split; [exact Hok|]. split; [exact Ha|]. split; [exact Hx | exact Hh].
Defined.

(** X7: the ways [resizeQSM] can end, with [n] the unsigned difference of
    the counts.  It returns, and the three arrays are resized to [n]
    elements; or [n] exceeds [max_size()], it throws [std::length_error], and
    the three arrays are what they were; or an allocation is refused, it
    throws [std::bad_alloc], and the arrays are half done: the first [k] of
    [qsm_alpha_], [qsm_xi_], [qsm_h_] are resized, for some [k < 3], and the
    others, of which the next is shorter than [n], are what they were. *)
Theorem resizeQSM_outcomes (max_size : Z)
    (grants : UI_PARAMS.allocator UI_PARAMS.qsm_t) (q : UI_PARAMS.qsm_t) :
  let n := size_t_sub (UI_PARAMS.qsm_Ntot_ q) (UI_PARAMS.qsm_N_ q) in
  let r := UI_PARAMS.resizeQSM max_size grants q in
  let arrays := fun s =>
    [UI_PARAMS.qsm_alpha_ s; UI_PARAMS.qsm_xi_ s; UI_PARAMS.qsm_h_ s] in
  (fst r = Ok tt
   /\ n <= max_size
   /\ arrays (snd r) = map (fun v => resized UI_PARAMS.d0 v n) (arrays q)
   /\ Forall (fun v => UI_PARAMS.size v = n) (arrays (snd r)))
  \/ (fst r = Throw length_error
      /\ max_size < n
      /\ arrays (snd r) = arrays q)
  \/ (fst r = Throw bad_alloc
      /\ n <= max_size
      /\ exists k, (k < 3)%nat
         /\ arrays (snd r)
            = map (fun v => resized UI_PARAMS.d0 v n) (firstn k (arrays q))
              ++ skipn k (arrays q)
         /\ UI_PARAMS.size (nth k (arrays q) []) < n).
Proof.
  intros n r arrays. subst r. rewrite resizeQSM_run. cbv zeta. fold n.
  pose proof (size_t_sub_range (UI_PARAMS.qsm_Ntot_ q) (UI_PARAMS.qsm_N_ q)) as Hn.
  fold n in Hn. clearbody n.
  destruct q as [N Ntot gamma g0 alpha alpha_r xi xi_r h h_r].
  subst arrays.
  cbn [UI_PARAMS.qsm_alpha_ UI_PARAMS.qsm_xi_ UI_PARAMS.qsm_h_
       UI_PARAMS.set_qsm_alpha_r_ UI_PARAMS.set_qsm_alpha_
       UI_PARAMS.set_qsm_xi_r_ UI_PARAMS.set_qsm_xi_ UI_PARAMS.set_qsm_h_r_
       UI_PARAMS.set_qsm_h_ UI_PARAMS.qsm_N_ UI_PARAMS.qsm_Ntot_
       UI_PARAMS.qsm_gamma_ UI_PARAMS.qsm_g0_ UI_PARAMS.qsm_alpha_r_
       UI_PARAMS.qsm_xi_r_ UI_PARAMS.qsm_h_r_].
  destruct (Z.ltb_spec max_size n) as [Hlt|Hge].
  { right. left. repeat split; [exact Hlt]. }
  destruct (Z.ltb_spec (UI_PARAMS.size alpha) n) as [Ha|Ha]; cbn [andb].
  - destruct (grants _ n); cbn [negb].
    2:{ right. right. split; [reflexivity|]. split; [exact Hge|].
        exists 0%nat. split; [lia|]. split; [reflexivity | exact Ha]. }
    destruct (Z.ltb_spec (UI_PARAMS.size xi) n) as [Hx|Hx]; cbn [andb].
    + destruct (grants _ n); cbn [negb].
      2:{ right. right. split; [reflexivity|]. split; [exact Hge|].
          exists 1%nat. split; [lia|]. split; [reflexivity | exact Hx]. }
      destruct (Z.ltb_spec (UI_PARAMS.size h) n) as [Hh|Hh]; cbn [andb].
      * destruct (grants _ n); cbn [negb].
        2:{ right. right. split; [reflexivity|]. split; [exact Hge|].
            exists 2%nat. split; [lia|]. split; [reflexivity | exact Hh]. }
        left. split; [reflexivity|]. split; [exact Hge|]. split; [reflexivity|].
        cbn [snd]. repeat constructor; apply resized_size; lia.
      * left. split; [reflexivity|]. split; [exact Hge|]. split; [reflexivity|].
        cbn [snd]. repeat constructor; apply resized_size; lia.
    + destruct (Z.ltb_spec (UI_PARAMS.size h) n) as [Hh|Hh]; cbn [andb].
      * destruct (grants _ n); cbn [negb].
        2:{ right. right. split; [reflexivity|]. split; [exact Hge|].
            exists 2%nat. split; [lia|]. split; [reflexivity | exact Hh]. }
        left. split; [reflexivity|]. split; [exact Hge|]. split; [reflexivity|].
        cbn [snd]. repeat constructor; apply resized_size; lia.
      * left. split; [reflexivity|]. split; [exact Hge|]. split; [reflexivity|].
        cbn [snd]. repeat constructor; apply resized_size; lia.
  - destruct (Z.ltb_spec (UI_PARAMS.size xi) n) as [Hx|Hx]; cbn [andb].
    + destruct (grants _ n); cbn [negb].
      2:{ right. right. split; [reflexivity|]. split; [exact Hge|].
          exists 1%nat. split; [lia|]. split; [reflexivity | exact Hx]. }
      destruct (Z.ltb_spec (UI_PARAMS.size h) n) as [Hh|Hh]; cbn [andb].
      * destruct (grants _ n); cbn [negb].
        2:{ right. right. split; [reflexivity|]. split; [exact Hge|].
            exists 2%nat. split; [lia|]. split; [reflexivity | exact Hh]. }
        left. split; [reflexivity|]. split; [exact Hge|]. split; [reflexivity|].
        cbn [snd]. repeat constructor; apply resized_size; lia.
      * left. split; [reflexivity|]. split; [exact Hge|]. split; [reflexivity|].
        cbn [snd]. repeat constructor; apply resized_size; lia.
    + destruct (Z.ltb_spec (UI_PARAMS.size h) n) as [Hh|Hh]; cbn [andb].
      * destruct (grants _ n); cbn [negb].
        2:{ right. right. split; [reflexivity|]. split; [exact Hge|].
            exists 2%nat. split; [lia|]. split; [reflexivity | exact Hh]. }
        left. split; [reflexivity|]. split; [exact Hge|]. split; [reflexivity|].
        cbn [snd]. repeat constructor; apply resized_size; lia.
      * left. split; [reflexivity|]. split; [exact Hge|]. split; [reflexivity|].
        cbn [snd]. repeat constructor; apply resized_size; lia.
Qed.

(** Reduction of the accessors and assignments of [qsm_t] on a record given
    by its fields. *)
Ltac qsm_fields :=
  cbv beta iota delta
    [UI_PARAMS.qsm_alpha_ UI_PARAMS.qsm_xi_ UI_PARAMS.qsm_h_
     UI_PARAMS.set_qsm_alpha_r_ UI_PARAMS.set_qsm_alpha_
     UI_PARAMS.set_qsm_xi_r_ UI_PARAMS.set_qsm_xi_ UI_PARAMS.set_qsm_h_r_
     UI_PARAMS.set_qsm_h_ UI_PARAMS.qsm_N_ UI_PARAMS.qsm_Ntot_
     UI_PARAMS.qsm_gamma_ UI_PARAMS.qsm_g0_ UI_PARAMS.qsm_alpha_r_
     UI_PARAMS.qsm_xi_r_ UI_PARAMS.qsm_h_r_].

Tactic Notation "qsm_fields" "in" "*" :=
  cbv beta iota delta
    [UI_PARAMS.qsm_alpha_ UI_PARAMS.qsm_xi_ UI_PARAMS.qsm_h_
     UI_PARAMS.set_qsm_alpha_r_ UI_PARAMS.set_qsm_alpha_
     UI_PARAMS.set_qsm_xi_r_ UI_PARAMS.set_qsm_xi_ UI_PARAMS.set_qsm_h_r_
     UI_PARAMS.set_qsm_h_ UI_PARAMS.qsm_N_ UI_PARAMS.qsm_Ntot_
     UI_PARAMS.qsm_gamma_ UI_PARAMS.qsm_g0_ UI_PARAMS.qsm_alpha_r_
     UI_PARAMS.qsm_xi_r_ UI_PARAMS.qsm_h_r_] in *.

(** X19: [resizeQSM] is not atomic.  On a block with the counts [0] and [2]
    and the three arrays empty, with an allocator that runs out of storage
    once [qsm_xi_] holds elements, the call throws [std::bad_alloc] after it
    has resized [qsm_alpha_] and [qsm_xi_] to two elements each and zeroed
    the three [_r_] members; [qsm_h_] is still empty. *)
Theorem resizeQSM_half_done :
  UI_PARAMS.resizeQSM Demo.max_size Demo.runs_out
    (UI_PARAMS.mk_qsm_t 0 2 UI_PARAMS.d1 UI_PARAMS.d1
       [] UI_PARAMS.d1 [] UI_PARAMS.d1 [] UI_PARAMS.d1)
  = (Throw bad_alloc,
     UI_PARAMS.mk_qsm_t 0 2 UI_PARAMS.d1 UI_PARAMS.d1
       [UI_PARAMS.d0; UI_PARAMS.d0] UI_PARAMS.d0
       [UI_PARAMS.d0; UI_PARAMS.d0] UI_PARAMS.d0
       [] UI_PARAMS.d0).
Proof. rewrite resizeQSM_run. reflexivity. Qed.

(** A second [resizeQSM] after one that did not end in [std::bad_alloc]
    asks the allocator for nothing. *)
Lemma resizeQSM_again (max_size : Z)
    (grants grants' : UI_PARAMS.allocator UI_PARAMS.qsm_t) (q : UI_PARAMS.qsm_t) :
  fst (UI_PARAMS.resizeQSM max_size grants q) <> Throw bad_alloc ->
  UI_PARAMS.resizeQSM max_size grants' (snd (UI_PARAMS.resizeQSM max_size grants q))
  = UI_PARAMS.resizeQSM max_size grants q.
Proof.
  rewrite (resizeQSM_run max_size grants q). cbv zeta.
  pose proof (size_t_sub_range (UI_PARAMS.qsm_Ntot_ q) (UI_PARAMS.qsm_N_ q)) as Hn.
  destruct q as [N Ntot gamma g0 alpha alpha_r xi xi_r h h_r].
  qsm_fields in *.
  set (n := size_t_sub Ntot N) in *.
  destruct (max_size <? n) eqn:Hmax.
  { intros _. cbn [snd]. rewrite resizeQSM_run. cbv zeta.
    qsm_fields.
    fold n. rewrite Hmax. reflexivity. }
  repeat match goal with
         | |- context [if ?b && negb ?g then _ else _] =>
             destruct (b && negb g);
             [intros Hbad; exfalso; apply Hbad; reflexivity|]
         end.
  intros _. cbn [snd]. rewrite resizeQSM_run. cbv zeta.
  qsm_fields.
  fold n. rewrite Hmax.
  rewrite !resized_no_growth by lia. cbn [andb].
  rewrite !resized_twice by lia. reflexivity.
Qed.

(** X8: calling [resizeQSM] a second time changes nothing: with the same
    allocator the second call ends as the first did and leaves the object
    as the first left it; and when the first call did not end in
    [std::bad_alloc], so does the second call with any allocator. *)
Theorem resizeQSM_idempotent (max_size : Z)
    (grants : UI_PARAMS.allocator UI_PARAMS.qsm_t) (q : UI_PARAMS.qsm_t) :
  UI_PARAMS.resizeQSM max_size grants (snd (UI_PARAMS.resizeQSM max_size grants q))
  = UI_PARAMS.resizeQSM max_size grants q
  /\ forall grants' : UI_PARAMS.allocator UI_PARAMS.qsm_t,
       fst (UI_PARAMS.resizeQSM max_size grants q) <> Throw bad_alloc ->
       UI_PARAMS.resizeQSM max_size grants'
         (snd (UI_PARAMS.resizeQSM max_size grants q))
       = UI_PARAMS.resizeQSM max_size grants q.
Proof.
  split; [|intros grants'; apply resizeQSM_again].
  rewrite (resizeQSM_run max_size grants q). cbv zeta.
  pose proof (size_t_sub_range (UI_PARAMS.qsm_Ntot_ q) (UI_PARAMS.qsm_N_ q)) as Hn.
  destruct q as [N Ntot gamma g0 alpha alpha_r xi xi_r h h_r].
  qsm_fields in *.
  set (n := size_t_sub Ntot N) in *.
  destruct (max_size <? n) eqn:Hmax.
  { cbn [snd]. rewrite resizeQSM_run. cbv zeta.
    qsm_fields.
    fold n. rewrite Hmax. reflexivity. }
  destruct ((UI_PARAMS.size alpha <? n) && negb (grants _ n)) eqn:Ha.
  { cbn [snd]. rewrite resizeQSM_run. cbv zeta.
    qsm_fields.
    fold n. rewrite Hmax, Ha. reflexivity. }
  destruct ((UI_PARAMS.size xi <? n) && negb (grants _ n)) eqn:Hx.
  { cbn [snd]. rewrite resizeQSM_run. cbv zeta.
    qsm_fields.
    fold n. rewrite Hmax.
    rewrite resized_no_growth by lia. cbn [andb].
    rewrite resized_twice by lia. rewrite Hx. reflexivity. }
  destruct ((UI_PARAMS.size h <? n) && negb (grants _ n)) eqn:Hh.
  { cbn [snd]. rewrite resizeQSM_run. cbv zeta.
    qsm_fields.
    fold n. rewrite Hmax.
    rewrite !resized_no_growth by lia. cbn [andb].
    rewrite !resized_twice by lia. rewrite Hh. reflexivity. }
  cbn [snd]. rewrite resizeQSM_run. cbv zeta.
  qsm_fields.
  fold n. rewrite Hmax.
  rewrite !resized_no_growth by lia. cbn [andb].
  rewrite !resized_twice by lia. reflexivity.
Qed.

Lemma resizeQSM_idempotent_witness :
  let q := UI_PARAMS.mk_qsm_t 2 5 UI_PARAMS.d1 UI_PARAMS.d1
             [UI_PARAMS.d1; UI_PARAMS.d2] UI_PARAMS.d0 [] UI_PARAMS.d0
             [UI_PARAMS.d1] UI_PARAMS.d0 in
  fst (UI_PARAMS.resizeQSM Demo.max_size Demo.generous q) <> Throw bad_alloc
  /\ UI_PARAMS.resizeQSM Demo.max_size (fun _ _ => false)
       (snd (UI_PARAMS.resizeQSM Demo.max_size Demo.generous q))
     = UI_PARAMS.resizeQSM Demo.max_size Demo.generous q.
Proof.
  intros q.
  assert (H : fst (UI_PARAMS.resizeQSM Demo.max_size Demo.generous q) <> Throw bad_alloc)
    by (vm_compute; discriminate).
  split; [exact H|].
  exact (proj2 (resizeQSM_idempotent Demo.max_size Demo.generous q) (fun _ _ => false) H).
Defined.

(** X9: [setDefault] gives each QSM array one element, and a [resizeQSM]
    right after it takes them away again: the default counts are equal, so
    the arrays are resized to zero elements, for which no allocator is
    asked. *)
Theorem setDefault_then_resizeQSM_empties (max_size : Z)
    (grants : UI_PARAMS.allocator UI_PARAMS.qsm_t) (p : UI_PARAMS.ModP) :
  0 <= max_size ->
  let q := UI_PARAMS.qsm (UI_PARAMS.setDefault p) in
  let q' := snd (UI_PARAMS.resizeQSM max_size grants q) in
  UI_PARAMS.qsm_arrays (UI_PARAMS.setDefault p)
    = [[UI_PARAMS.d1]; [UI_PARAMS.d1]; [UI_PARAMS.d1]]
  /\ fst (UI_PARAMS.resizeQSM max_size grants q) = Ok tt
  /\ UI_PARAMS.qsm_alpha_ q' = []
  /\ UI_PARAMS.qsm_xi_ q' = []
  /\ UI_PARAMS.qsm_h_ q' = [].
Proof.
  intros Hmax q q'. subst q'. rewrite resizeQSM_run. cbv zeta.
  subst q.
  cbn [UI_PARAMS.qsm UI_PARAMS.setDefault UI_PARAMS.setDefault_qsm
       UI_PARAMS.qsm_N_ UI_PARAMS.qsm_Ntot_ UI_PARAMS.qsm_alpha_ UI_PARAMS.qsm_xi_
       UI_PARAMS.qsm_h_ UI_PARAMS.qsm_arrays].
  change (size_t_sub 1 1) with 0.
  replace (max_size <? 0) with false by (symmetry; apply Z.ltb_ge; exact Hmax).
  change (UI_PARAMS.size (UI_PARAMS.v_1d_fill 1 UI_PARAMS.d1) <? 0) with false.
  cbn [andb]. repeat split.
Qed.

Lemma setDefault_then_resizeQSM_empties_witness :
  0 <= Demo.max_size
  /\ UI_PARAMS.qsm_alpha_
       (snd (UI_PARAMS.resizeQSM Demo.max_size (fun _ _ => false)
               (UI_PARAMS.qsm (UI_PARAMS.setDefault UI_PARAMS.ModP_init)))) = [].
Proof.
  assert (H : 0 <= Demo.max_size) by (vm_compute; discriminate).
  split; [exact H|].
  exact (proj1 (proj2 (proj2
    (setDefault_then_resizeQSM_empties Demo.max_size (fun _ _ => false)
       UI_PARAMS.ModP_init H)))).
Defined.

(** X10: [resizeUM] with the total at least the sub-population count and
    the difference [n] within [max_size()] returns normally or throws
    [std::bad_alloc], and it returns whenever the array has at least [n]
    elements or the allocator grants the request.  When it returns,
    [um_alpha_] has exactly [n] elements, old elements below [n] kept and
    new ones [0.0], and a second call, with any allocator, changes nothing.
    However the call ends, the counts and [um_g_] are untouched. *)
Theorem resizeUM_resizes_array (max_size : Z)
    (grants : UI_PARAMS.allocator UI_PARAMS.ultrametric_t) (u : UI_PARAMS.ultrametric_t) :
  is_u64 (UI_PARAMS.um_N_ u) -> is_u64 (UI_PARAMS.um_Ntot_ u) ->
  UI_PARAMS.um_N_ u <= UI_PARAMS.um_Ntot_ u ->
  UI_PARAMS.um_Ntot_ u - UI_PARAMS.um_N_ u <= max_size ->
  let n := UI_PARAMS.um_Ntot_ u - UI_PARAMS.um_N_ u in
  let r := UI_PARAMS.resizeUM max_size grants u in
  let u' := snd r in
  (fst r = Ok tt \/ fst r = Throw bad_alloc)
  /\ (n <= UI_PARAMS.size (UI_PARAMS.um_alpha_ u) \/ (forall s, grants s n = true) ->
      fst r = Ok tt)
  /\ (fst r = Ok tt ->
      UI_PARAMS.um_alpha_ u' = resized UI_PARAMS.d0 (UI_PARAMS.um_alpha_ u) n
      /\ UI_PARAMS.size (UI_PARAMS.um_alpha_ u') = n
      /\ forall grants', UI_PARAMS.resizeUM max_size grants' u' = (Ok tt, u'))
  /\ UI_PARAMS.um_N_ u' = UI_PARAMS.um_N_ u
  /\ UI_PARAMS.um_Ntot_ u' = UI_PARAMS.um_Ntot_ u
  /\ UI_PARAMS.um_g_ u' = UI_PARAMS.um_g_ u.
Proof.
  intros HN HNtot Hle Hmax n r u'. subst u' r.
  assert (Hn : 0 <= n) by (unfold n; lia).
  assert (Hsub : size_t_sub (UI_PARAMS.um_Ntot_ u) (UI_PARAMS.um_N_ u) = n)
    by (apply size_t_sub_no_wrap; assumption).
  rewrite (resizeUM_run max_size grants u). cbv zeta. rewrite Hsub.
  assert (Hmax' : n <= max_size) by exact Hmax.
  replace (max_size <? n) with false by (symmetry; apply Z.ltb_ge; exact Hmax').
  clearbody n.
  destruct u as [N Ntot alpha alpha_r g].
  cbn [UI_PARAMS.um_alpha_ UI_PARAMS.um_N_ UI_PARAMS.um_Ntot_ UI_PARAMS.um_g_
       UI_PARAMS.um_alpha_r_ UI_PARAMS.set_um_alpha_r_ UI_PARAMS.set_um_alpha_] in *.
  split; [|split; [|split]].
  - destruct (_ && _); [right | left]; reflexivity.
  - intros [Hsize|Hg].
    + replace (UI_PARAMS.size alpha <? n) with false
        by (symmetry; apply Z.ltb_ge; exact Hsize).
      reflexivity.
    + rewrite Hg. rewrite Bool.andb_false_r. reflexivity.
  - destruct (_ && _); [intros Hok; discriminate Hok|]. intros _.
    cbn [snd UI_PARAMS.um_alpha_].
    split; [reflexivity|]. split; [apply resized_size; exact Hn|].
    intros grants'. rewrite resizeUM_run. cbv zeta.
    cbn [UI_PARAMS.um_alpha_ UI_PARAMS.um_N_ UI_PARAMS.um_Ntot_ UI_PARAMS.um_g_
         UI_PARAMS.um_alpha_r_ UI_PARAMS.set_um_alpha_r_ UI_PARAMS.set_um_alpha_].
    rewrite Hsub.
    replace (max_size <? n) with false by (symmetry; apply Z.ltb_ge; exact Hmax').
    rewrite resized_no_growth by exact Hn. cbn [andb].
    rewrite resized_twice by exact Hn. reflexivity.
  - destruct (_ && _); repeat split; reflexivity.
Qed.

Lemma resizeUM_resizes_array_witness :
  let u := UI_PARAMS.mk_ultrametric_t 1 3 [UI_PARAMS.d1] UI_PARAMS.d1 UI_PARAMS.d1 in
  fst (UI_PARAMS.resizeUM Demo.max_size Demo.generous u) = Ok tt
  /\ UI_PARAMS.um_alpha_ (snd (UI_PARAMS.resizeUM Demo.max_size Demo.generous u))
     = [UI_PARAMS.d1; UI_PARAMS.d0].
Proof.
  intros u.
  assert (H1 : is_u64 (UI_PARAMS.um_N_ u)) by (unfold is_u64, u64_modulus; simpl; lia).
  assert (H2 : is_u64 (UI_PARAMS.um_Ntot_ u)) by (unfold is_u64, u64_modulus; simpl; lia).
  assert (H3 : UI_PARAMS.um_N_ u <= UI_PARAMS.um_Ntot_ u) by (simpl; lia).
  assert (H4 : UI_PARAMS.um_Ntot_ u - UI_PARAMS.um_N_ u <= Demo.max_size)
    by (vm_compute; discriminate).
  assert (H5 : forall s, @Demo.generous UI_PARAMS.ultrametric_t s
                           (UI_PARAMS.um_Ntot_ u - UI_PARAMS.um_N_ u) = true)
    by (intros s; reflexivity).
  pose proof (resizeUM_resizes_array Demo.max_size Demo.generous u H1 H2 H3 H4)
    as [_ [Hgr [Hres _]]].
  pose proof (Hgr (or_intror H5)) as Hok.
  destruct (Hres Hok) as [Ha _].
  split; [exact Hok | exact Ha].
Defined.

(** [resizeRP] in closed form. *)
Lemma resizeRP_run (max_size : Z)
    (grants : UI_PARAMS.allocator UI_PARAMS.rosenzweig_porter_t)
    (r : UI_PARAMS.rosenzweig_porter_t) :
  UI_PARAMS.resizeRP max_size grants r
  = let n := UI_PARAMS.size_t_of_int (UI_PARAMS.rp_g_sweep_n_ r) in
    if max_size <? n then (Throw length_error, r)
    else if (UI_PARAMS.size (UI_PARAMS.rp_g_ r) <? n) && negb (grants r n)
         then (Throw bad_alloc, r)
         else (Ok tt, UI_PARAMS.set_rp_g_ (resized UI_PARAMS.d0 (UI_PARAMS.rp_g_ r) n) r).
Proof.
  unfold UI_PARAMS.resizeRP. unfold bind at 1. unfold gets at 1.
  rewrite resize_member_run. reflexivity.
Qed.

(** X11: [resizeRP] passes the [int] [rp_g_sweep_n_] to [resize], which
    takes a [size_t].  A negative sweep count becomes a size above any
    [max_size()], and the call throws [std::length_error] with the object
    untouched, whatever the allocator would grant.  With a count from [0]
    to [max_size()] the call returns and [rp_g_] has exactly that many
    elements, or [rp_g_] had fewer, the allocator refuses, and the call
    throws [std::bad_alloc] with the object untouched; which of the two is
    decided by the size of [rp_g_] and the allocator. *)
Theorem resizeRP_sweep_count (max_size : Z)
    (grants : UI_PARAMS.allocator UI_PARAMS.rosenzweig_porter_t)
    (r : UI_PARAMS.rosenzweig_porter_t) :
  max_size < 2 ^ 63 ->
  - 2 ^ 31 <= UI_PARAMS.rp_g_sweep_n_ r < 2 ^ 31 ->
  let n := UI_PARAMS.rp_g_sweep_n_ r in
  let out := UI_PARAMS.resizeRP max_size grants r in
  (n < 0 -> out = (Throw length_error, r))
  /\ (0 <= n <= max_size ->
       (fst out = Ok tt
        /\ UI_PARAMS.rp_g_ (snd out) = resized UI_PARAMS.d0 (UI_PARAMS.rp_g_ r) n
        /\ UI_PARAMS.size (UI_PARAMS.rp_g_ (snd out)) = n)
       \/ (out = (Throw bad_alloc, r)
           /\ UI_PARAMS.size (UI_PARAMS.rp_g_ r) < n
           /\ grants r n = false))
  /\ (0 <= n <= max_size ->
       n <= UI_PARAMS.size (UI_PARAMS.rp_g_ r) \/ grants r n = true ->
       fst out = Ok tt)
  /\ (0 <= n <= max_size ->
       UI_PARAMS.size (UI_PARAMS.rp_g_ r) < n -> grants r n = false ->
       out = (Throw bad_alloc, r)).
Proof.
  intros Hmax Hint n out. subst out. rewrite resizeRP_run. cbv zeta. fold n.
  split; [|split; [|split]].
  - intros Hneg.
    assert (Hn : UI_PARAMS.size_t_of_int n = u64_modulus + n).
    { unfold UI_PARAMS.size_t_of_int, u64_modulus.
      replace n with ((2 ^ 64 + n) + (-1) * 2 ^ 64) at 1 by lia.
      rewrite Z.mod_add by lia. apply Z.mod_small. unfold n in *. lia. }
    rewrite Hn.
    replace (max_size <? u64_modulus + n) with true; [reflexivity|].
    symmetry. apply Z.ltb_lt. unfold u64_modulus, n in *. lia.
  - intros Hok.
    assert (Hn : UI_PARAMS.size_t_of_int n = n).
    { unfold UI_PARAMS.size_t_of_int, u64_modulus. apply Z.mod_small. lia. }
    rewrite Hn.
    replace (max_size <? n) with false by (symmetry; apply Z.ltb_ge; lia).
    destruct (Z.ltb_spec (UI_PARAMS.size (UI_PARAMS.rp_g_ r)) n) as [Hlt|Hge];
      cbn [andb].
    + destruct (grants r n) eqn:Hg; cbn [negb].
      * left. destruct r as [g sp br sw].
        cbn [fst snd UI_PARAMS.rp_g_ UI_PARAMS.set_rp_g_].
        split; [reflexivity|]. split; [reflexivity|]. apply resized_size. lia.
      * right. split; [reflexivity|]. split; [exact Hlt | reflexivity].
    + left. destruct r as [g sp br sw].
      cbn [fst snd UI_PARAMS.rp_g_ UI_PARAMS.set_rp_g_].
      split; [reflexivity|]. split; [reflexivity|]. apply resized_size. lia.
  - intros Hok Hcase.
    assert (Hn : UI_PARAMS.size_t_of_int n = n).
    { unfold UI_PARAMS.size_t_of_int, u64_modulus. apply Z.mod_small. lia. }
    rewrite Hn.
    replace (max_size <? n) with false by (symmetry; apply Z.ltb_ge; lia).
    destruct Hcase as [Hsize|Hg].
    + replace (UI_PARAMS.size (UI_PARAMS.rp_g_ r) <? n) with false
        by (symmetry; apply Z.ltb_ge; exact Hsize).
      reflexivity.
    + rewrite Hg. rewrite Bool.andb_false_r. reflexivity.
  - intros Hok Hsize Hg.
    assert (Hn : UI_PARAMS.size_t_of_int n = n).
    { unfold UI_PARAMS.size_t_of_int, u64_modulus. apply Z.mod_small. lia. }
    rewrite Hn.
    replace (max_size <? n) with false by (symmetry; apply Z.ltb_ge; lia).
    replace (UI_PARAMS.size (UI_PARAMS.rp_g_ r) <? n) with true
      by (symmetry; apply Z.ltb_lt; exact Hsize).
    rewrite Hg. reflexivity.
Qed.

Lemma resizeRP_sweep_count_witness :
  let r := UI_PARAMS.mk_rosenzweig_porter_t [UI_PARAMS.d1] false true (-1) in
  Demo.max_size < 2 ^ 63
  /\ UI_PARAMS.resizeRP Demo.max_size Demo.generous r = (Throw length_error, r).
Proof.
  intros r.
  assert (H1 : Demo.max_size < 2 ^ 63) by (vm_compute; reflexivity).
  assert (H2 : - 2 ^ 31 <= UI_PARAMS.rp_g_sweep_n_ r < 2 ^ 31) by (simpl; lia).
  assert (H3 : UI_PARAMS.rp_g_sweep_n_ r < 0) by (simpl; lia).
  split; [exact H1|].
  exact (proj1 (resizeRP_sweep_count Demo.max_size Demo.generous r H1 H2) H3).
Defined.

(** Reduction of the accessors and assignments of the Kitaev and Heisenberg
    arrays on a record given by its fields. *)
Ltac modp_fields :=
  cbv beta iota delta
    [UI_PARAMS.Kx_ UI_PARAMS.Ky_ UI_PARAMS.Kz_
     UI_PARAMS.heiJ_ UI_PARAMS.heiDlt_ UI_PARAMS.heiHx_ UI_PARAMS.heiHz_
     UI_PARAMS.set_Kx_ UI_PARAMS.set_Ky_ UI_PARAMS.set_Kz_
     UI_PARAMS.set_heiJ_ UI_PARAMS.set_heiDlt_ UI_PARAMS.set_heiHx_
     UI_PARAMS.set_heiHz_
     UI_PARAMS.kitaev_arrays UI_PARAMS.heisenberg_arrays UI_PARAMS.qsm
     UI_PARAMS.modTyp_ UI_PARAMS.modRanN_ UI_PARAMS.modRanSeed_ UI_PARAMS.modRanNIdx_
     UI_PARAMS.eth_entro_ UI_PARAMS.eth_susc_ UI_PARAMS.eth_ipr_ UI_PARAMS.eth_offd_
     UI_PARAMS.eth_end_ UI_PARAMS.modMidStates_ UI_PARAMS.modEnDiff_
     UI_PARAMS.operators UI_PARAMS.J1_ UI_PARAMS.hz_ UI_PARAMS.hx_ UI_PARAMS.J2_
     UI_PARAMS.eta1_ UI_PARAMS.eta2_ UI_PARAMS.dlt1_ UI_PARAMS.dlt2_
     UI_PARAMS.rosenzweig_porter UI_PARAMS.ultrametric UI_PARAMS.q_gamma_
     UI_PARAMS.q_manifold_ UI_PARAMS.q_manybody_ UI_PARAMS.q_randomCombNum_
     UI_PARAMS.q_realizationNum_ UI_PARAMS.q_shuffle_ UI_PARAMS.q_broad_
     UI_PARAMS.aubry_andre UI_PARAMS.power_law_random_bandwidth].

(** [resizeKitaev] in closed form: the three arrays are resized in turn,
    and each resize can throw. *)
Lemma resizeKitaev_run (max_size : Z) (grants : UI_PARAMS.allocator UI_PARAMS.ModP)
    (Ns : Z) (p : UI_PARAMS.ModP) :
  UI_PARAMS.resizeKitaev max_size grants Ns p
  = let rs := fun v => resized UI_PARAMS.d0 v Ns in
    if max_size <? Ns then (Throw length_error, p)
    else if (UI_PARAMS.size (UI_PARAMS.Kx_ p) <? Ns) && negb (grants p Ns)
    then (Throw bad_alloc, p)
    else
      let p1 := UI_PARAMS.set_Kx_ (rs (UI_PARAMS.Kx_ p)) p in
      if (UI_PARAMS.size (UI_PARAMS.Ky_ p) <? Ns) && negb (grants p1 Ns)
      then (Throw bad_alloc, p1)
      else
        let p2 := UI_PARAMS.set_Ky_ (rs (UI_PARAMS.Ky_ p)) p1 in
        if (UI_PARAMS.size (UI_PARAMS.Kz_ p) <? Ns) && negb (grants p2 Ns)
        then (Throw bad_alloc, p2)
        else (Ok tt, UI_PARAMS.set_Kz_ (rs (UI_PARAMS.Kz_ p)) p2).
Proof.
  unfold UI_PARAMS.resizeKitaev, bind. cbv zeta.
  rewrite resize_member_run.
  destruct (max_size <? Ns) eqn:Hmax; [reflexivity|].
  destruct ((UI_PARAMS.size (UI_PARAMS.Kx_ p) <? Ns) && negb (grants p Ns));
    [reflexivity|].
  rewrite resize_member_run, Hmax.
  change (UI_PARAMS.Ky_ (UI_PARAMS.set_Kx_ (resized UI_PARAMS.d0 (UI_PARAMS.Kx_ p) Ns) p))
    with (UI_PARAMS.Ky_ p).
  destruct ((UI_PARAMS.size (UI_PARAMS.Ky_ p) <? Ns) && negb (grants _ Ns));
    [reflexivity|].
  rewrite resize_member_run, Hmax.
  match goal with
  | |- context [UI_PARAMS.size (UI_PARAMS.Kz_ ?s) <? Ns] =>
      change (UI_PARAMS.Kz_ s) with (UI_PARAMS.Kz_ p)
  end.
  destruct ((UI_PARAMS.size (UI_PARAMS.Kz_ p) <? Ns) && negb (grants _ Ns));
    reflexivity.
Qed.

(** [resizeHeisenberg] in closed form. *)
Lemma resizeHeisenberg_run (max_size : Z) (grants : UI_PARAMS.allocator UI_PARAMS.ModP)
    (Ns : Z) (p : UI_PARAMS.ModP) :
  UI_PARAMS.resizeHeisenberg max_size grants Ns p
  = let rs := fun v => resized UI_PARAMS.d0 v Ns in
    if max_size <? Ns then (Throw length_error, p)
    else if (UI_PARAMS.size (UI_PARAMS.heiJ_ p) <? Ns) && negb (grants p Ns)
    then (Throw bad_alloc, p)
    else
      let p1 := UI_PARAMS.set_heiJ_ (rs (UI_PARAMS.heiJ_ p)) p in
      if (UI_PARAMS.size (UI_PARAMS.heiDlt_ p) <? Ns) && negb (grants p1 Ns)
      then (Throw bad_alloc, p1)
      else
        let p2 := UI_PARAMS.set_heiDlt_ (rs (UI_PARAMS.heiDlt_ p)) p1 in
        if (UI_PARAMS.size (UI_PARAMS.heiHx_ p) <? Ns) && negb (grants p2 Ns)
        then (Throw bad_alloc, p2)
        else
          let p3 := UI_PARAMS.set_heiHx_ (rs (UI_PARAMS.heiHx_ p)) p2 in
          if (UI_PARAMS.size (UI_PARAMS.heiHz_ p) <? Ns) && negb (grants p3 Ns)
          then (Throw bad_alloc, p3)
          else (Ok tt, UI_PARAMS.set_heiHz_ (rs (UI_PARAMS.heiHz_ p)) p3).
Proof.
  unfold UI_PARAMS.resizeHeisenberg, bind. cbv zeta.
  rewrite resize_member_run.
  destruct (max_size <? Ns) eqn:Hmax; [reflexivity|].
  destruct ((UI_PARAMS.size (UI_PARAMS.heiJ_ p) <? Ns) && negb (grants p Ns));
    [reflexivity|].
  rewrite resize_member_run, Hmax.
  match goal with
  | |- context [UI_PARAMS.size (UI_PARAMS.heiDlt_ ?s) <? Ns] =>
      change (UI_PARAMS.heiDlt_ s) with (UI_PARAMS.heiDlt_ p)
  end.
  destruct ((UI_PARAMS.size (UI_PARAMS.heiDlt_ p) <? Ns) && negb (grants _ Ns));
    [reflexivity|].
  rewrite resize_member_run, Hmax.
  match goal with
  | |- context [UI_PARAMS.size (UI_PARAMS.heiHx_ ?s) <? Ns] =>
      change (UI_PARAMS.heiHx_ s) with (UI_PARAMS.heiHx_ p)
  end.
  destruct ((UI_PARAMS.size (UI_PARAMS.heiHx_ p) <? Ns) && negb (grants _ Ns));
    [reflexivity|].
  rewrite resize_member_run, Hmax.
  match goal with
  | |- context [UI_PARAMS.size (UI_PARAMS.heiHz_ ?s) <? Ns] =>
      change (UI_PARAMS.heiHz_ s) with (UI_PARAMS.heiHz_ p)
  end.
  destruct ((UI_PARAMS.size (UI_PARAMS.heiHz_ p) <? Ns) && negb (grants _ Ns));
    reflexivity.
Qed.

(** X12: the ways [resizeKitaev(Ns)] can end.  When [Ns] exceeds
    [max_size()] it throws [std::length_error] and leaves the whole record
    as it was.  Otherwise it returns with [Kx_], [Ky_] and [Kz_] at exactly
    [Ns] elements each (old elements below [Ns] kept, new ones [0.0]), which
    it does whenever the allocator grants requests of [Ns] elements; or an
    allocation is refused, it throws [std::bad_alloc], and the arrays are
    half done: the first [k] of the three are resized, for some [k < 3], and
    the others are what they were.  However the call ends, the Heisenberg
    arrays and the QSM block are untouched. *)
Theorem resizeKitaev_outcomes (max_size : Z)
    (grants : UI_PARAMS.allocator UI_PARAMS.ModP) (Ns : Z) (p : UI_PARAMS.ModP) :
  0 <= Ns ->
  let r := UI_PARAMS.resizeKitaev max_size grants Ns p in
  let p' := snd r in
  let rs := fun v => resized UI_PARAMS.d0 v Ns in
  (max_size < Ns -> r = (Throw length_error, p))
  /\ (Ns <= max_size ->
       (fst r = Ok tt
        /\ UI_PARAMS.kitaev_arrays p' = map rs (UI_PARAMS.kitaev_arrays p)
        /\ Forall (fun v => UI_PARAMS.size v = Ns) (UI_PARAMS.kitaev_arrays p'))
       \/ (fst r = Throw bad_alloc
           /\ exists k, (k < 3)%nat
              /\ UI_PARAMS.kitaev_arrays p'
                 = map rs (firstn k (UI_PARAMS.kitaev_arrays p))
                   ++ skipn k (UI_PARAMS.kitaev_arrays p)
              /\ UI_PARAMS.size (nth k (UI_PARAMS.kitaev_arrays p) []) < Ns))
  /\ (Ns <= max_size -> (forall s, grants s Ns = true) -> fst r = Ok tt)
  /\ UI_PARAMS.heisenberg_arrays p' = UI_PARAMS.heisenberg_arrays p
  /\ UI_PARAMS.qsm p' = UI_PARAMS.qsm p.
Proof.
  intros HNs r p' rs. subst p' r. rewrite resizeKitaev_run. cbv zeta.
  split; [|split; [|split]].
  - intros Hgt.
    replace (max_size <? Ns) with true by (symmetry; apply Z.ltb_lt; exact Hgt).
    reflexivity.
  - intros Hle.
    replace (max_size <? Ns) with false by (symmetry; apply Z.ltb_ge; exact Hle).
    destruct p. modp_fields.
    match goal with
    | |- context [(UI_PARAMS.size ?v <? Ns) && negb ?g] =>
        destruct (Z.ltb_spec (UI_PARAMS.size v) Ns) as [Hx|Hx]; cbn [andb];
        [destruct g; cbn [negb];
         [|right; split; [reflexivity|]; exists 0%nat;
           split; [lia|]; split; [reflexivity | exact Hx]]|]
    end;
    (match goal with
     | |- context [(UI_PARAMS.size ?v <? Ns) && negb ?g] =>
         destruct (Z.ltb_spec (UI_PARAMS.size v) Ns) as [Hy|Hy]; cbn [andb];
         [destruct g; cbn [negb];
          [|right; split; [reflexivity|]; exists 1%nat;
            split; [lia|]; split; [reflexivity | exact Hy]]|]
     end);
    (match goal with
     | |- context [(UI_PARAMS.size ?v <? Ns) && negb ?g] =>
         destruct (Z.ltb_spec (UI_PARAMS.size v) Ns) as [Hz|Hz]; cbn [andb];
         [destruct g; cbn [negb];
          [|right; split; [reflexivity|]; exists 2%nat;
            split; [lia|]; split; [reflexivity | exact Hz]]|]
     end);
    (left; split; [reflexivity|]; split; [reflexivity|];
     cbn [snd]; repeat constructor; apply resized_size; exact HNs).
  - intros Hle Hg.
    replace (max_size <? Ns) with false by (symmetry; apply Z.ltb_ge; exact Hle).
    rewrite !Hg. cbn [negb]. rewrite !Bool.andb_false_r. reflexivity.
  - destruct p. modp_fields.
    destruct (max_size <? Ns); [split; reflexivity|].
    repeat match goal with
           | |- context [if ?b && negb ?g then _ else _] =>
               destruct (b && negb g); [split; reflexivity|]
           end.
    split; reflexivity.
Qed.

Lemma resizeKitaev_outcomes_witness :
  let p := UI_PARAMS.setDefault UI_PARAMS.ModP_init in
  0 <= 3 /\ 3 <= Demo.max_size
  /\ fst (UI_PARAMS.resizeKitaev Demo.max_size Demo.generous 3 p) = Ok tt.
Proof.
  intros p.
  assert (H1 : 0 <= 3) by lia.
  assert (H2 : 3 <= Demo.max_size) by (vm_compute; discriminate).
  assert (H3 : forall s, @Demo.generous UI_PARAMS.ModP s 3 = true)
    by (intros s; reflexivity).
  pose proof (resizeKitaev_outcomes Demo.max_size Demo.generous 3 p H1)
    as [_ [_ [Hgr _]]].
  split; [exact H1|]. split; [exact H2|]. exact (Hgr H2 H3).
Defined.

(** X13: [resizeHeisenberg(Ns)] likewise, for [heiJ_], [heiDlt_], [heiHx_]
    and [heiHz_]: [std::length_error] and the record as it was when [Ns]
    exceeds [max_size()]; otherwise all four at [Ns] elements, or
    [std::bad_alloc] with the first [k] of the four resized, for some
    [k < 4], and the others what they were.  The Kitaev arrays and the QSM
    block are untouched. *)
Theorem resizeHeisenberg_outcomes (max_size : Z)
    (grants : UI_PARAMS.allocator UI_PARAMS.ModP) (Ns : Z) (p : UI_PARAMS.ModP) :
  0 <= Ns ->
  let r := UI_PARAMS.resizeHeisenberg max_size grants Ns p in
  let p' := snd r in
  let rs := fun v => resized UI_PARAMS.d0 v Ns in
  (max_size < Ns -> r = (Throw length_error, p))
  /\ (Ns <= max_size ->
       (fst r = Ok tt
        /\ UI_PARAMS.heisenberg_arrays p' = map rs (UI_PARAMS.heisenberg_arrays p)
        /\ Forall (fun v => UI_PARAMS.size v = Ns) (UI_PARAMS.heisenberg_arrays p'))
       \/ (fst r = Throw bad_alloc
           /\ exists k, (k < 4)%nat
              /\ UI_PARAMS.heisenberg_arrays p'
                 = map rs (firstn k (UI_PARAMS.heisenberg_arrays p))
                   ++ skipn k (UI_PARAMS.heisenberg_arrays p)
              /\ UI_PARAMS.size (nth k (UI_PARAMS.heisenberg_arrays p) []) < Ns))
  /\ (Ns <= max_size -> (forall s, grants s Ns = true) -> fst r = Ok tt)
  /\ UI_PARAMS.kitaev_arrays p' = UI_PARAMS.kitaev_arrays p
  /\ UI_PARAMS.qsm p' = UI_PARAMS.qsm p.
Proof.
  intros HNs r p' rs. subst p' r. rewrite resizeHeisenberg_run. cbv zeta.
  split; [|split; [|split]].
  - intros Hgt.
    replace (max_size <? Ns) with true by (symmetry; apply Z.ltb_lt; exact Hgt).
    reflexivity.
  - intros Hle.
    replace (max_size <? Ns) with false by (symmetry; apply Z.ltb_ge; exact Hle).
    destruct p. modp_fields.
    match goal with
    | |- context [(UI_PARAMS.size ?v <? Ns) && negb ?g] =>
        destruct (Z.ltb_spec (UI_PARAMS.size v) Ns) as [Hx|Hx]; cbn [andb];
        [destruct g; cbn [negb];
         [|right; split; [reflexivity|]; exists 0%nat;
           split; [lia|]; split; [reflexivity | exact Hx]]|]
    end;
    (match goal with
     | |- context [(UI_PARAMS.size ?v <? Ns) && negb ?g] =>
         destruct (Z.ltb_spec (UI_PARAMS.size v) Ns) as [Hy|Hy]; cbn [andb];
         [destruct g; cbn [negb];
          [|right; split; [reflexivity|]; exists 1%nat;
            split; [lia|]; split; [reflexivity | exact Hy]]|]
     end);
    (match goal with
     | |- context [(UI_PARAMS.size ?v <? Ns) && negb ?g] =>
         destruct (Z.ltb_spec (UI_PARAMS.size v) Ns) as [Hz|Hz]; cbn [andb];
         [destruct g; cbn [negb];
          [|right; split; [reflexivity|]; exists 2%nat;
            split; [lia|]; split; [reflexivity | exact Hz]]|]
     end);
    (match goal with
     | |- context [(UI_PARAMS.size ?v <? Ns) && negb ?g] =>
         destruct (Z.ltb_spec (UI_PARAMS.size v) Ns) as [Hw|Hw]; cbn [andb];
         [destruct g; cbn [negb];
          [|right; split; [reflexivity|]; exists 3%nat;
            split; [lia|]; split; [reflexivity | exact Hw]]|]
     end);
    (left; split; [reflexivity|]; split; [reflexivity|];
     cbn [snd]; repeat constructor; apply resized_size; exact HNs).
  - intros Hle Hg.
    replace (max_size <? Ns) with false by (symmetry; apply Z.ltb_ge; exact Hle).
    rewrite !Hg. cbn [negb]. rewrite !Bool.andb_false_r. reflexivity.
  - destruct p. modp_fields.
    destruct (max_size <? Ns); [split; reflexivity|].
    repeat match goal with
           | |- context [if ?b && negb ?g then _ else _] =>
               destruct (b && negb g); [split; reflexivity|]
           end.
    split; reflexivity.
Qed.

Lemma resizeHeisenberg_outcomes_witness :
  let p := UI_PARAMS.setDefault UI_PARAMS.ModP_init in
  0 <= 2 /\ 2 <= Demo.max_size
  /\ fst (UI_PARAMS.resizeHeisenberg Demo.max_size Demo.generous 2 p) = Ok tt.
Proof.
  intros p.
  assert (H1 : 0 <= 2) by lia.
  assert (H2 : 2 <= Demo.max_size) by (vm_compute; discriminate).
  assert (H3 : forall s, @Demo.generous UI_PARAMS.ModP s 2 = true)
    by (intros s; reflexivity).
  pose proof (resizeHeisenberg_outcomes Demo.max_size Demo.generous 2 p H1)
    as [_ [_ [Hgr _]]].
  split; [exact H1|]. split; [exact H2|]. exact (Hgr H2 H3).
Defined.

(** ** [setDefault] and [getRanReal] *)

(** X14: [setDefault] is idempotent, and it undoes the array resizes:
    after [resizeKitaev] or [resizeHeisenberg], for any size and any
    allocator, and whether the resize returned or threw, [setDefault] gives
    the record that it gives without the resize. *)
Theorem setDefault_resets_resized_arrays (max_size : Z)
    (grants : UI_PARAMS.allocator UI_PARAMS.ModP) (Ns : Z) (p : UI_PARAMS.ModP) :
  UI_PARAMS.setDefault (UI_PARAMS.setDefault p) = UI_PARAMS.setDefault p
  /\ UI_PARAMS.setDefault (snd (UI_PARAMS.resizeKitaev max_size grants Ns p))
     = UI_PARAMS.setDefault p
  /\ UI_PARAMS.setDefault (snd (UI_PARAMS.resizeHeisenberg max_size grants Ns p))
     = UI_PARAMS.setDefault p.
Proof.
  split; [reflexivity|]. split.
  - rewrite resizeKitaev_run. cbv zeta.
    destruct (max_size <? Ns); [reflexivity|].
    repeat match goal with
           | |- context [if ?b && negb ?g then _ else _] =>
               destruct (b && negb g); [destruct p; reflexivity|]
           end.
    destruct p; reflexivity.
  - rewrite resizeHeisenberg_run. cbv zeta.
    destruct (max_size <? Ns); [reflexivity|].
    repeat match goal with
           | |- context [if ?b && negb ?g then _ else _] =>
               destruct (b && negb g); [destruct p; reflexivity|]
           end.
    destruct p; reflexivity.
Qed.

(** X15: after [setDefault], on any record, [getRanReal(i)] is [1] for
    every index [i], and so is [getRanReal()] wherever [modRanNIdx_]
    points. *)
Theorem getRanReal_after_setDefault (p : UI_PARAMS.ModP) (i : Z) :
  0 <= i ->
  0 <= UI_PARAMS.modRanNIdx_ p ->
  UI_PARAMS.getRanReal (UI_PARAMS.setDefault p) i = Some 1
  /\ UI_PARAMS.getRanReal_current (UI_PARAMS.setDefault p) = Some 1.
Proof.
  intros Hi Hidx.
  assert (H : forall j, 0 <= j ->
            (if j <? 1 then UI_PARAMS.at_index [1] j
             else UI_PARAMS.at_index [1] (size_t_sub 1 1)) = Some 1).
  { intros j Hj. change (size_t_sub 1 1) with 0.
    destruct (Z.ltb_spec j 1) as [Hlt|Hge]; [|reflexivity].
    assert (j = 0) as -> by lia. reflexivity. }
  split.
  - exact (H i Hi).
  - exact (H (UI_PARAMS.modRanNIdx_ p) Hidx).
Qed.

Lemma getRanReal_after_setDefault_witness :
  0 <= 41 /\ 0 <= UI_PARAMS.modRanNIdx_ UI_PARAMS.ModP_init
  /\ UI_PARAMS.getRanReal (UI_PARAMS.setDefault UI_PARAMS.ModP_init) 41 = Some 1.
Proof.
  assert (H1 : 0 <= 41) by lia.
  assert (H2 : 0 <= UI_PARAMS.modRanNIdx_ UI_PARAMS.ModP_init) by (simpl; lia).
  split; [exact H1|]. split; [exact H2|].
  exact (proj1 (getRanReal_after_setDefault UI_PARAMS.ModP_init 41 H1 H2)).
Defined.

(** ** [SYK2] *)

Section SYK2_members.

Variable T : Type.
Variable randomGen : Type.
Variable T_div : T -> double -> T.
Variable cast_I : T.
Variable T_times : T -> double -> T.
Variable T_plus : T -> T -> T.
Variable GOE : randomGen -> Z -> Z -> SYK2.Mat T * randomGen.
Variable init : SYK2.state T randomGen -> SYK2.state T randomGen.

Local Abbreviation hamiltonian :=
  (SYK2.hamiltonian T randomGen T_div cast_I T_times T_plus GOE init).

(** X16: whether it returns or throws, [hamiltonian()] writes nothing but
    the buffer and the random stream: the type tag, the lattice, [Ns], [Nh],
    the constant and the cached info string are those that [init()] left,
    and [info()] returns afterwards what it returned after [init()]. *)
Theorem hamiltonian_keeps_other_members (m : SYK2.state T randomGen) :
  let m' := snd (hamiltonian m) in
  SYK2.type_ m' = SYK2.type_ (init m)
  /\ SYK2.lat_ m' = SYK2.lat_ (init m)
  /\ SYK2.Ns_ m' = SYK2.Ns_ (init m)
  /\ SYK2.Nh m' = SYK2.Nh (init m)
  /\ SYK2.constant_ m' = SYK2.constant_ (init m)
  /\ SYK2.info_ m' = SYK2.info_ (init m)
  /\ (forall skip sep prec,
        SYK2.info m' skip sep prec = SYK2.info (init m) skip sep prec).
Proof.
  intros m'. subst m'.
  unfold SYK2.hamiltonian, bind, gets, modify, lift.
  destruct (GOE (SYK2.ran_ (init m)) (SYK2.Nh (init m)) (SYK2.Nh (init m))) as [G r'].
  destruct (SYK2.rhs T T_div cast_I T_times T_plus G (SYK2.Nh (init m))) as [M|e];
    cbn [snd]; repeat split.
Qed.

End SYK2_members.

Lemma info_through_name {T randomGen : Type} (m : SYK2.state T randomGen)
    (skip : list string) (sep : string) (prec : Z) :
  SYK2.info m skip sep prec = SYK2.QuadraticHamiltonian_info (info_name m sep) skip sep.
Proof. reflexivity. Qed.

Lemma comma_free_uint (d : Decimal.uint) : comma_free (NilEmpty.string_of_uint d) = true.
Proof. induction d; simpl; auto. Qed.

Lemma comma_free_STR (n : Z) : comma_free (SYK2.STR n) = true.
Proof.
  unfold SYK2.STR. destruct (Z.to_int n) as [d|d]; simpl.
  - destruct d; try reflexivity; apply (comma_free_uint (_ d)).
  - destruct d; try reflexivity; apply (comma_free_uint (_ d)).
Qed.

(** The decimal digits determine the integer. *)
Lemma STR_injective (n n' : Z) : SYK2.STR n = SYK2.STR n' -> n = n'.
Proof.
  unfold SYK2.STR. intros H.
  assert (Hnn : forall z, Z.to_int z <> Decimal.Pos Decimal.Nil
                          /\ Z.to_int z <> Decimal.Neg Decimal.Nil).
  { intros [|p|p]; simpl; split; try discriminate;
      intros [= E]; exact (Unsigned.to_uint_nonnil p E). }
  apply DecimalZ.to_int_inj.
  assert (E : Some (Z.to_int n) = Some (Z.to_int n')).
  { rewrite <- (NilZero.isi (Z.to_int n)) by apply Hnn.
    rewrite <- (NilZero.isi (Z.to_int n')) by apply Hnn.
    now rewrite H. }
  now injection E.
Qed.

(** Two comma-free strings followed by a comma and more: equal wholes have
    equal parts. *)
Lemma comma_split (a b x y : string) :
  comma_free a = true -> comma_free b = true ->
  (a ++ String "," x)%string = (b ++ String "," y)%string -> a = b /\ x = y.
Proof.
  revert b. induction a as [|c a IH]; intros [|c' b] Ha Hb H; simpl in *.
  - injection H as H. auto.
  - injection H as Hc _. subst c'. discriminate Hb.
  - injection H as Hc _. subst c. discriminate Ha.
  - injection H as Hc H. subst c'.
    apply andb_prop in Ha, Hb.
    destruct (IH b (proj2 Ha) (proj2 Hb) H) as [-> ->]. auto.
Qed.

Lemma getSTR_BoundaryConditions_injective (x y : SYK2.BoundaryConditions) :
  SYK2.getSTR_BoundaryConditions x = SYK2.getSTR_BoundaryConditions y -> x = y.
Proof. destruct x, y; simpl; intros H; try reflexivity; discriminate H. Qed.

(** X17: the name that [SYK2::info] builds tells the site count and the
    boundary condition apart: for one separator, two objects get the same
    name exactly when they have the same [Ns_] and the same boundary
    condition (that of the lattice, [PBC] without one). *)
Theorem info_name_determines_Ns_and_BC {T randomGen : Type}
    (a b : SYK2.state T randomGen) (sep : string) :
  info_name a sep = info_name b sep
  <-> SYK2.Ns_ a = SYK2.Ns_ b
      /\ match SYK2.lat_ a with Some l => SYK2.get_BC l | None => SYK2.PBC end
         = match SYK2.lat_ b with Some l => SYK2.get_BC l | None => SYK2.PBC end.
Proof.
  unfold info_name, SYK2.SSTR. cbv zeta. split.
  - intros H.
    set (BCa := match SYK2.lat_ a with Some l => SYK2.get_BC l | None => SYK2.PBC end) in *.
    set (BCb := match SYK2.lat_ b with Some l => SYK2.get_BC l | None => SYK2.PBC end) in *.
    assert (Hassoc : forall x y z w : string,
               ((x ++ y ++ z) ++ w)%string = (x ++ y ++ (z ++ w))%string).
    { intros x y z w. induction x as [|c x IHx]; simpl.
      - induction y as [|c y IHy]; simpl; [reflexivity | now rewrite IHy].
      - now rewrite IHx. }
    rewrite !Hassoc in H.
    do 2 apply string_app_cancel_l in H.
    change (",BC=" ++ SYK2.getSTR_BoundaryConditions BCa)%string
      with (String "," ("BC=" ++ SYK2.getSTR_BoundaryConditions BCa)%string) in H.
    change (",BC=" ++ SYK2.getSTR_BoundaryConditions BCb)%string
      with (String "," ("BC=" ++ SYK2.getSTR_BoundaryConditions BCb)%string) in H.
    apply comma_split in H; try apply comma_free_STR.
    destruct H as [HNs HBC]. split.
    + apply STR_injective. exact HNs.
    + apply string_app_cancel_l in HBC.
      apply getSTR_BoundaryConditions_injective. exact HBC.
  - intros [HNs HBC]. rewrite HNs, HBC. reflexivity.
Qed.
